(** * configlib: resolution of a configuration record from CLI flags,
      environment variables and struct-tag defaults

    A shallow embedding of [configlib.go] (type [Parser] and its methods
    [Parse], [walkStruct], [parseFieldTags], [registerFlags],
    [applyValues], [setFieldValue]) together with the parts of the Go
    standard library the code calls ([strings], [strconv], [flag]).

    Conventions:
    - a Go [string] is a [string] of bytes;
    - a Go [map[string]T] is a [gmap string T];
    - the target record is a store of leaf values keyed by storage
      location; the walk binds the leaf at path [P] to location [P];
    - Go's [int] is 64 bits wide ([strconv.IntSize = 64]);
    - text written to standard output (the help listing) is not modelled. *)

From Stdlib Require Import ZArith Ascii String List.
From stdpp Require Import base tactics option list strings gmap sorting.

Local Open Scope string_scope.
Local Open Scope Z_scope.

(** ** Results of fallible calls *)

Inductive result (E A : Type) : Type :=
  | Ok (a : A)
  | Err (e : E).
Arguments Ok {E A} a.
Arguments Err {E A} e.

(** ** Package [strings] *)

Module strings.

(** [strings.HasPrefix(s, prefix)] *)
Definition HasPrefix (s prefix : string) : bool := String.prefix prefix s.

(** [strings.Join(elems, sep)] *)
Fixpoint Join (elems : list string) (sep : string) : string :=
  match elems with
  | [] => ""
  | [e] => e
  | e :: rest => e ++ sep ++ Join rest sep
  end.

(** [strings.Split(s, sep)] for a one-byte separator (the source only
    splits on [","]): one more element than there are separators. *)
Fixpoint Split (s : string) (sep : ascii) : list string :=
  match s with
  | EmptyString => [""]
  | String c r =>
      if Ascii.eqb c sep then "" :: Split r sep
      else match Split r sep with
           | h :: t => String c h :: t
           | [] => [String c ""]
           end
  end.

(** [strings.ReplaceAll(s, old, new)] for one-byte [old] and [new]. *)
Fixpoint ReplaceAll (s : string) (old new : ascii) : string :=
  match s with
  | EmptyString => ""
  | String c r =>
      String (if Ascii.eqb c old then new else c) (ReplaceAll r old new)
  end.

(** The UTF-8 encodings of the code points for which [unicode.IsSpace]
    holds: the six ASCII ones, U+0085, U+00A0, U+1680, U+2000..U+200A,
    U+2028, U+2029, U+202F, U+205F and U+3000. *)
Definition bytes (l : list N) : string :=
  string_of_list_ascii (map ascii_of_N l).

Definition spaceRunes : list string :=
  map bytes
    [ [9]; [10]; [11]; [12]; [13]; [32];
      [194; 133]; [194; 160]; [225; 154; 128];
      [226; 128; 128]; [226; 128; 129]; [226; 128; 130]; [226; 128; 131];
      [226; 128; 132]; [226; 128; 133]; [226; 128; 134]; [226; 128; 135];
      [226; 128; 136]; [226; 128; 137]; [226; 128; 138];
      [226; 128; 168]; [226; 128; 169]; [226; 128; 175];
      [226; 129; 159]; [227; 128; 128] ]%N.

(** The remainder of [s] after the space rune it starts with, if any. *)
Fixpoint dropPrefix (p s : string) : option string :=
  match p, s with
  | EmptyString, _ => Some s
  | String a p', String b s' =>
      if Ascii.eqb a b then dropPrefix p' s' else None
  | String _ _, EmptyString => None
  end.

Fixpoint leadingSpace (runes : list string) (s : string) : option string :=
  match runes with
  | [] => None
  | r :: rest =>
      match dropPrefix r s with
      | Some s' => Some s'
      | None => leadingSpace rest s
      end
  end.

(** Strip leading runes of [runes] for [fuel] rounds; a rune holds at
    least one byte, so [length s] rounds exhaust [s]. *)
Fixpoint trimFuel (runes : list string) (fuel : nat) (s : string) : string :=
  match fuel with
  | O => s
  | S fuel' =>
      match leadingSpace runes s with
      | Some s' => trimFuel runes fuel' s'
      | None => s
      end
  end.

(** [strings.TrimLeftFunc(s, unicode.IsSpace)] *)
Definition TrimLeftSpace (s : string) : string :=
  trimFuel spaceRunes (String.length s) s.

Definition rev (s : string) : string :=
  string_of_list_ascii (List.rev (list_ascii_of_string s)).

(** [strings.TrimRightFunc(s, unicode.IsSpace)], on the reversed bytes. *)
Definition TrimRightSpace (s : string) : string :=
  rev (trimFuel (map rev spaceRunes) (String.length s) (rev s)).

(** [strings.TrimSpace(s)] *)
Definition TrimSpace (s : string) : string :=
  TrimRightSpace (TrimLeftSpace s).

End strings.

(** A string made of runes of [runes] only. *)
Inductive spaces (runes : list string) : string → Prop :=
  | spaces_nil : spaces runes ""
  | spaces_cons r s : r ∈ runes → spaces runes s → spaces runes (r ++ s).

(** [t] is [s] without the white space at its two ends. *)
Definition trimmed (s t : string) : Prop :=
  ∃ l r, s = l ++ t ++ r
         ∧ spaces strings.spaceRunes l ∧ spaces strings.spaceRunes r
         ∧ strings.leadingSpace strings.spaceRunes t = None
         ∧ strings.leadingSpace (map strings.rev strings.spaceRunes)
             (strings.rev t) = None.

(** ** Package [strconv] *)

Module strconv.

Inductive errKind := ErrSyntax | ErrRange.

(** [*strconv.NumError] *)
Record NumError := mkNumError { Func : string; Num : string; Kind : errKind }.

Definition errKindText (k : errKind) : string :=
  match k with
  | ErrSyntax => "invalid syntax"
  | ErrRange => "value out of range"
  end.

Definition digit (c : ascii) : option Z :=
  let n := Z.of_N (N_of_ascii c) in
  if (48 <=? n) && (n <=? 57) then Some (n - 48) else None.

Definition maxUint64 : Z := 2 ^ 64 - 1.

(** The digit loop of [ParseUint(s, 10, 64)]. *)
Fixpoint parseUintLoop (s : string) (n : Z) : result errKind Z :=
  match s with
  | EmptyString => Ok n
  | String c r =>
      match digit c with
      | None => Err ErrSyntax
      | Some d =>
          if n >=? maxUint64 / 10 + 1 then Err ErrRange
          else
            let n1 := n * 10 + d in
            if n1 >? maxUint64 then Err ErrRange
            else parseUintLoop r n1
      end
  end.

(** [ParseInt(s, 10, 0)], error kind only. *)
Definition parseInt (s : string) : result errKind Z :=
  match s with
  | EmptyString => Err ErrSyntax
  | String c r =>
      let neg := Ascii.eqb c "-" in
      let body := if Ascii.eqb c "+" || neg then r else s in
      match body with
      | EmptyString => Err ErrSyntax
      | _ =>
          match parseUintLoop body 0 with
          | Err ErrSyntax => Err ErrSyntax
          | Err ErrRange => Err ErrRange
          | Ok un =>
              let cutoff := 2 ^ 63 in
              if negb neg && (un >=? cutoff) then Err ErrRange
              else if neg && (un >? cutoff) then Err ErrRange
              else Ok (if neg then - un else un)
          end
      end
  end.

(** [strconv.Atoi(s)] *)
Definition Atoi (s : string) : result NumError Z :=
  match parseInt s with
  | Ok n => Ok n
  | Err k => Err (mkNumError "Atoi" s k)
  end.

(** [strconv.ParseBool(str)] *)
Definition ParseBool (str : string) : result NumError bool :=
  if bool_decide (str ∈ ["1"; "t"; "T"; "TRUE"; "true"; "True"]) then Ok true
  else if bool_decide (str ∈ ["0"; "f"; "F"; "FALSE"; "false"; "False"])
       then Ok false
       else Err (mkNumError "ParseBool" str ErrSyntax).

(** [strconv.FormatBool(b)] *)
Definition FormatBool (b : bool) : string := if b then "true" else "false".

End strconv.

(** ** Library functions left abstract

    Floating-point parsing and narrowing, Unicode case mapping and
    [strconv.Quote] are taken as an interface: every theorem below holds
    for each implementation of it. *)

Class GoLib := {
  float64 : Type;
  float32 : Type;
  (** [strconv.ParseFloat(s, bitSize)]: the value, or the kind of error *)
  parseFloat : string → Z → result strconv.errKind float64;
  (** the conversion [float32(x)] *)
  toFloat32 : float64 → float32;
  (** [strings.ToUpper], [strings.ToLower] *)
  ToUpper : string → string;
  ToLower : string → string;
  (** [strconv.Quote] *)
  Quote : string → string;
}.

(** the [Error] method of [strconv.NumError] *)
Definition NumError_Error `{GoLib} (e : strconv.NumError) : string :=
  "strconv." ++ strconv.Func e ++ ": parsing " ++ Quote (strconv.Num e)
    ++ ": " ++ strconv.errKindText (strconv.Kind e).

(** [strconv.ParseFloat(s, bitSize)] with its [*NumError] *)
Definition ParseFloat `{GoLib} (s : string) (bitSize : Z)
    : result strconv.NumError float64 :=
  match parseFloat s bitSize with
  | Ok f => Ok f
  | Err k => Err (strconv.mkNumError "ParseFloat" s k)
  end.

(** ** Package [reflect]: kinds, types, struct fields and tags *)

Module reflect.

Inductive Kind :=
  | Invalid | Bool | Int | Int8 | Int16 | Int32 | Int64
  | Uint | Uint8 | Uint16 | Uint32 | Uint64 | Uintptr
  | Float32 | Float64 | Complex64 | Complex128
  | Array | Chan | Func | Interface | Map | Pointer
  | Slice | String | Struct | UnsafePointer.

#[global] Instance Kind_eq_dec : EqDecision Kind.
Proof. solve_decision. Defined.

(** A struct tag as its key/value pairs in the order written. *)
Definition StructTag := list (string * string).

(** [tag.Get(key)]: the first value under [key], or the empty string. *)
Fixpoint Get (tag : StructTag) (key : string) : string :=
  match tag with
  | [] => ""%string
  | (k, v) :: rest => if decide (k = key) then v else Get rest key
  end.

(** [reflect.Type]. [Basic k] is a type of kind [k] whose structure
    the code never looks into; slices carry their element type and
    structs their fields. A struct field has its name, whether it is
    exported (then the walk finds it settable, [CanSet]), its tag and
    its type. *)
Inductive Type_ :=
  | Basic (k : Kind)
  | SliceOf (elem : Type_)
  | StructOf (fields : list StructField)
with StructField :=
  | mkStructField (Name : string) (Exported : bool) (Tag : StructTag)
                  (Typ : Type_).

Definition Name (f : StructField) : string :=
  match f with mkStructField n _ _ _ => n end.
Definition Exported (f : StructField) : bool :=
  match f with mkStructField _ e _ _ => e end.
Definition Tag (f : StructField) : StructTag :=
  match f with mkStructField _ _ t _ => t end.
Definition Typ (f : StructField) : Type_ :=
  match f with mkStructField _ _ _ t => t end.

(** [t.Kind()] *)
Definition KindOf (t : Type_) : Kind :=
  match t with
  | Basic k => k
  | SliceOf _ => Slice
  | StructOf _ => Struct
  end.

(** [t.Elem()] of a slice type *)
Definition Elem (t : Type_) : Type_ :=
  match t with
  | SliceOf e => e
  | _ => Basic Invalid
  end.

End reflect.

(** ** The target record *)

(** The contents of one leaf of the record. *)
Inductive Datum `{GoLib} :=
  | VString (s : string)
  | VInt (n : Z)
  | VFloat32 (f : float32)
  | VFloat64 (f : float64)
  | VBool (b : bool)
  | VStrings (l : list string)
  | VOpaque (repr : string).

(** The record: leaf storage by location. *)
Abbreviation Store := (gmap string Datum).

Section Setters.
Context `{GoLib}.

(** [v.SetString(x)], [v.SetInt(x)], [v.SetBool(x)], [v.Set(slice)] *)
Definition SetString (loc x : string) (st : Store) : Store :=
  <[loc := VString x]> st.
Definition SetInt (loc : string) (x : Z) (st : Store) : Store :=
  <[loc := VInt x]> st.
Definition SetBool (loc : string) (x : bool) (st : Store) : Store :=
  <[loc := VBool x]> st.
Definition SetStrings (loc : string) (x : list string) (st : Store) : Store :=
  <[loc := VStrings x]> st.

(** [v.SetFloat(x)] narrows to the width of the field. *)
Definition SetFloat (k : reflect.Kind) (loc : string) (x : float64)
    (st : Store) : Store :=
  match k with
  | reflect.Float32 => <[loc := VFloat32 (toFloat32 x)]> st
  | _ => <[loc := VFloat64 x]> st
  end.
End Setters.

(** ** [fieldInfo] and [Parser] *)

Record fieldInfo := mkFieldInfo {
  EnvName : string;
  CliName : string;
  CliNames : list string;
  DefaultVal : string;
  Required : bool;
  Description : string;
  FieldPath : string;
  (** [reflect.Value]: the location of the field in the record *)
  Value : string;
  Type_ : reflect.Type_;
}.

Module flag.

(** The closures [registerFlags] hands to [flagSet.Func], each closed
    over the primary flag name it records under. *)
Inductive handler :=
  | StringHandler (flagName : string)
  | IntHandler (flagName : string)
  | FloatHandler (flagName : string)
  | SliceHandler (flagName : string).

(** [flag.Value]: a function value, the bool variable [p.showHelp], or
    the bool variable allocated for a flag name. *)
Inductive FlagValue :=
  | funcValue (h : handler)
  | showHelpValue
  | boolValue (flagName : string).

(** [*flag.FlagSet] *)
Record FlagSet := mkFlagSet {
  formal : gmap string FlagValue;
  actual : gset string;
}.

End flag.

(** [boolFlags] maps a flag name to the bool variable allocated for it;
    the variable is reachable through that entry and through the flag
    registered under the same name only, so the map holds its contents. *)
Record Parser := mkParser {
  fields : list fieldInfo;
  flagSet : flag.FlagSet;
  flagValues : gmap string string;
  showHelp : bool;
  boolFlags : gmap string bool;
  disableAutoEnv : bool;
  disableAutoFlag : bool;
  envPrefix : string;
}.

Definition with_fields (p : Parser) (x : list fieldInfo) : Parser :=
  mkParser x (flagSet p) (flagValues p) (showHelp p) (boolFlags p)
           (disableAutoEnv p) (disableAutoFlag p) (envPrefix p).
Definition with_flagSet (p : Parser) (x : flag.FlagSet) : Parser :=
  mkParser (fields p) x (flagValues p) (showHelp p) (boolFlags p)
           (disableAutoEnv p) (disableAutoFlag p) (envPrefix p).
Definition with_flagValues (p : Parser) (x : gmap string string) : Parser :=
  mkParser (fields p) (flagSet p) x (showHelp p) (boolFlags p)
           (disableAutoEnv p) (disableAutoFlag p) (envPrefix p).
Definition with_showHelp (p : Parser) (x : bool) : Parser :=
  mkParser (fields p) (flagSet p) (flagValues p) x (boolFlags p)
           (disableAutoEnv p) (disableAutoFlag p) (envPrefix p).
Definition with_boolFlags (p : Parser) (x : gmap string bool) : Parser :=
  mkParser (fields p) (flagSet p) (flagValues p) (showHelp p) x
           (disableAutoEnv p) (disableAutoFlag p) (envPrefix p).
Definition with_disableAutoEnv (p : Parser) (x : bool) : Parser :=
  mkParser (fields p) (flagSet p) (flagValues p) (showHelp p) (boolFlags p)
           x (disableAutoFlag p) (envPrefix p).
Definition with_disableAutoFlag (p : Parser) (x : bool) : Parser :=
  mkParser (fields p) (flagSet p) (flagValues p) (showHelp p) (boolFlags p)
           (disableAutoEnv p) x (envPrefix p).
Definition with_envPrefix (p : Parser) (x : string) : Parser :=
  mkParser (fields p) (flagSet p) (flagValues p) (showHelp p) (boolFlags p)
           (disableAutoEnv p) (disableAutoFlag p) x.

(** [Option]: the three functional options. *)
Inductive Option_ :=
  | WithDisableAutoEnv
  | WithDisableAutoFlag
  | WithEnvPrefix (prefix : string).

Definition applyOption (p : Parser) (opt : Option_) : Parser :=
  match opt with
  | WithDisableAutoEnv => with_disableAutoEnv p true
  | WithDisableAutoFlag => with_disableAutoFlag p true
  | WithEnvPrefix prefix => with_envPrefix p prefix
  end.

(** [NewParser(opts...)]: an empty parser, the options applied in order,
    then the two help switches, both bound to [p.showHelp]. *)
Definition NewParser (opts : list Option_) : Parser :=
  let p := mkParser [] (flag.mkFlagSet ∅ ∅) ∅ false ∅ false false "" in
  let p := foldl applyOption p opts in
  with_flagSet p
    (flag.mkFlagSet
       (<["h" := flag.showHelpValue]>
          (<["help" := flag.showHelpValue]> (flag.formal (flagSet p))))
       (flag.actual (flagSet p))).

(** ** The struct walk *)

Section Walk.
Context `{GoLib}.

(** [parseFieldTags(field, path, value)] *)
Definition parseFieldTags (p : Parser) (field : reflect.StructField)
    (path : string) (value : string) : fieldInfo :=
  let envTag := reflect.Get (reflect.Tag field) "env" in
  let envName :=
    if negb (String.eqb envTag "") then envTag
    else if negb (disableAutoEnv p)
         then ToUpper (strings.ReplaceAll path "." "_")
         else "" in
  let envName :=
    if negb (String.eqb envName "") && negb (String.eqb (envPrefix p) "")
    then if negb (strings.HasPrefix envName (envPrefix p))
         then envPrefix p ++ envName
         else envName
    else envName in
  let flagTag := reflect.Get (reflect.Tag field) "flag" in
  let '(cliName, cliNames) :=
    if negb (String.eqb flagTag "") then
      let flags := map strings.TrimSpace (strings.Split flagTag ",") in
      (hd "" flags, flags)
    else if negb (disableAutoFlag p) then
      let n := ToLower (strings.ReplaceAll path "." "-") in
      (n, [n])
    else ("", []) in
  {| EnvName := envName;
     CliName := cliName;
     CliNames := cliNames;
     DefaultVal := reflect.Get (reflect.Tag field) "default";
     Required := String.eqb (reflect.Get (reflect.Tag field) "required") "true";
     Description := reflect.Get (reflect.Tag field) "desc";
     FieldPath := path;
     Value := value;
     Type_ := reflect.Typ field |}.

(** The test that admits a descriptor to [p.fields]. *)
Definition configurable (info : fieldInfo) : bool :=
  negb (String.eqb (EnvName info) "")
  || negb (String.eqb (CliName info) "")
  || negb (String.eqb (DefaultVal info) "").

(** The path of a member: its name, after the prefix and a dot if the
    prefix is not empty. *)
Definition joinPath (pathPrefix name : string) : string :=
  if negb (String.eqb pathPrefix "") then pathPrefix ++ "." ++ name
  else name.

(** [walkStruct(val, pathPrefix)] on a value of type [typ]; the leaf at
    path [P] is stored at location [P]. It always returns a nil error. *)
Fixpoint walkStruct (p : Parser) (typ : reflect.Type_) (pathPrefix : string)
    {struct typ} : Parser :=
  match typ with
  | reflect.StructOf members =>
      (fix loop (members : list reflect.StructField) (p : Parser)
           {struct members} : Parser :=
         match members with
         | [] => p
         | reflect.mkStructField name exported tag ftyp :: rest =>
             let fieldType := reflect.mkStructField name exported tag ftyp in
             if negb exported then loop rest p
             else
               let fieldPath := joinPath pathPrefix name in
               if decide (reflect.KindOf ftyp = reflect.Struct)
               then loop rest (walkStruct p ftyp fieldPath)
               else
                 let info := parseFieldTags p fieldType fieldPath fieldPath in
                 if configurable info
                 then loop rest (with_fields p (fields p ++ [info])%list)
                 else loop rest p
         end) members p
  | _ => p
  end.

(** The loop of [walkStruct] over the members that are left. *)
Definition walkMembers (p : Parser) (members : list reflect.StructField)
    (pathPrefix : string) : Parser :=
  walkStruct p (reflect.StructOf members) pathPrefix.

End Walk.

(** The leaf fields the walk discovers in a record type, each with its
    path: the settable members that are not structs, and the leaves of
    the settable members that are. *)
Inductive leaf : reflect.Type_ → string → reflect.StructField → string → Prop :=
  | leaf_here members pathPrefix sf :
      sf ∈ members → reflect.Exported sf = true →
      reflect.KindOf (reflect.Typ sf) ≠ reflect.Struct →
      leaf (reflect.StructOf members) pathPrefix sf
           (joinPath pathPrefix (reflect.Name sf))
  | leaf_nested members pathPrefix sf inner path :
      sf ∈ members → reflect.Exported sf = true →
      reflect.KindOf (reflect.Typ sf) = reflect.Struct →
      leaf (reflect.Typ sf) (joinPath pathPrefix (reflect.Name sf)) inner path →
      leaf (reflect.StructOf members) pathPrefix inner path.

(** ** Flag registration and command-line parsing *)

Definition nl : string := String (ascii_of_nat 10) "".

Fixpoint containsByte (s : string) (c : ascii) : bool :=
  match s with
  | EmptyString => false
  | String a r => Ascii.eqb a c || containsByte r c
  end.

Section Flags.
Context `{GoLib}.

(** [f.Var(value, name, usage)]: panics on a name that begins with a
    dash, contains an equals sign, or is already defined. *)
Definition Var (f : flag.FlagSet) (value : flag.FlagValue) (name : string)
    : result string flag.FlagSet :=
  if strings.HasPrefix name "-"
  then Err ("flag " ++ Quote name ++ " begins with -")
  else if containsByte name "="
  then Err ("flag " ++ Quote name ++ " contains =")
  else match flag.formal f !! name with
       | Some _ => Err ("config flag redefined: " ++ name)
       | None =>
           Ok (flag.mkFlagSet (<[name := value]> (flag.formal f))
                              (flag.actual f))
       end.

(** One iteration of the inner loop of [registerFlags]: register
    [flagName] for [field] according to the kind of the field. *)
Definition registerFlag (p : Parser) (field : fieldInfo) (flagName : string)
    : result string Parser :=
  let viaFunc h :=
    match Var (flagSet p) (flag.funcValue h) flagName with
    | Ok f => Ok (with_flagSet p f)
    | Err e => Err e
    end in
  match reflect.KindOf (Type_ field) with
  | reflect.String => viaFunc (flag.StringHandler (CliName field))
  | reflect.Int => viaFunc (flag.IntHandler (CliName field))
  | reflect.Float32 | reflect.Float64 =>
      viaFunc (flag.FloatHandler (CliName field))
  | reflect.Bool =>
      match Var (flagSet p) (flag.boolValue flagName) flagName with
      | Ok f =>
          Ok (with_boolFlags (with_flagSet p f)
                             (<[flagName := false]> (boolFlags p)))
      | Err e => Err e
      end
  | reflect.Slice => viaFunc (flag.SliceHandler (CliName field))
  | _ => Ok p
  end.

Fixpoint registerNames (p : Parser) (field : fieldInfo)
    (names : list string) : result string Parser :=
  match names with
  | [] => Ok p
  | flagName :: rest =>
      match registerFlag p field flagName with
      | Ok p' => registerNames p' field rest
      | Err e => Err e
      end
  end.

Fixpoint registerFields (p : Parser) (fs : list fieldInfo)
    : result string Parser :=
  match fs with
  | [] => Ok p
  | field :: rest =>
      if (length (CliNames field) =? 0)%nat || String.eqb (CliName field) ""
      then registerFields p rest
      else match registerNames p field (CliNames field) with
           | Ok p' => registerFields p' rest
           | Err e => Err e
           end
  end.

(** [registerFlags()]; [Err] is a panic of the flag package. *)
Definition registerFlags (p : Parser) : result string Parser :=
  registerFields p (fields p).

(** The handlers [createStringHandler], [createIntHandler],
    [createFloatHandler] and [createSliceHandler] applied to [s]. *)
Definition runHandler (h : flag.handler) (s : string) (p : Parser)
    : result string Parser :=
  match h with
  | flag.StringHandler flagName =>
      Ok (with_flagValues p (<[flagName := s]> (flagValues p)))
  | flag.IntHandler flagName =>
      match strconv.Atoi s with
      | Err _ => Err ("invalid integer value: " ++ s)
      | Ok _ => Ok (with_flagValues p (<[flagName := s]> (flagValues p)))
      end
  | flag.FloatHandler flagName =>
      match ParseFloat s 64 with
      | Err _ => Err ("invalid float value: " ++ s)
      | Ok _ => Ok (with_flagValues p (<[flagName := s]> (flagValues p)))
      end
  | flag.SliceHandler flagName =>
      Ok (with_flagValues p (<[flagName := s]> (flagValues p)))
  end.

(** What [parseOne] makes of the next argument. *)
Inductive token :=
  | NonFlag
  | Terminator
  | BadSyntax
  | FlagTok (name : string) (hasValue : bool) (value : string).

(** Cut [name] at its first equals sign (the caller keeps the first
    byte out: an equals sign cannot come first). *)
Fixpoint cutEquals (name : string) : string * bool * string :=
  match name with
  | EmptyString => ("", false, "")
  | String c r =>
      if Ascii.eqb c "=" then ("", true, r)
      else let '(n, hv, v) := cutEquals r in (String c n, hv, v)
  end.

Definition flagName (name : string) : token :=
  match name with
  | EmptyString => BadSyntax
  | String c r =>
      if Ascii.eqb c "-" || Ascii.eqb c "=" then BadSyntax
      else let '(n, hv, v) := cutEquals r in FlagTok (String c n) hv v
  end.

Definition classify (s : string) : token :=
  match s with
  | String c0 (String c1 r) =>
      if negb (Ascii.eqb c0 "-") then NonFlag
      else if Ascii.eqb c1 "-"
           then match r with
                | EmptyString => Terminator
                | _ => flagName r
                end
           else flagName (String c1 r)
  | _ => NonFlag
  end.

Definition markActual (p : Parser) (name : string) : Parser :=
  with_flagSet p
    (flag.mkFlagSet (flag.formal (flagSet p))
                    ({[name]} ∪ flag.actual (flagSet p))).

(** [Set] of a bool flag: the variable takes the parsed value (false
    when the text does not parse), and the error is a parse error. *)
Definition setBool (p : Parser) (target : flag.FlagValue) (s : string)
    : Parser * bool :=
  let '(v, ok) :=
    match strconv.ParseBool s with
    | Ok b => (b, true)
    | Err _ => (false, false)
    end in
  match target with
  | flag.showHelpValue => (with_showHelp p v, ok)
  | flag.boolValue n => (with_boolFlags p (<[n := v]> (boolFlags p)), ok)
  | flag.funcValue _ => (p, ok)
  end.

(** [f.Parse(arguments)]: the loop over [parseOne]. The result is the
    parser state and the error, if any ([ContinueOnError]). *)
Fixpoint flagParse (p : Parser) (args : list string)
    : Parser * option string :=
  match args with
  | [] => (p, None)
  | s :: rest =>
      match classify s with
      | NonFlag | Terminator => (p, None)
      | BadSyntax => (p, Some ("bad flag syntax: " ++ s))
      | FlagTok name hasValue value =>
          match flag.formal (flagSet p) !! name with
          | None =>
              if String.eqb name "help" || String.eqb name "h"
              then (p, Some "flag: help requested")
              else (p, Some ("flag provided but not defined: -" ++ name))
          | Some (flag.funcValue h) =>
              if hasValue then
                match runHandler h value p with
                | Ok p' => flagParse (markActual p' name) rest
                | Err e =>
                    (p, Some ("invalid value " ++ Quote value
                                ++ " for flag -" ++ name ++ ": " ++ e))
                end
              else
                match rest with
                | [] => (p, Some ("flag needs an argument: -" ++ name))
                | value :: rest' =>
                    match runHandler h value p with
                    | Ok p' => flagParse (markActual p' name) rest'
                    | Err e =>
                        (p, Some ("invalid value " ++ Quote value
                                    ++ " for flag -" ++ name ++ ": " ++ e))
                    end
                end
          | Some target =>
              let '(p', ok) := setBool p target (if hasValue then value else "true") in
              if ok then flagParse (markActual p' name) rest
              else if hasValue
                   then (p', Some ("invalid boolean value " ++ Quote value
                                     ++ " for -" ++ name ++ ": parse error"))
                   else (p', Some ("invalid boolean flag " ++ name
                                     ++ ": parse error"))
          end
      end
  end.

(** The callback [Parse] passes to [flagSet.Visit], applied to the flag
    named [name]: every field that lists the name records the value of
    the bool variable under its primary name. *)
Fixpoint recordBool (names : list string) (name : string)
    (primary : string) (b : bool) (fv : gmap string string)
    : gmap string string :=
  match names with
  | [] => fv
  | n :: rest =>
      if String.eqb n name then <[primary := strconv.FormatBool b]> fv
      else recordBool rest name primary b fv
  end.

Definition visitFlag (p : Parser) (name : string) : Parser :=
  match boolFlags p !! name with
  | Some b =>
      foldl (λ p field,
               with_flagValues p
                 (recordBool (CliNames field) name (CliName field) b
                             (flagValues p)))
            p (fields p)
  | None => p
  end.

(** [f.Visit(fn)]: the flags that were set, in lexicographical order. *)
Definition Visit (p : Parser) : Parser :=
  foldl visitFlag p (merge_sort String.le (elements (flag.actual (flagSet p)))).

End Flags.

(** ** Resolution: precedence, coercion, required fields *)

(** [os.Getenv(key)] in the environment [env] *)
Definition Getenv (env : gmap string string) (key : string) : string :=
  default "" (env !! key).

Section Resolve.
Context `{GoLib}.

(** [setFieldValue(field, value)] *)
Definition setFieldValue (field : fieldInfo) (value : string) (st : Store)
    : result strconv.NumError Store :=
  match reflect.KindOf (Type_ field) with
  | reflect.String => Ok (SetString (Value field) value st)
  | reflect.Int =>
      match strconv.Atoi value with
      | Err err => Err err
      | Ok intVal => Ok (SetInt (Value field) intVal st)
      end
  | reflect.Float32 | reflect.Float64 =>
      match ParseFloat value 64 with
      | Err err => Err err
      | Ok floatVal =>
          Ok (SetFloat (reflect.KindOf (Type_ field)) (Value field)
                       floatVal st)
      end
  | reflect.Bool =>
      match strconv.ParseBool value with
      | Err err => Err err
      | Ok boolVal => Ok (SetBool (Value field) boolVal st)
      end
  | reflect.Slice =>
      if decide (reflect.KindOf (reflect.Elem (Type_ field)) = reflect.String)
      then
        let parts := strings.Split value "," in
        Ok (SetStrings (Value field) (map strings.TrimSpace parts) st)
      else Ok st
  | _ => Ok st
  end.

(** The first part of the loop body of [applyValues]: the pair
    [(finalValue, hasValue)] after the three priority blocks. *)
Definition selectValue (p : Parser) (env : gmap string string)
    (field : fieldInfo) : string * bool :=
  let '(finalValue, hasValue) :=
    if negb (String.eqb (CliName field) "") then
      match flagValues p !! CliName field with
      | Some val => if negb (String.eqb val "") then (val, true)
                    else ("", false)
      | None => ("", false)
      end
    else ("", false) in
  let '(finalValue, hasValue) :=
    if negb hasValue && negb (String.eqb (EnvName field) "") then
      let envVal := Getenv env (EnvName field) in
      if negb (String.eqb envVal "") then (envVal, true)
      else (finalValue, hasValue)
    else (finalValue, hasValue) in
  if negb hasValue && negb (String.eqb (DefaultVal field) "")
  then (DefaultVal field, true)
  else (finalValue, hasValue).

(** The entry of [missingFields] for a required field without a value. *)
Definition missingEntry (field : fieldInfo) : string :=
  let sources : list string := [] in
  let sources :=
    if negb (String.eqb (EnvName field) "")
    then (sources ++ [("env: " ++ EnvName field)%string])%list else sources in
  let sources :=
    if negb (String.eqb (CliName field) "")
    then (sources ++ [("flag: --" ++ CliName field)%string])%list else sources in
  FieldPath field ++ " (" ++ strings.Join sources ", " ++ ")".

(** The loop of [applyValues] over the remaining fields [fs], with the
    violations collected so far, and its closing check. The result is
    the returned error ([None] is nil) and the record as it is left. *)
Fixpoint applyLoop (p : Parser) (env : gmap string string)
    (fs : list fieldInfo) (missingFields : list string) (st : Store)
    : option string * Store :=
  match fs with
  | [] =>
      if (0 <? length missingFields)%nat
      then (Some ("missing required fields:" ++ nl ++ "  - "
                    ++ strings.Join missingFields (nl ++ "  - ")), st)
      else (None, st)
  | field :: rest =>
      let '(finalValue, hasValue) := selectValue p env field in
      let missingFields :=
        if Required field && negb hasValue
        then (missingFields ++ [missingEntry field])%list
        else missingFields in
      if hasValue then
        match setFieldValue field finalValue st with
        | Err err =>
            (Some ("error setting field " ++ FieldPath field ++ ": "
                     ++ NumError_Error err), st)
        | Ok st' => applyLoop p env rest missingFields st'
        end
      else applyLoop p env rest missingFields st
  end.

(** [applyValues()] *)
Definition applyValues (p : Parser) (env : gmap string string) (st : Store)
    : option string * Store :=
  applyLoop p env (fields p) [] st.

(** How a call of [Parse] ends. *)
Inductive outcome :=
  | Returned (err : option string) (st : Store)
  | Exited (code : Z)
  | Panicked (msg : string).

(** [(p *Parser) Parse(config)] where [config] points to a record of
    type [typ] with contents [st], [args] is [os.Args[1:]] and [env]
    the process environment. *)
Definition Parse (p : Parser) (typ : reflect.Type_) (st : Store)
    (args : list string) (env : gmap string string) : outcome :=
  let p := walkStruct p typ "" in
  match registerFlags p with
  | Err msg => Panicked msg
  | Ok p =>
      match flagParse p args with
      | (_, Some err) => Returned (Some err) st
      | (p, None) =>
          if showHelp p then Exited 0
          else
            let p := Visit p in
            let '(err, st') := applyValues p env st in
            Returned err st'
      end
  end.

(** [configlib.Parse(config)] *)
Definition ParseDefault (typ : reflect.Type_) (st : Store)
    (args : list string) (env : gmap string string) : outcome :=
  Parse (NewParser []) typ st args env.

End Resolve.

(** ** The help listing *)

Module utf8.

(** The entry of the table [first] for a byte: [None] for a byte that
    starts no multi-byte sequence, else the length of the sequence and
    the range accepted for its second byte. *)
Definition first (b : N) : option (nat * N * N) :=
  (if b <? 194 then None
   else if b <=? 223 then Some (2%nat, 128, 191)
   else if b =? 224 then Some (3%nat, 160, 191)
   else if b <=? 236 then Some (3%nat, 128, 191)
   else if b =? 237 then Some (3%nat, 128, 159)
   else if b <=? 239 then Some (3%nat, 128, 191)
   else if b =? 240 then Some (4%nat, 144, 191)
   else if b <=? 243 then Some (4%nat, 128, 191)
   else if b =? 244 then Some (4%nat, 128, 143)
   else None)%N.

(** A continuation byte. *)
Definition cont (c : ascii) : bool :=
  ((128 <=? N_of_ascii c) && (N_of_ascii c <=? 191))%N.

(** [utf8.RuneCountInString(s)]: a well-formed sequence counts as one
    rune, any other byte as one rune by itself. *)
Fixpoint RuneCountInString (s : string) : nat :=
  match s with
  | EmptyString => O
  | String c r =>
      S (match first (N_of_ascii c) with
         | None => RuneCountInString r
         | Some (size, lo, hi) =>
             match r with
             | EmptyString => RuneCountInString r
             | String c1 r1 =>
                 if ((lo <=? N_of_ascii c1) && (N_of_ascii c1 <=? hi))%N
                 then
                   if (size =? 2)%nat then RuneCountInString r1
                   else
                     match r1 with
                     | EmptyString => RuneCountInString r
                     | String c2 r2 =>
                         if cont c2 then
                           if (size =? 3)%nat then RuneCountInString r2
                           else
                             match r2 with
                             | EmptyString => RuneCountInString r
                             | String c3 r3 =>
                                 if cont c3 then RuneCountInString r3
                                 else RuneCountInString r
                             end
                         else RuneCountInString r
                     end
                 else RuneCountInString r
             end
         end)
  end.

End utf8.

(** [count] spaces. *)
Fixpoint spacesOf (count : nat) : string :=
  match count with
  | O => ""
  | S n => String " " (spacesOf n)
  end.

(** [strings.Repeat(" ", count)]: panics on a negative count. *)
Definition RepeatSpace (count : Z) : result string string :=
  if count <? 0 then Err "strings: negative Repeat count"
  else Ok (spacesOf (Z.to_nat count)).

(** The verb [%-*s] of [fmt.Printf] with a width that is not negative:
    [s], then spaces up to [width] runes. *)
Definition padRight (width : Z) (s : string) : string :=
  s ++ spacesOf (Z.to_nat (width - Z.of_nat (utf8.RuneCountInString s))).

(** The test [len(field.CliNames) == 0 || field.CliName == ""] that
    skips a descriptor in [PrintHelp]. *)
Definition noCliFlags (field : fieldInfo) : bool :=
  (length (CliNames field) =? 0)%nat || String.eqb (CliName field) "".

(** The inner loop of the width computation of [PrintHelp]: the names
    from index [i] on. *)
Fixpoint namesLen (names : list string) (i : nat) (flagLen : Z) : Z :=
  match names with
  | [] => flagLen
  | name :: rest =>
      let flagLen := if (0 <? i)%nat then flagLen + 2 else flagLen in
      let flagLen :=
        if (String.length name =? 1)%nat
        then flagLen + (1 + Z.of_nat (String.length name))
        else flagLen + (2 + Z.of_nat (String.length name)) in
      namesLen rest (S i) flagLen
  end.

(** The width [PrintHelp] computes for one descriptor. *)
Definition flagLenOf (field : fieldInfo) : Z :=
  let flagLen := namesLen (CliNames field) 0 0 in
  if negb (bool_decide (reflect.KindOf (Type_ field) = reflect.Bool))
  then flagLen + 8 else flagLen.

(** The first loop of [PrintHelp]. *)
Fixpoint maxWidthLoop (fs : list fieldInfo) (maxWidth : Z) : Z :=
  match fs with
  | [] => maxWidth
  | field :: rest =>
      if noCliFlags field then maxWidthLoop rest maxWidth
      else
        let flagLen := flagLenOf field in
        maxWidthLoop rest (if flagLen >? maxWidth then flagLen else maxWidth)
  end.

(** The string [flag] that [printFieldHelp] builds. *)
Definition flagSignature (field : fieldInfo) : string :=
  let flagParts :=
    map (λ name, if (String.length name =? 1)%nat
                 then "-" ++ name else "--" ++ name)
        (CliNames field) in
  let flag := strings.Join flagParts ", " in
  if negb (bool_decide (reflect.KindOf (Type_ field) = reflect.Bool))
  then flag ++ " <value>" else flag.

(** The string [desc] that [printFieldHelp] builds. *)
Definition flagDescription (field : fieldInfo) : string :=
  let desc := Description field in
  let desc := if String.eqb desc "" then FieldPath field else desc in
  let desc :=
    if negb (String.eqb (DefaultVal field) "")
       && negb (bool_decide (reflect.KindOf (Type_ field) = reflect.Bool))
    then desc ++ " (default: " ++ DefaultVal field ++ ")" else desc in
  if Required field then desc ++ " [required]" else desc.

(** [printFieldHelp(field, width)]: the line it prints. *)
Definition printFieldHelp (field : fieldInfo) (width : Z) : string :=
  "  " ++ padRight width (flagSignature field) ++ " "
    ++ flagDescription field ++ nl.

(** The second loop of [PrintHelp]. *)
Fixpoint printFields (fs : list fieldInfo) (maxWidth : Z) : string :=
  match fs with
  | [] => ""
  | field :: rest =>
      if noCliFlags field then printFields rest maxWidth
      else printFieldHelp field maxWidth ++ printFields rest maxWidth
  end.

(** The three lines [PrintHelp] starts with, for the program name
    [prog] ([os.Args[0]]). *)
Definition helpHeader (prog : string) : string :=
  "Usage: " ++ prog ++ " [options]" ++ nl ++ nl ++ "Options:" ++ nl.

(** [PrintHelp()]: the text written to standard output and, if the call
    panics, the message. *)
Definition PrintHelp (p : Parser) (prog : string) : string * option string :=
  let out := helpHeader prog in
  let maxWidth := maxWidthLoop (fields p) 0 + 4 in
  let out := out ++ printFields (fields p) maxWidth in
  match RepeatSpace (maxWidth - 10) with
  | Err msg => (out, Some msg)
  | Ok pad =>
      (out ++ "  -h, --help" ++ pad ++ " Show this help message" ++ nl, None)
  end.

Section ParseOutput.
Context `{GoLib}.

(** [Parse] with what it writes to standard output. The flag set calls
    its usage function, which is [PrintHelp], before it returns an
    error, and [Parse] calls [PrintHelp] before it exits on a help
    switch; a panic of [PrintHelp] ends the call. *)
Definition ParseWithOutput (p : Parser) (typ : reflect.Type_) (st : Store)
    (args : list string) (env : gmap string string) (prog : string)
    : string * outcome :=
  let p := walkStruct p typ "" in
  match registerFlags p with
  | Err msg => ("", Panicked msg)
  | Ok p =>
      match flagParse p args with
      | (p, Some err) =>
          match PrintHelp p prog with
          | (out, Some msg) => (out, Panicked msg)
          | (out, None) => (out, Returned (Some err) st)
          end
      | (p, None) =>
          if showHelp p then
            match PrintHelp p prog with
            | (out, Some msg) => (out, Panicked msg)
            | (out, None) => (out, Exited 0)
            end
          else
            let p := Visit p in
            let '(err, st') := applyValues p env st in
            ("", Returned err st')
      end
  end.

End ParseOutput.

(** ** An implementation of the library interface, to run examples

    ASCII case mapping; quoting of text that needs no escapes; float
    literals that are decimal integers with an optional sign, kept as
    the number they denote, out of range from half a unit in the last
    place above the largest float of the requested width. Any other
    float text is rejected: the examples use none. *)

Module Example.

Definition mapBytes (f : N → N) (s : string) : string :=
  string_of_list_ascii
    (map (λ c, ascii_of_N (f (N_of_ascii c))) (list_ascii_of_string s)).

Definition upper (n : N) : N :=
  if ((97 <=? n) && (n <=? 122))%N then (n - 32)%N else n.
Definition lower (n : N) : N :=
  if ((65 <=? n) && (n <=? 90))%N then (n + 32)%N else n.

Definition dquote : string := String (ascii_of_nat 34) "".

Inductive number :=
  | Finite (n : Z)
  | Infinite (negative : bool).

Fixpoint digits (s : string) (acc : Z) : option Z :=
  match s with
  | EmptyString => Some acc
  | String c r =>
      match strconv.digit c with
      | Some d => digits r (acc * 10 + d)
      | None => None
      end
  end.

Definition floatLimit (bitSize : Z) : Z :=
  if bitSize =? 32 then 2 ^ 128 - 2 ^ 103 else 2 ^ 1024 - 2 ^ 970.

Definition parseDecimal (s : string) (bitSize : Z)
    : result strconv.errKind number :=
  match s with
  | EmptyString => Err strconv.ErrSyntax
  | String c r =>
      let neg := Ascii.eqb c "-" in
      let body := if Ascii.eqb c "+" || neg then r else s in
      match body with
      | EmptyString => Err strconv.ErrSyntax
      | _ =>
          match digits body 0 with
          | None => Err strconv.ErrSyntax
          | Some n =>
              if n >=? floatLimit bitSize then Err strconv.ErrRange
              else Ok (Finite (if neg then - n else n))
          end
      end
  end.

Definition narrow (x : number) : number :=
  match x with
  | Finite n =>
      if Z.abs n >=? floatLimit 32 then Infinite (n <? 0) else Finite n
  | Infinite s => Infinite s
  end.

Definition lib : GoLib := {|
  float64 := number;
  float32 := number;
  parseFloat := parseDecimal;
  toFloat32 := narrow;
  ToUpper := mapBytes upper;
  ToLower := mapBytes lower;
  Quote := λ s, dquote ++ s ++ dquote;
|}.

(** Record types of the tests and examples of the package. *)
Definition member (name : string) (typ : reflect.Type_)
    (tag : reflect.StructTag) : reflect.StructField :=
  reflect.mkStructField name true tag typ.

Definition tString : reflect.Type_ := reflect.Basic reflect.String.
Definition tInt : reflect.Type_ := reflect.Basic reflect.Int.
Definition tBool : reflect.Type_ := reflect.Basic reflect.Bool.

Definition Config : reflect.Type_ :=
  reflect.StructOf
    [ member "Host" tString
        [("env", "HOST"); ("flag", "host,H"); ("default", "localhost")];
      member "Port" tInt
        [("env", "PORT"); ("flag", "port,p"); ("default", "8080")];
      member "Debug" tBool [("env", "DEBUG"); ("flag", "debug,d")] ].

Definition KeysConfig : reflect.Type_ :=
  reflect.StructOf
    [ member "APIKey" tString
        [("env", "API_KEY"); ("flag", "api-key"); ("required", "true")];
      member "DatabaseURL" tString
        [("env", "DATABASE_URL"); ("flag", "database-url");
         ("required", "true")];
      member "SecretKey" tString
        [("env", "SECRET_KEY"); ("flag", "secret-key"); ("required", "true")];
      member "Port" tInt
        [("env", "PORT"); ("flag", "port"); ("default", "8080")] ].

Definition hostField : fieldInfo :=
  {| EnvName := "HOST"; CliName := "host"; CliNames := ["host"; "H"];
     DefaultVal := "localhost"; Required := false; Description := "";
     FieldPath := "Host"; Value := "Host"; Type_ := tString |}.

Definition portField : fieldInfo :=
  {| EnvName := "PORT"; CliName := "port"; CliNames := ["port"; "p"];
     DefaultVal := "8080"; Required := false; Description := "";
     FieldPath := "Port"; Value := "Port"; Type_ := tInt |}.

Definition debugField : fieldInfo :=
  {| EnvName := "DEBUG"; CliName := "debug"; CliNames := ["debug"; "d"];
     DefaultVal := ""; Required := false; Description := "";
     FieldPath := "Debug"; Value := "Debug"; Type_ := tBool |}.

Definition cliParser : Parser :=
  with_flagValues (NewParser []) {["host" := "example.com"]}.

Definition hostEnv : gmap string string := {["HOST" := "env.example.com"]}.

(** A parser whose only descriptor is [hostField], with the empty
    string recorded under its flag name. *)
Definition emptyHostParser : Parser :=
  with_fields (with_flagValues (NewParser []) {["host" := ""]}) [hostField].

Definition tagsField : fieldInfo :=
  {| EnvName := "TAGS"; CliName := "tags"; CliNames := ["tags"];
     DefaultVal := ""; Required := false; Description := "";
     FieldPath := "Tags"; Value := "Tags";
     Type_ := reflect.SliceOf tString |}.

Definition bigField : fieldInfo :=
  {| EnvName := "BIG"; CliName := "big"; CliNames := ["big"];
     DefaultVal := ""; Required := false; Description := "";
     FieldPath := "Big"; Value := "Big";
     Type_ := reflect.Basic reflect.Int64 |}.

(** A record with an int16 member whose default is not a number. *)
Definition CountConfig : reflect.Type_ :=
  reflect.StructOf
    [ member "Count" (reflect.Basic reflect.Int16)
        [("default", "not-a-number")] ].

(** Ten to the power 39: within float64, beyond float32. *)
Definition tenTo39 : string := "1000000000000000000000000000000000000000".

Definition RatioConfig : reflect.Type_ :=
  reflect.StructOf
    [ member "Ratio" (reflect.Basic reflect.Float32) [("default", tenTo39)] ].

(** A required member without a value before an int member whose
    default is not a number. *)
Definition KeyPortConfig : reflect.Type_ :=
  reflect.StructOf
    [ member "Key" tString [("required", "true")];
      member "Port" tInt [("default", "x")] ].

Definition DebugConfig : reflect.Type_ :=
  reflect.StructOf
    [ member "Debug" tBool [("env", "DEBUG"); ("flag", "debug,d")] ].

(** A member without tags, under a parser that derives no names. *)
Definition PlainConfig : reflect.Type_ :=
  reflect.StructOf
    [ member "Plain" tString [];
      member "Host" tString [("env", "HOST")] ].

Definition plainParser : Parser :=
  NewParser [WithDisableAutoEnv; WithDisableAutoFlag].

Definition plainInfo : fieldInfo :=
  {| EnvName := ""; CliName := ""; CliNames := [];
     DefaultVal := ""; Required := false; Description := "";
     FieldPath := "Plain"; Value := "Plain"; Type_ := tString |}.

(** The parser of [KeysConfig] after the walk. *)
Definition keysParser : Parser := walkStruct (H := lib) (NewParser []) KeysConfig "".

Definition keysReport : string :=
  "missing required fields:" ++ nl
    ++ "  - APIKey (env: API_KEY, flag: --api-key)" ++ nl
    ++ "  - DatabaseURL (env: DATABASE_URL, flag: --database-url)" ++ nl
    ++ "  - SecretKey (env: SECRET_KEY, flag: --secret-key)".

Definition portEnvField : reflect.StructField :=
  member "Port" tInt [("env", "PORT")].

(** The parser of [Config] after the walk, registration, and the parse
    of the arguments [-d]. *)
Definition parsedD : Parser :=
  match registerFlags (H := lib) (walkStruct (H := lib) (NewParser []) Config "") with
  | Ok p => fst (flagParse (H := lib) p ["-d"])
  | Err _ => NewParser []
  end.

(** The descriptor of an int field whose default is not a number. *)
Definition badPortField : fieldInfo :=
  {| EnvName := "PORT"; CliName := "port"; CliNames := ["port"; "p"];
     DefaultVal := "x"; Required := false; Description := "";
     FieldPath := "Port"; Value := "Port"; Type_ := tInt |}.

(** A descriptor whose short flag name is that of the help switch. *)
Definition clashField : fieldInfo :=
  {| EnvName := "HOST"; CliName := "host"; CliNames := ["host"; "h"];
     DefaultVal := ""; Required := false; Description := "";
     FieldPath := "Host"; Value := "Host"; Type_ := tString |}.

(** A parser that holds the three descriptors of [Config]. *)
Definition listedParser : Parser :=
  with_fields (NewParser []) [hostField; portField; debugField].

(** The parser of [Config] after the walk and registration. *)
Definition registered : Parser := Eval lazy in
  match registerFlags (H := lib) (walkStruct (H := lib) (NewParser []) Config "") with
  | Ok p => p
  | Err _ => NewParser []
  end.

(** [registered] after the parse of [--port 9000]. *)
Definition parsedPort : Parser :=
  fst (flagParse (H := lib) registered ["--port"; "9000"]).

(** [registered] after the parse of [--debug=false -d]. *)
Definition parsedBoth : Parser :=
  fst (flagParse (H := lib) registered ["--debug=false"; "-d"]).

(** The record of [ExampleParser_PrintHelp] and the listing the example
    expects. *)
Definition HelpConfig : reflect.Type_ :=
  reflect.StructOf
    [ member "Host" tString
        [("env", "HOST"); ("flag", "host"); ("default", "localhost");
         ("desc", "Server host")];
      member "Port" tInt
        [("env", "PORT"); ("flag", "port"); ("default", "8080");
         ("desc", "Server port")];
      member "Debug" tBool
        [("env", "DEBUG"); ("flag", "debug"); ("desc", "Enable debug mode")] ].

Definition helpText : string :=
  "Usage: myapp [options]" ++ nl ++ nl ++ "Options:" ++ nl
    ++ "  --host <value>     Server host (default: localhost)" ++ nl
    ++ "  --port <value>     Server port (default: 8080)" ++ nl
    ++ "  --debug            Enable debug mode" ++ nl
    ++ "  -h, --help         Show this help message" ++ nl.

(** A record whose only flag is a switch of one letter. *)
Definition QuietConfig : reflect.Type_ :=
  reflect.StructOf [ member "Verbose" tBool [("flag", "v")] ].

(** An int64 member that lists the primary flag name of an int member
    and the name of a switch. *)
Definition SharedConfig : reflect.Type_ :=
  reflect.StructOf
    [ member "Count" (reflect.Basic reflect.Int64) [("flag", "port,verbose")];
      member "Port" tInt [("flag", "port")];
      member "Verbose" tBool [("flag", "verbose")] ].

End Example.

(** * Notions used in the statements *)

(** No usable command-line value: no primary name, nothing recorded
    under it, or the empty string recorded. *)
Definition noCli (p : Parser) (field : fieldInfo) : Prop :=
  CliName field = "" ∨ flagValues p !! CliName field = None
  ∨ flagValues p !! CliName field = Some "".

(** No usable environment value: no name, or an empty lookup. *)
Definition noEnv (env : gmap string string) (field : fieldInfo) : Prop :=
  EnvName field = "" ∨ Getenv env (EnvName field) = "".

Section Notions.
Context `{GoLib}.

(** A required descriptor for which no source yields a value. *)
Definition violation (p : Parser) (env : gmap string string)
    (field : fieldInfo) : bool :=
  Required field && negb (snd (selectValue p env field)).

(** The assignment the loop makes for one descriptor. *)
Definition writeResolved (p : Parser) (env : gmap string string)
    (st : Store) (field : fieldInfo) : Store :=
  match selectValue p env field with
  | (v, true) =>
      match setFieldValue field v st with
      | Ok st' => st'
      | Err _ => st
      end
  | (_, false) => st
  end.

(** The loop of [applyValues] from a descriptor on, once the raw value
    [v] is the one selected for it: the value is assigned and the loop
    goes on with the violations as they are, or the coercion error is
    returned. *)
Definition assignThen (p : Parser) (env : gmap string string)
    (field : fieldInfo) (v : string) (rest : list fieldInfo)
    (missingFields : list string) (st : Store) : option string * Store :=
  match setFieldValue field v st with
  | Err err =>
      (Some ("error setting field " ++ FieldPath field ++ ": "
               ++ NumError_Error err), st)
  | Ok st' => applyLoop p env rest missingFields st'
  end.

(** The value selected for the descriptor, if any, coerces. *)
Definition coerces (p : Parser) (env : gmap string string)
    (field : fieldInfo) : Prop :=
  ∀ v st, selectValue p env field = (v, true) →
          ∃ st', setFieldValue field v st = Ok st'.

(** The closing check of [applyValues]. *)
Definition closing (missingFields : list string) : option string :=
  if (0 <? length missingFields)%nat
  then Some ("missing required fields:" ++ nl ++ "  - "
               ++ strings.Join missingFields (nl ++ "  - "))
  else None.

(** One line per violation, each after a line break. *)
Definition reportLines (violations : list fieldInfo) : string :=
  foldr (λ f acc, nl ++ "  - " ++ missingEntry f ++ acc) "" violations.

(** The environment name of a field before any prefix: the env tag,
    or else the name derived from the path unless that is disabled. *)
Definition rawEnvName (p : Parser) (field : reflect.StructField)
    (path : string) : string :=
  if negb (String.eqb (reflect.Get (reflect.Tag field) "env") "")
  then reflect.Get (reflect.Tag field) "env"
  else if negb (disableAutoEnv p)
       then ToUpper (strings.ReplaceAll path "." "_")
       else "".

(** The descriptors a walk appends are those of the configurable leaves. *)
Definition walked (p : Parser) (typ : reflect.Type_) (pathPrefix : string)
    (l : list fieldInfo) : Prop :=
  ∀ info, info ∈ l ↔
          ∃ sf path, leaf typ pathPrefix sf path
                     ∧ info = parseFieldTags p sf path path
                     ∧ configurable info = true.

End Notions.

(** What a member contributes to the leaves of its struct. *)
Definition leafVia (pathPrefix : string) (sf x : reflect.StructField)
    (path : string) : Prop :=
  reflect.Exported sf = true
  ∧ ((reflect.KindOf (reflect.Typ sf) ≠ reflect.Struct ∧ x = sf
      ∧ path = joinPath pathPrefix (reflect.Name sf))
     ∨ (reflect.KindOf (reflect.Typ sf) = reflect.Struct
        ∧ leaf (reflect.Typ sf) (joinPath pathPrefix (reflect.Name sf)) x path)).

(** Flag [name] is recorded under the primary name [key]: some
    descriptor with that primary name lists it. *)
Definition recordedUnder (fs : list fieldInfo) (key name : string) : Prop :=
  ∃ g, g ∈ fs ∧ name ∈ CliNames g ∧ CliName g = key.

#[global] Instance recordedUnder_dec fs key name :
  Decision (recordedUnder fs key name).
Proof.
  refine (cast_if (decide (Exists (λ g, name ∈ CliNames g ∧ CliName g = key) fs)));
    unfold recordedUnder; rewrite Exists_exists in *; naive_solver.
Defined.

(** The primary flag name a handler records under. *)
Definition target (h : flag.handler) : string :=
  match h with
  | flag.StringHandler n | flag.IntHandler n
  | flag.FloatHandler n | flag.SliceHandler n => n
  end.

(** [registerFlags] registers the flags of the descriptor: it has a
    primary flag name and its kind is one of the cases of the switch. *)
Definition registrable (field : fieldInfo) : Prop :=
  CliNames field ≠ [] ∧ CliName field ≠ ""
  ∧ reflect.KindOf (Type_ field)
    ∈ [reflect.String; reflect.Int; reflect.Float32; reflect.Float64;
       reflect.Bool; reflect.Slice].

(** Registration changes the formal flags and the bool variables only. *)
Definition sameButFlags (p p' : Parser) : Prop :=
  fields p' = fields p ∧ flagValues p' = flagValues p
  ∧ showHelp p' = showHelp p
  ∧ flag.actual (flagSet p') = flag.actual (flagSet p)
  ∧ disableAutoEnv p' = disableAutoEnv p
  ∧ disableAutoFlag p' = disableAutoFlag p ∧ envPrefix p' = envPrefix p.

(** A flag name as the help listing shows it: one dash before a name
    of one byte, two before any other. *)
Definition dashed (name : string) : string :=
  if (String.length name =? 1)%nat then "-" ++ name else "--" ++ name.

(** The flag value [registerFlags] defines under the name [name] of the
    descriptor: a function value closed over the primary name, or a new
    bool variable; none for a kind outside the switch. *)
Definition flagValueOf (field : fieldInfo) (name : string)
    : option flag.FlagValue :=
  match reflect.KindOf (Type_ field) with
  | reflect.String => Some (flag.funcValue (flag.StringHandler (CliName field)))
  | reflect.Int => Some (flag.funcValue (flag.IntHandler (CliName field)))
  | reflect.Float32 | reflect.Float64 =>
      Some (flag.funcValue (flag.FloatHandler (CliName field)))
  | reflect.Bool => Some (flag.boolValue name)
  | reflect.Slice => Some (flag.funcValue (flag.SliceHandler (CliName field)))
  | _ => None
  end.

Section ParsedFrom.
Context `{GoLib}.

(** What parsing the command line has changed in the parser: the formal
    flags stay; a recorded value was recorded before, or a function flag
    whose handler records under that key accepted it; a bool variable
    was there before or belongs to a formal bool flag. *)
Definition parsedFrom (p p' : Parser) : Prop :=
  flag.formal (flagSet p') = flag.formal (flagSet p)
  ∧ (∀ key v, flagValues p' !! key = Some v →
       flagValues p !! key = Some v
       ∨ ∃ name h, flag.formal (flagSet p) !! name = Some (flag.funcValue h)
                   ∧ target h = key ∧ ∃ p1 p2, runHandler h v p1 = Ok p2)
  ∧ (∀ n b, boolFlags p' !! n = Some b →
       boolFlags p !! n = Some b
       ∨ ∃ name, flag.formal (flagSet p) !! name = Some (flag.boolValue n)).

End ParsedFrom.

(** The arguments that ask for the help listing. *)
Definition helpSwitches : list string := ["-h"; "--h"; "-help"; "--help"].

(** The prefix of the last [WithEnvPrefix] among [opts], the empty
    string if there is none. *)
Fixpoint lastPrefix (opts : list Option_) (acc : string) : string :=
  match opts with
  | [] => acc
  | WithEnvPrefix prefix :: rest => lastPrefix rest prefix
  | _ :: rest => lastPrefix rest acc
  end.

#[global] Instance Option_eq_dec : EqDecision Option_.
Proof. solve_decision. Defined.

(** Every byte of [s] is below 128. *)
Fixpoint isAscii (s : string) : bool :=
  match s with
  | EmptyString => true
  | String c r => (N_of_ascii c <? 128)%N && isAscii r
  end.

(** The number of bytes of [s] equal to [c]. *)
Fixpoint countByte (s : string) (c : ascii) : nat :=
  match s with
  | EmptyString => O
  | String a r => (if Ascii.eqb a c then 1 else 0) + countByte r c
  end.

(** * Properties *)

(** Membership in a list that is written out. *)
Ltac in_list := solve [repeat (first [left | right])].

Ltac str_cases :=
  cbv zeta in *;
  repeat (match goal with
          | |- context [String.eqb ?a ?b] => destruct (String.eqb_spec a b)
          | H : context [String.eqb ?a ?b] |- _ =>
              destruct (String.eqb_spec a b)
          end; cbn [negb andb orb] in *).

(** ** White space *)

Lemma app_cons a s t : (String a s ++ t)%string = String a (s ++ t).
Proof. reflexivity. Qed.

Lemma string_app_assoc (a b c : string) :
  ((a ++ b) ++ c)%string = (a ++ (b ++ c))%string.
Proof.
  induction a as [|x a IH]; [reflexivity|].
  rewrite !app_cons, IH. reflexivity.
Qed.

Lemma string_app_nil_r (a : string) : (a ++ "")%string = a.
Proof.
  induction a as [|x a IH]; [reflexivity|]. rewrite app_cons, IH.
  reflexivity.
Qed.

Lemma string_length_app (a b : string) :
  String.length (a ++ b) = (String.length a + String.length b)%nat.
Proof.
  induction a as [|x a IH]; [reflexivity|].
  rewrite app_cons. simpl. rewrite IH. reflexivity.
Qed.

Lemma list_of_string_app (a b : string) :
  list_ascii_of_string (a ++ b)
  = (list_ascii_of_string a ++ list_ascii_of_string b)%list.
Proof.
  induction a as [|x a IH]; [reflexivity|].
  rewrite app_cons. simpl. rewrite IH. reflexivity.
Qed.

Lemma string_of_list_app (l1 l2 : list ascii) :
  string_of_list_ascii (l1 ++ l2)
  = (string_of_list_ascii l1 ++ string_of_list_ascii l2)%string.
Proof.
  induction l1 as [|x l1 IH]; [reflexivity|].
  simpl. rewrite IH. reflexivity.
Qed.

Lemma rev_app (a b : string) :
  strings.rev (a ++ b) = (strings.rev b ++ strings.rev a)%string.
Proof.
  unfold strings.rev.
  rewrite list_of_string_app, rev_app_distr, string_of_list_app. reflexivity.
Qed.

Lemma rev_rev (a : string) : strings.rev (strings.rev a) = a.
Proof.
  unfold strings.rev.
  rewrite list_ascii_of_string_of_list_ascii, rev_involutive.
  apply string_of_list_ascii_of_string.
Qed.

Lemma rev_length (a : string) :
  String.length (strings.rev a) = String.length a.
Proof.
  unfold strings.rev.
  assert (Hl : ∀ l, String.length (string_of_list_ascii l) = length l).
  { induction l as [|x l IH]; [reflexivity|]. simpl. rewrite IH. reflexivity. }
  assert (Hs : ∀ s, length (list_ascii_of_string s) = String.length s).
  { induction s as [|x s IH]; [reflexivity|]. simpl. rewrite IH. reflexivity. }
  rewrite Hl, length_rev, Hs. reflexivity.
Qed.

Lemma spaces_app runes a b :
  spaces runes a → spaces runes b → spaces runes (a ++ b).
Proof.
  induction 1 as [|r s Hr Hs IH]; intros Hb; [exact Hb|].
  rewrite string_app_assoc. apply spaces_cons; [exact Hr | exact (IH Hb)].
Qed.

Lemma spaces_rev runes x :
  spaces (map strings.rev runes) x → spaces runes (strings.rev x).
Proof.
  induction 1 as [|r s Hr Hs IH]; [constructor|].
  rewrite rev_app. apply spaces_app; [exact IH|].
  apply list_elem_of_fmap in Hr as (r0 & -> & Hr0). rewrite rev_rev.
  rewrite <- (string_app_nil_r r0).
  apply spaces_cons; [exact Hr0 | constructor].
Qed.

Lemma dropPrefix_app r s s' :
  strings.dropPrefix r s = Some s' → s = (r ++ s')%string.
Proof.
  revert s. induction r as [|a r IH]; intros s; simpl.
  - intros [= ->]. reflexivity.
  - destruct s as [|b s]; [discriminate|].
    destruct (Ascii.eqb_spec a b) as [-> | Hne]; [|discriminate].
    intros Hd. rewrite app_cons, <- (IH _ Hd). reflexivity.
Qed.

Lemma dropPrefix_hit r s : strings.dropPrefix r (r ++ s) = Some s.
Proof.
  induction r as [|a r IH]; [destruct s; reflexivity|].
  rewrite app_cons. simpl. rewrite Ascii.eqb_refl. exact IH.
Qed.

Lemma leadingSpace_app runes s s' :
  strings.leadingSpace runes s = Some s' →
  ∃ r, r ∈ runes ∧ s = (r ++ s')%string.
Proof.
  induction runes as [|r0 runes IH]; simpl; [discriminate|].
  destruct (strings.dropPrefix r0 s) as [t|] eqn:Hd.
  - intros [= <-]. exists r0. split; [left | exact (dropPrefix_app _ _ _ Hd)].
  - intros Hl. destruct (IH Hl) as (r & Hr & Hs). exists r.
    split; [right; exact Hr | exact Hs].
Qed.

Lemma leadingSpace_hit runes r s :
  r ∈ runes → strings.leadingSpace runes (r ++ s) ≠ None.
Proof.
  induction runes as [|r0 runes IH]; intros Hr; [inversion Hr|].
  simpl. destruct (strings.dropPrefix r0 (r ++ s)) as [t|] eqn:Hd;
    [discriminate|].
  apply elem_of_cons in Hr as [-> | Hr]; [|exact (IH Hr)].
  rewrite dropPrefix_hit in Hd. discriminate.
Qed.

Lemma trimFuel_app runes fuel s :
  ∃ l, spaces runes l ∧ s = (l ++ strings.trimFuel runes fuel s)%string.
Proof.
  revert s. induction fuel as [|fuel IH]; intros s; simpl.
  - exists "". split; [constructor | reflexivity].
  - destruct (strings.leadingSpace runes s) as [s'|] eqn:Hl.
    + destruct (leadingSpace_app _ _ _ Hl) as (r & Hr & ->).
      destruct (IH s') as (l & Hsp & Hs'). exists (r ++ l)%string. split.
      * apply spaces_cons; assumption.
      * rewrite string_app_assoc, <- Hs'. reflexivity.
    + exists "". split; [constructor | reflexivity].
Qed.

Lemma trimFuel_done runes fuel s :
  Forall (λ r, r ≠ "") runes → (String.length s ≤ fuel)%nat →
  strings.leadingSpace runes (strings.trimFuel runes fuel s) = None.
Proof.
  intros Hne. revert s. induction fuel as [|fuel IH]; intros s Hlen; simpl.
  - destruct s; [|simpl in Hlen; lia].
    destruct (strings.leadingSpace runes "") as [s'|] eqn:Hl; [|reflexivity].
    destruct (leadingSpace_app _ _ _ Hl) as (r & Hr & Hs).
    rewrite Forall_forall in Hne. specialize (Hne r Hr).
    destruct r; [congruence | discriminate].
  - destruct (strings.leadingSpace runes s) as [s'|] eqn:Hl; [|exact Hl].
    apply IH. destruct (leadingSpace_app _ _ _ Hl) as (r & Hr & ->).
    rewrite Forall_forall in Hne. specialize (Hne r Hr).
    rewrite string_length_app in Hlen. destruct r; [congruence|].
    simpl in Hlen. lia.
Qed.

Lemma spaceRunes_nonempty : Forall (λ r, r ≠ "") strings.spaceRunes.
Proof. repeat constructor; discriminate. Qed.

Lemma revRunes_nonempty :
  Forall (λ r, r ≠ "") (map strings.rev strings.spaceRunes).
Proof. repeat constructor; discriminate. Qed.

(** [TrimSpace] removes white space runes from the two ends, and all
    of them. *)
Lemma TrimSpace_trimmed s : trimmed s (strings.TrimSpace s).
Proof.
  unfold strings.TrimSpace, strings.TrimRightSpace, strings.TrimLeftSpace.
  set (u := strings.trimFuel strings.spaceRunes (String.length s) s).
  set (w := strings.trimFuel (map strings.rev strings.spaceRunes)
              (String.length u) (strings.rev u)).
  destruct (trimFuel_app strings.spaceRunes (String.length s) s)
    as (l & Hl & Hs). fold u in Hs.
  destruct (trimFuel_app (map strings.rev strings.spaceRunes)
              (String.length u) (strings.rev u)) as (x & Hx & Hu). fold w in Hu.
  assert (Hu' : u = (strings.rev w ++ strings.rev x)%string).
  { rewrite <- (rev_rev u), Hu, rev_app. reflexivity. }
  assert (Hend : strings.leadingSpace (map strings.rev strings.spaceRunes) w
                 = None).
  { apply trimFuel_done; [exact revRunes_nonempty|]. rewrite rev_length. lia. }
  assert (Hstart : strings.leadingSpace strings.spaceRunes u = None).
  { apply trimFuel_done; [exact spaceRunes_nonempty | lia]. }
  exists l, (strings.rev x). split; [|split; [|split; [|split]]].
  - rewrite <- Hu'. exact Hs.
  - exact Hl.
  - apply spaces_rev. exact Hx.
  - destruct (strings.leadingSpace strings.spaceRunes (strings.rev w))
      as [t|] eqn:Ht; [|reflexivity].
    destruct (leadingSpace_app _ _ _ Ht) as (r & Hr & Hw).
    exfalso. apply (leadingSpace_hit strings.spaceRunes r
                      (t ++ strings.rev x) Hr).
    rewrite <- string_app_assoc, <- Hw, <- Hu'. exact Hstart.
  - rewrite rev_rev. exact Hend.
Qed.

(** ** Selection of the raw value *)

Lemma selectValue_cli p env field v :
  CliName field ≠ "" → flagValues p !! CliName field = Some v → v ≠ "" →
  selectValue p env field = (v, true).
Proof.
  intros Hn Hv Hne. unfold selectValue. rewrite Hv.
  str_cases; try congruence; reflexivity.
Qed.

Lemma selectValue_noCli p env field :
  noCli p field →
  selectValue p env field =
    (let '(finalValue, hasValue) :=
       if negb (String.eqb (EnvName field) "") then
         let envVal := Getenv env (EnvName field) in
         if negb (String.eqb envVal "") then (envVal, true) else ("", false)
       else ("", false) in
     if negb hasValue && negb (String.eqb (DefaultVal field) "")
     then (DefaultVal field, true) else (finalValue, hasValue)).
Proof.
  intros [Hc | [Hc | Hc]]; unfold selectValue.
  - rewrite Hc. reflexivity.
  - rewrite Hc. destruct (negb (CliName field =? "")%string); reflexivity.
  - rewrite Hc. destruct (negb (CliName field =? "")%string); reflexivity.
Qed.

Lemma selectValue_env p env field :
  noCli p field → EnvName field ≠ "" → Getenv env (EnvName field) ≠ "" →
  selectValue p env field = (Getenv env (EnvName field), true).
Proof.
  intros Hc Hn He. rewrite selectValue_noCli by assumption.
  str_cases; try congruence; reflexivity.
Qed.

Lemma selectValue_default p env field :
  noCli p field → noEnv env field → DefaultVal field ≠ "" →
  selectValue p env field = (DefaultVal field, true).
Proof.
  intros Hc He Hd. rewrite selectValue_noCli by assumption.
  destruct He as [He | He]; [rewrite He | rewrite He];
    str_cases; try congruence; reflexivity.
Qed.

Lemma selectValue_none p env field :
  noCli p field → noEnv env field → DefaultVal field = "" →
  selectValue p env field = ("", false).
Proof.
  intros Hc He Hd. rewrite selectValue_noCli by assumption. rewrite Hd.
  destruct He as [He | He]; [rewrite He | rewrite He];
    str_cases; try congruence; reflexivity.
Qed.

(** C1. For every descriptor, whatever its place in the list, the raw
    value the loop of [applyValues] selects follows the strict order
    CLI, environment, default: a non-empty value recorded under the
    primary flag name wins over environment and default; without one, a
    non-empty lookup of the environment name wins over the default;
    without either, a non-empty default is taken verbatim. *)
Theorem precedence_cli_env_default (p : Parser) (env : gmap string string)
    (field : fieldInfo) :
  (∀ v, CliName field ≠ "" → flagValues p !! CliName field = Some v →
        v ≠ "" → selectValue p env field = (v, true))
  ∧ (noCli p field → EnvName field ≠ "" → Getenv env (EnvName field) ≠ "" →
     selectValue p env field = (Getenv env (EnvName field), true))
  ∧ (noCli p field → noEnv env field → DefaultVal field ≠ "" →
     selectValue p env field = (DefaultVal field, true)).
Proof.
  split; [|split].
  - intros v. apply selectValue_cli.
  - apply selectValue_env.
  - apply selectValue_default.
Qed.

Section ResolveFacts.
Context `{GoLib}.

(** The loop consults the parser and the environment through
    [selectValue] only. *)
Lemma applyLoop_ext p p' env env' fs missing st :
  (∀ field, selectValue p env field = selectValue p' env' field) →
  applyLoop p env fs missing st = applyLoop p' env' fs missing st.
Proof.
  intros Hsel. revert missing st.
  induction fs as [|field rest IH]; intros missing st; simpl.
  - reflexivity.
  - rewrite <- Hsel. destruct (selectValue p env field) as [v [|]].
    + destruct (setFieldValue field v st); [apply IH | reflexivity].
    + apply IH.
Qed.

Lemma selectValue_empty_cli p env key field :
  selectValue (with_flagValues p (<[key := ""]> (flagValues p))) env field
  = selectValue (with_flagValues p (delete key (flagValues p))) env field.
Proof.
  unfold selectValue; simpl.
  destruct (decide (key = CliName field)) as [-> | Hne].
  - rewrite lookup_insert_eq, lookup_delete_eq. reflexivity.
  - rewrite lookup_insert_ne, lookup_delete_ne by assumption. reflexivity.
Qed.

Lemma Getenv_empty env key k :
  Getenv (<[key := ""]> env) k = Getenv (delete key env) k.
Proof.
  unfold Getenv. destruct (decide (key = k)) as [-> | Hne].
  - rewrite lookup_insert_eq, lookup_delete_eq. reflexivity.
  - rewrite lookup_insert_ne, lookup_delete_ne by assumption. reflexivity.
Qed.

Lemma selectValue_empty_env p env key field :
  selectValue p (<[key := ""]> env) field
  = selectValue p (delete key env) field.
Proof. unfold selectValue. rewrite Getenv_empty. reflexivity. Qed.

Lemma Get_app_empty tag k k' :
  reflect.Get (tag ++ [(k, "")])%list k' = reflect.Get tag k'.
Proof.
  induction tag as [|[a b] rest IH]; simpl.
  - destruct (decide (k = k')); reflexivity.
  - destruct (decide (a = k')); [reflexivity | apply IH].
Qed.

Lemma applyLoop_selected p env field v rest missing st :
  selectValue p env field = (v, true) →
  applyLoop p env (field :: rest) missing st
  = assignThen p env field v rest missing st.
Proof.
  intros Hsel. cbn [applyLoop]. rewrite Hsel. cbn [negb].
  rewrite andb_false_r. reflexivity.
Qed.

Lemma applyLoop_unselected p env field v rest missing st :
  selectValue p env field = (v, false) →
  applyLoop p env (field :: rest) missing st
  = applyLoop p env rest
      (if Required field then (missing ++ [missingEntry field])%list
       else missing) st.
Proof.
  intros Hsel. cbn [applyLoop]. rewrite Hsel. cbn [negb].
  rewrite andb_true_r. reflexivity.
Qed.

(** C2. At every tier an empty string counts as no value, and the
    next tier is used. Recording the empty string under a flag name
    gives the same resolution as recording nothing under it; an
    environment variable set to the empty string gives the same
    resolution as an unset one; a default tag with an empty value gives
    the same descriptor as no default tag. A descriptor whose flag value
    is absent or empty and whose environment lookup is not empty is
    resolved from the environment: [applyValues] assigns that value (or
    returns its coercion error) and goes on. A descriptor whose flag
    value and environment lookup are absent or empty and whose default
    is not empty is resolved from the default in the same way. A
    descriptor whose three sources are absent or empty has no value
    selected: nothing is assigned, and it is a violation if required. *)
Theorem empty_string_counts_as_absent (p : Parser)
    (env : gmap string string) (st : Store) (key : string) :
  applyValues (with_flagValues p (<[key := ""]> (flagValues p))) env st
  = applyValues (with_flagValues p (delete key (flagValues p))) env st
  ∧ applyValues p (<[key := ""]> env) st = applyValues p (delete key env) st
  ∧ (∀ name exported tag typ path loc,
       parseFieldTags p
         (reflect.mkStructField name exported (tag ++ [("default", "")])%list typ)
         path loc
       = parseFieldTags p (reflect.mkStructField name exported tag typ)
           path loc)
  ∧ (∀ field, noCli p field → noEnv env field → DefaultVal field = "" →
       selectValue p env field = ("", false))
  ∧ (∀ field rest,
       noCli p field → EnvName field ≠ "" →
       Getenv env (EnvName field) ≠ "" →
       selectValue p env field = (Getenv env (EnvName field), true)
       ∧ (∀ missing st',
            applyLoop p env (field :: rest) missing st'
            = assignThen p env field (Getenv env (EnvName field)) rest
                missing st')
       ∧ (fields p = field :: rest →
          applyValues p env st
          = assignThen p env field (Getenv env (EnvName field)) rest [] st))
  ∧ (∀ field rest,
       noCli p field → noEnv env field → DefaultVal field ≠ "" →
       selectValue p env field = (DefaultVal field, true)
       ∧ (∀ missing st',
            applyLoop p env (field :: rest) missing st'
            = assignThen p env field (DefaultVal field) rest missing st')
       ∧ (fields p = field :: rest →
          applyValues p env st
          = assignThen p env field (DefaultVal field) rest [] st))
  ∧ (∀ field rest,
       noCli p field → noEnv env field → DefaultVal field = "" →
       (∀ missing st',
          applyLoop p env (field :: rest) missing st'
          = applyLoop p env rest
              (if Required field then (missing ++ [missingEntry field])%list
               else missing) st')
       ∧ (fields p = field :: rest →
          applyValues p env st
          = applyLoop p env rest
              (if Required field then [missingEntry field] else []) st)).
Proof.
  split; [|split; [|split; [|split; [|split; [|split]]]]].
  - unfold applyValues; simpl.
    apply applyLoop_ext. intros field. apply selectValue_empty_cli.
  - unfold applyValues. apply applyLoop_ext. intros field.
    apply selectValue_empty_env.
  - intros. unfold parseFieldTags; simpl. rewrite !Get_app_empty.
    reflexivity.
  - intros field. apply selectValue_none.
  - intros field rest Hc Hn He.
    pose proof (selectValue_env p env field Hc Hn He) as Hsel.
    split; [exact Hsel | split].
    + intros missing st'. apply applyLoop_selected. exact Hsel.
    + intros Hfs. unfold applyValues. rewrite Hfs.
      apply applyLoop_selected. exact Hsel.
  - intros field rest Hc He Hd.
    pose proof (selectValue_default p env field Hc He Hd) as Hsel.
    split; [exact Hsel | split].
    + intros missing st'. apply applyLoop_selected. exact Hsel.
    + intros Hfs. unfold applyValues. rewrite Hfs.
      apply applyLoop_selected. exact Hsel.
  - intros field rest Hc He Hd.
    pose proof (selectValue_none p env field Hc He Hd) as Hsel.
    split.
    + intros missing st'. apply (applyLoop_unselected _ _ _ _ _ _ _ Hsel).
    + intros Hfs. unfold applyValues. rewrite Hfs.
      exact (applyLoop_unselected _ _ _ _ rest [] st Hsel).
Qed.

(** *** Coercion *)

Lemma setFieldValue_other field value st st' loc :
  setFieldValue field value st = Ok st' → loc ≠ Value field →
  st' !! loc = st !! loc.
Proof.
  unfold setFieldValue, SetString, SetInt, SetBool, SetStrings, SetFloat.
  intros Hs Hne.
  destruct (reflect.KindOf (Type_ field));
    repeat match type of Hs with
      | context [match ?x with _ => _ end] => destruct x
      | context [if ?x then _ else _] => destruct x
      end;
    inversion Hs; subst; try reflexivity;
    rewrite lookup_insert_ne by congruence; reflexivity.
Qed.

(** Whether a value coerces does not depend on the record. *)
Lemma setFieldValue_ok_indep field value st st' st2 :
  setFieldValue field value st = Ok st' →
  ∃ st2', setFieldValue field value st2 = Ok st2'.
Proof.
  unfold setFieldValue. intros Hs.
  destruct (reflect.KindOf (Type_ field));
    repeat match type of Hs with
      | context [match ?x with _ => _ end] => destruct x
      | context [if ?x then _ else _] => destruct x
      end;
    try discriminate; eauto.
Qed.

(** C10. A descriptor whose field kind is none of string, int,
    float32, float64, bool or slice of strings (int64, uint, a slice of
    something else, ...) is assigned nothing: [setFieldValue] returns
    no error and leaves the record as it is, so the loop of
    [applyValues] goes on to the next descriptor with the selected
    value dropped; and unless the kind is a slice, [registerFlags]
    registers no flag for the descriptor. *)
Theorem unsupported_kind_is_discarded (p : Parser)
    (env : gmap string string) (field : fieldInfo) (value : string)
    (st : Store) :
  let k := reflect.KindOf (Type_ field) in
  k ≠ reflect.String → k ≠ reflect.Int → k ≠ reflect.Float32 →
  k ≠ reflect.Float64 → k ≠ reflect.Bool →
  (k = reflect.Slice →
   reflect.KindOf (reflect.Elem (Type_ field)) ≠ reflect.String) →
  setFieldValue field value st = Ok st
  ∧ (∀ rest missing, selectValue p env field = (value, true) →
       applyLoop p env (field :: rest) missing st
       = applyLoop p env rest missing st)
  ∧ (k ≠ reflect.Slice → ∀ flagName, registerFlag p field flagName = Ok p).
Proof.
  intros k Hs Hi Hf32 Hf64 Hb Hsl.
  assert (Hset : setFieldValue field value st = Ok st).
  { unfold setFieldValue. fold k.
    destruct k eqn:Hk; try congruence; try reflexivity.
    destruct (decide _) as [He | He]; [|reflexivity].
    exfalso. apply Hsl; [reflexivity | exact He]. }
  split; [exact Hset | split].
  - intros rest missing Hsel. simpl. rewrite Hsel, Hset.
    rewrite andb_false_r. reflexivity.
  - intros Hns flagName. unfold registerFlag. fold k.
    destruct k; try congruence; reflexivity.
Qed.

(** *** String lists *)

Lemma Split_nonempty s sep : strings.Split s sep ≠ [].
Proof.
  destruct s as [|c r]; simpl; [discriminate|].
  destruct (Ascii.eqb c sep); [discriminate|].
  destruct (strings.Split r sep); discriminate.
Qed.

Lemma Join_Split s sep :
  strings.Join (strings.Split s sep) (String sep "") = s.
Proof.
  induction s as [|c r IH]; simpl; [reflexivity|].
  destruct (Ascii.eqb_spec c sep) as [-> | Hne].
  - pose proof (Split_nonempty r sep) as Hn.
    destruct (strings.Split r sep) as [|h t]; [congruence|].
    change (strings.Join ("" :: h :: t) (String sep ""))
      with (String sep (strings.Join (h :: t) (String sep ""))).
    rewrite IH. reflexivity.
  - pose proof (Split_nonempty r sep) as Hn.
    destruct (strings.Split r sep) as [|h t]; [congruence|].
    destruct t as [|h' t'].
    + simpl in *. congruence.
    + change (strings.Join (String c h :: h' :: t') (String sep ""))
        with (String c (h ++ String sep ""
                          ++ strings.Join (h' :: t') (String sep ""))).
      change (strings.Join (h :: h' :: t') (String sep ""))
        with (h ++ String sep "" ++ strings.Join (h' :: t') (String sep ""))
        in IH.
      rewrite IH. reflexivity.
Qed.

Lemma Split_no_sep s sep :
  Forall (λ piece, containsByte piece sep = false) (strings.Split s sep).
Proof.
  induction s as [|c r IH]; simpl.
  - constructor; [reflexivity | constructor].
  - destruct (Ascii.eqb_spec c sep) as [-> | Hne].
    + constructor; [reflexivity | exact IH].
    + destruct (strings.Split r sep) as [|h t].
      * constructor; [|constructor]. simpl.
        destruct (Ascii.eqb_spec c sep); [congruence | reflexivity].
      * inversion IH; subst. constructor; [|assumption]. simpl.
        destruct (Ascii.eqb_spec c sep); [congruence | assumption].
Qed.

(** C6. For a descriptor whose field is a slice of strings, coercion
    of the raw value assigns the list of its comma-separated pieces,
    each with surrounding white space trimmed, in the order they occur
    and with duplicates kept: the pieces contain no comma and, joined by
    commas, give back the raw value; each element is its piece without
    the white space runes at the two ends, none being left there. The
    input ["a, b ,c"] yields [["a"; "b"; "c"]]. *)
Theorem string_list_coercion (field : fieldInfo) (value : string)
    (st : Store) :
  reflect.KindOf (Type_ field) = reflect.Slice →
  reflect.KindOf (reflect.Elem (Type_ field)) = reflect.String →
  setFieldValue field value st
  = Ok (<[Value field :=
            VStrings (map strings.TrimSpace (strings.Split value ","))]> st)
  ∧ strings.Join (strings.Split value ",") "," = value
  ∧ Forall (λ piece, containsByte piece "," = false)
           (strings.Split value ",")
  ∧ Forall (λ piece, trimmed piece (strings.TrimSpace piece))
           (strings.Split value ",")
  ∧ setFieldValue field "a, b ,c" st
    = Ok (<[Value field := VStrings ["a"; "b"; "c"]]> st).
Proof.
  intros Hk He. split; [|split; [|split; [|split]]].
  - unfold setFieldValue. rewrite Hk.
    destruct (decide _); [reflexivity | congruence].
  - apply Join_Split.
  - apply Split_no_sep.
  - apply Forall_forall. intros piece _. apply TrimSpace_trimmed.
  - unfold setFieldValue. rewrite Hk.
    destruct (decide _); [reflexivity | congruence].
Qed.

(** *** The loop of [applyValues] when no coercion fails *)

Lemma applyLoop_complete p env fs missing st :
  Forall (coerces p env) fs →
  applyLoop p env fs missing st
  = (closing (missing ++ map missingEntry (filter (λ f, violation p env f) fs)),
     foldl (writeResolved p env) st fs).
Proof.
  intros Hall. revert missing st.
  induction Hall as [|field rest Hc _ IH]; intros missing st.
  - simpl. rewrite app_nil_r. unfold closing.
    destruct (0 <? length missing)%nat; reflexivity.
  - rewrite filter_cons. cbn [applyLoop foldl].
    unfold writeResolved at 2.
    destruct (decide (violation p env field)) as [Hv | Hv];
      unfold violation in Hv;
      destruct (selectValue p env field) as [v [|]] eqn:Hsel;
      cbn [snd negb] in Hv.
    + rewrite andb_false_r in Hv. destruct Hv.
    + rewrite andb_true_r in Hv. apply Is_true_true in Hv. rewrite Hv.
      cbn [andb negb]. rewrite IH. cbn [map].
      rewrite <- app_assoc. reflexivity.
    + destruct (Hc v st Hsel) as [st' Hst']. rewrite Hst'.
      rewrite andb_false_r. apply IH.
    + rewrite andb_true_r in Hv. apply Is_true_false in Hv. rewrite Hv.
      cbn [andb]. apply IH.
Qed.

Lemma coercion_error_not_aggregated path msg :
  strings.HasPrefix ("error setting field " ++ path ++ ": " ++ msg)
                    "missing required fields:" = false.
Proof. reflexivity. Qed.

Lemma applyLoop_aggregated p env fs missing st err st' :
  applyLoop p env fs missing st = (Some err, st') →
  strings.HasPrefix err "missing required fields:" = true →
  Forall (coerces p env) fs.
Proof.
  revert missing st. induction fs as [|field rest IH]; intros missing st.
  - constructor.
  - simpl. destruct (selectValue p env field) as [v [|]] eqn:Hsel.
    + destruct (setFieldValue field v st) as [st1|e] eqn:Hset.
      * intros Hrun Hpre. constructor; [|eapply IH; eassumption].
        intros v' st2 Hv'. assert (v' = v) as -> by congruence.
        eapply setFieldValue_ok_indep. exact Hset.
      * intros Hrun Hpre. inversion Hrun; subst.
        rewrite coercion_error_not_aggregated in Hpre. discriminate.
    + intros Hrun Hpre. constructor; [|eapply IH; eassumption].
      intros v' st2 Hv'. congruence.
Qed.

Lemma aggregated_run_facts p env st st' err :
  applyValues p env st = (Some err, st') →
  strings.HasPrefix err "missing required fields:" = true →
  Forall (coerces p env) (fields p)
  ∧ filter (λ f, violation p env f) (fields p) ≠ [].
Proof.
  unfold applyValues. intros Hrun Hpre.
  pose proof (applyLoop_aggregated _ _ _ _ _ _ _ Hrun Hpre) as Hall.
  rewrite (applyLoop_complete _ _ _ _ _ Hall) in Hrun.
  inversion Hrun as [[Hclose Hst]].
  split; [exact Hall|].
  intros Hnil. rewrite Hnil in Hclose. discriminate.
Qed.

Lemma writeResolved_other p env st field loc :
  loc ≠ Value field → writeResolved p env st field !! loc = st !! loc.
Proof.
  intros Hne. unfold writeResolved.
  destruct (selectValue p env field) as [v [|]]; [|reflexivity].
  destruct (setFieldValue field v st) as [st1|e] eqn:Hset; [|reflexivity].
  eapply setFieldValue_other; eassumption.
Qed.

Lemma writeResolved_later p env fs st loc :
  (∀ g, g ∈ fs → Value g ≠ loc) →
  foldl (writeResolved p env) st fs !! loc = st !! loc.
Proof.
  revert st. induction fs as [|g rest IH]; intros st Hloc; [reflexivity|].
  cbn [foldl]. rewrite IH by (intros g' Hg'; apply Hloc; right; exact Hg').
  apply writeResolved_other. intros Heq. eapply Hloc; [left | symmetry; exact Heq].
Qed.

(** C9. When [applyValues] fails with the aggregated error for missing
    required fields, the record it leaves is not the one it was given
    but the one with every assignment made: each descriptor for which a
    value was selected has been coerced and written, in list order,
    before the error is returned (a location holds what its last
    descriptor wrote), and the error reports at least one violation. *)
Theorem aggregated_error_leaves_written_record (p : Parser)
    (env : gmap string string) (st st' : Store) (err : string) :
  applyValues p env st = (Some err, st') →
  strings.HasPrefix err "missing required fields:" = true →
  st' = foldl (writeResolved p env) st (fields p)
  ∧ Forall (coerces p env) (fields p)
  ∧ filter (λ f, violation p env f) (fields p) ≠ []
  ∧ (∀ before field after,
       fields p = (before ++ field :: after)%list →
       (∀ g, g ∈ after → Value g ≠ Value field) →
       st' !! Value field
       = writeResolved p env (foldl (writeResolved p env) st before) field
           !! Value field).
Proof.
  intros Hrun Hpre.
  destruct (aggregated_run_facts p env st st' err Hrun Hpre) as (Hall & Hviol).
  assert (Hst : st' = foldl (writeResolved p env) st (fields p)).
  { unfold applyValues in Hrun.
    rewrite (applyLoop_complete _ _ _ _ _ Hall) in Hrun. congruence. }
  split; [exact Hst | split; [exact Hall | split; [exact Hviol|]]].
  intros before field after Hfs Hafter. rewrite Hst, Hfs, foldl_app.
  cbn [foldl]. apply writeResolved_later. exact Hafter.
Qed.

(** *** The text of the aggregated error *)

Lemma Join_reportLines (f : fieldInfo) (rest : list fieldInfo) :
  (nl ++ "  - "
     ++ strings.Join (map missingEntry (f :: rest)) (nl ++ "  - "))%string
  = reportLines (f :: rest).
Proof.
  revert f. induction rest as [|g rest IH]; intros f.
  - cbn [map strings.Join reportLines foldr].
    rewrite string_app_nil_r. reflexivity.
  - change (strings.Join (map missingEntry (f :: g :: rest)) (nl ++ "  - "))
      with (missingEntry f ++ (nl ++ "  - ")
              ++ strings.Join (map missingEntry (g :: rest)) (nl ++ "  - "))%string.
    rewrite (string_app_assoc nl "  - "
               (strings.Join (map missingEntry (g :: rest)) (nl ++ "  - "))).
    rewrite IH. reflexivity.
Qed.

Lemma missing_required_fields_text p env st :
  Forall (coerces p env) (fields p) →
  filter (λ f, violation p env f) (fields p) ≠ [] →
  applyValues p env st
  = (Some ("missing required fields:"
             ++ reportLines (filter (λ f, violation p env f) (fields p))),
     foldl (writeResolved p env) st (fields p)).
Proof.
  intros Hall Hviol.
  unfold applyValues. rewrite (applyLoop_complete _ _ _ _ _ Hall).
  cbn [app]. f_equal.
  destruct (filter (λ f, violation p env f) (fields p)) as [|f rest];
    [congruence|].
  unfold closing. cbn [map length Nat.ltb Nat.leb]. f_equal.
  rewrite <- Join_reportLines. reflexivity.
Qed.

(** C3 (amended). When one or more required descriptors resolve no
    value and no selected value fails to coerce, [applyValues] does not
    stop at the first violation: every descriptor is processed (the
    record holds every assignment), and the single error returned is
    the text ["missing required fields:"] followed by one line
    ["  - path (env: NAME, flag: --name)"] per violation, in the order
    of the descriptor list, without the env clause for a descriptor
    that has no environment name and without the flag clause for one
    that has no primary flag name. *)
Theorem missing_required_fields_are_aggregated (p : Parser)
    (env : gmap string string) (st : Store) :
  Forall (coerces p env) (fields p) →
  filter (λ f, violation p env f) (fields p) ≠ [] →
  applyValues p env st
  = (Some ("missing required fields:"
             ++ reportLines (filter (λ f, violation p env f) (fields p))),
     foldl (writeResolved p env) st (fields p))
  ∧ (∀ field, EnvName field ≠ "" → CliName field ≠ "" →
       missingEntry field
       = FieldPath field ++ " (env: " ++ EnvName field
           ++ ", flag: --" ++ CliName field ++ ")")
  ∧ (∀ field, EnvName field ≠ "" → CliName field = "" →
       missingEntry field
       = FieldPath field ++ " (env: " ++ EnvName field ++ ")")
  ∧ (∀ field, EnvName field = "" → CliName field ≠ "" →
       missingEntry field
       = FieldPath field ++ " (flag: --" ++ CliName field ++ ")").
Proof.
  intros Hall Hviol. split; [|split; [|split]].
  - apply missing_required_fields_text; assumption.
  - intros field He Hc. unfold missingEntry. str_cases; try congruence.
    cbn [app strings.Join]. rewrite !string_app_assoc. reflexivity.
  - intros field He Hc. unfold missingEntry. rewrite Hc.
    str_cases; try congruence. cbn [app strings.Join].
    rewrite !string_app_assoc. reflexivity.
  - intros field He Hc. unfold missingEntry. rewrite He.
    str_cases; try congruence. cbn [app strings.Join].
    rewrite !string_app_assoc. reflexivity.
Qed.

(** *** Numbers *)

Lemma parseUintLoop_nonneg s n m :
  strconv.parseUintLoop s n = Ok m → 0 ≤ n → 0 ≤ m.
Proof.
  revert n. induction s as [|c r IH]; intros n; simpl.
  - intros [= <-]. trivial.
  - unfold strconv.digit.
    destruct ((48 <=? Z.of_N (N_of_ascii c))
              && (Z.of_N (N_of_ascii c) <=? 57)) eqn:Hd; [|discriminate].
    destruct (n >=? strconv.maxUint64 / 10 + 1); [discriminate|].
    destruct (n * 10 + (Z.of_N (N_of_ascii c) - 48) >? strconv.maxUint64);
      [discriminate|].
    intros Hr Hn. apply (IH _ Hr). lia.
Qed.

(** [Atoi] yields values of the 64-bit [int] only. *)
Lemma Atoi_range s n :
  strconv.Atoi s = Ok n → - 2 ^ 63 ≤ n ≤ 2 ^ 63 - 1.
Proof.
  unfold strconv.Atoi, strconv.parseInt.
  destruct s as [|c r]; [discriminate|].
  set (neg := Ascii.eqb c "-").
  set (body := if Ascii.eqb c "+" || neg then r else String c r).
  destruct body as [|b0 body'] eqn:Hbody; [discriminate|].
  destruct (strconv.parseUintLoop (String b0 body') 0) as [un|[|]] eqn:Hp;
    [|discriminate..].
  pose proof (parseUintLoop_nonneg _ _ _ Hp ltac:(lia)) as Hun.
  destruct neg; cbn [negb andb].
  - destruct (un >? 2 ^ 63) eqn:Hc; [discriminate|].
    intros [= <-]. lia.
  - destruct (un >=? 2 ^ 63) eqn:Hc; [discriminate|].
    intros [= <-]. lia.
Qed.

(** C4 (amended). For a descriptor of kind int, float32 or float64
    whose raw value has been selected: an int is parsed by
    [strconv.Atoi], as a 64-bit [int]; a float of either width is
    parsed by [strconv.ParseFloat] with bit size 64 and then stored in
    the width of the field. A parse failure ends [applyValues] at that
    descriptor, whatever violations were collected before and whatever
    descriptors follow, with the error ["error setting field PATH: "]
    followed by the text of the strconv error, which names the quoted
    raw value. The statement is about these three kinds only; it says
    nothing of the sized integer kinds. *)
Theorem numeric_parse_failure_aborts (p : Parser)
    (env : gmap string string) (field : fieldInfo) (value : string)
    (rest : list fieldInfo) (missing : list string) (st : Store) :
  selectValue p env field = (value, true) →
  (reflect.KindOf (Type_ field) = reflect.Int →
     (∀ n, strconv.Atoi value = Ok n →
        - 2 ^ 63 ≤ n ≤ 2 ^ 63 - 1
        ∧ setFieldValue field value st
          = Ok (<[Value field := VInt n]> st))
     ∧ (∀ e, strconv.Atoi value = Err e →
          applyLoop p env (field :: rest) missing st
          = (Some ("error setting field " ++ FieldPath field
                     ++ ": strconv.Atoi: parsing " ++ Quote value ++ ": "
                     ++ strconv.errKindText (strconv.Kind e)), st)))
  ∧ (reflect.KindOf (Type_ field) = reflect.Float32
     ∨ reflect.KindOf (Type_ field) = reflect.Float64 →
     (∀ f, parseFloat value 64 = Ok f →
        setFieldValue field value st
        = Ok (SetFloat (reflect.KindOf (Type_ field)) (Value field) f st))
     ∧ (∀ k, parseFloat value 64 = Err k →
          applyLoop p env (field :: rest) missing st
          = (Some ("error setting field " ++ FieldPath field
                     ++ ": strconv.ParseFloat: parsing " ++ Quote value
                     ++ ": " ++ strconv.errKindText k), st))).
Proof.
  intros Hsel. split.
  - intros Hk. split.
    + intros n Hn. split; [exact (Atoi_range _ _ Hn)|].
      unfold setFieldValue. rewrite Hk, Hn. reflexivity.
    + intros e He. cbn [applyLoop]. rewrite Hsel.
      unfold setFieldValue. rewrite Hk, He.
      unfold strconv.Atoi in He.
      destruct (strconv.parseInt value); inversion He; subst.
      reflexivity.
  - intros Hk. split.
    + intros f Hf. unfold setFieldValue, ParseFloat.
      destruct Hk as [Hk | Hk]; rewrite Hk, Hf; reflexivity.
    + intros k Hf. cbn [applyLoop]. rewrite Hsel.
      unfold setFieldValue, ParseFloat.
      destruct Hk as [Hk | Hk]; rewrite Hk, Hf; reflexivity.
Qed.

End ResolveFacts.

(** ** The struct walk *)

Section WalkFacts.
Context `{GoLib}.

Lemma EnvName_parseFieldTags p field path loc :
  EnvName (parseFieldTags p field path loc)
  = if negb (String.eqb (rawEnvName p field path) "")
       && negb (String.eqb (envPrefix p) "")
    then if negb (strings.HasPrefix (rawEnvName p field path) (envPrefix p))
         then envPrefix p ++ rawEnvName p field path
         else rawEnvName p field path
    else rawEnvName p field path.
Proof.
  unfold parseFieldTags, rawEnvName.
  destruct (negb (reflect.Get (reflect.Tag field) "flag" =? "")%string);
    [reflexivity|].
  destruct (negb (disableAutoFlag p)); reflexivity.
Qed.

Lemma HasPrefix_app pre s : strings.HasPrefix (pre ++ s) pre = true.
Proof.
  unfold strings.HasPrefix. induction pre as [|a pre IH]; simpl.
  - destruct s; reflexivity.
  - destruct (ascii_dec a a); [exact IH | congruence].
Qed.

Lemma HasPrefix_empty s : strings.HasPrefix s "" = true.
Proof. destruct s; reflexivity. Qed.

Lemma rawEnvName_no_prefix p field path loc :
  EnvName (parseFieldTags (with_envPrefix p "") field path loc)
  = rawEnvName p field path.
Proof. rewrite EnvName_parseFieldTags. simpl. rewrite andb_false_r. reflexivity. Qed.

(** C8. For a descriptor that has an environment name, explicit or
    derived from the path, a configured prefix is put in front of the
    name once: a name that already starts with the prefix is left as
    it is, any other name becomes prefix followed by name. The result
    always starts with the prefix, and a field tagged with the result
    gets the same name again, so that no name is prefixed twice. *)
Theorem env_prefix_applied_once (p : Parser) (field : reflect.StructField)
    (path loc : string) :
  let base := EnvName (parseFieldTags (with_envPrefix p "") field path loc) in
  let name := EnvName (parseFieldTags p field path loc) in
  base ≠ "" →
  (reflect.Get (reflect.Tag field) "env" ≠ "" →
   base = reflect.Get (reflect.Tag field) "env")
  ∧ (reflect.Get (reflect.Tag field) "env" = "" →
     base = ToUpper (strings.ReplaceAll path "." "_"))
  ∧ (strings.HasPrefix base (envPrefix p) = true → name = base)
  ∧ (strings.HasPrefix base (envPrefix p) = false →
     name = envPrefix p ++ base)
  ∧ strings.HasPrefix name (envPrefix p) = true
  ∧ (∀ n e tag typ path' loc',
       EnvName (parseFieldTags p
                  (reflect.mkStructField n e (("env", name) :: tag) typ)
                  path' loc') = name).
Proof.
  intros base name. subst base name.
  rewrite rawEnvName_no_prefix. intros Hbase.
  assert (Hname : EnvName (parseFieldTags p field path loc)
                  = if strings.HasPrefix (rawEnvName p field path) (envPrefix p)
                    then rawEnvName p field path
                    else envPrefix p ++ rawEnvName p field path).
  { rewrite EnvName_parseFieldTags.
    destruct (String.eqb_spec (rawEnvName p field path) ""); [congruence|].
    destruct (String.eqb_spec (envPrefix p) "") as [-> | Hp]; cbn [negb andb].
    - rewrite HasPrefix_empty. reflexivity.
    - destruct (strings.HasPrefix _ _); reflexivity. }
  assert (Hstarts : strings.HasPrefix (EnvName (parseFieldTags p field path loc))
                      (envPrefix p) = true).
  { rewrite Hname.
    destruct (strings.HasPrefix (rawEnvName p field path) (envPrefix p)) eqn:Hp;
      [exact Hp | apply HasPrefix_app]. }
  split; [|split; [|split; [|split; [|split]]]].
  - intros Htag. unfold rawEnvName.
    destruct (String.eqb_spec (reflect.Get (reflect.Tag field) "env") "");
      [congruence | reflexivity].
  - intros Htag. unfold rawEnvName in *. rewrite Htag in *. simpl in *.
    destruct (negb (disableAutoEnv p)); [reflexivity | congruence].
  - intros Hp. rewrite Hname, Hp. reflexivity.
  - intros Hp. rewrite Hname, Hp. reflexivity.
  - exact Hstarts.
  - intros n e tag typ path' loc'.
    set (name := EnvName (parseFieldTags p field path loc)) in *.
    rewrite EnvName_parseFieldTags.
    assert (Hraw : rawEnvName p (reflect.mkStructField n e (("env", name) :: tag) typ) path'
                   = name).
    { unfold rawEnvName. simpl.
      destruct (decide ("env" = "env")); [|congruence].
      destruct (String.eqb_spec name "") as [He | He]; [|reflexivity].
      exfalso. subst name. rewrite Hname in He.
      destruct (strings.HasPrefix (rawEnvName p field path) (envPrefix p));
        [congruence|].
      destruct (envPrefix p); [exact (Hbase He) | discriminate He]. }
    rewrite Hraw, Hstarts. cbn [negb].
    destruct (negb (name =? "")%string && negb (envPrefix p =? "")%string);
      reflexivity.
Qed.

(** Induction on record types, through the members of structs. *)
Section TypeInduction.
Variable P : reflect.Type_ → Prop.
Hypothesis HBasic : ∀ k, P (reflect.Basic k).
Hypothesis HSlice : ∀ e, P e → P (reflect.SliceOf e).
Hypothesis HStruct :
  ∀ members, Forall (λ sf, P (reflect.Typ sf)) members →
             P (reflect.StructOf members).

Fixpoint Type_induction (t : reflect.Type_) : P t :=
match t with
| reflect.Basic k => HBasic k
| reflect.SliceOf e => HSlice e (Type_induction e)
| reflect.StructOf members =>
    HStruct members
      ((fix go (ms : list reflect.StructField)
          : Forall (λ sf, P (reflect.Typ sf)) ms :=
          match ms with
          | [] => List.Forall_nil _
          | sf :: rest =>
              @List.Forall_cons _ _ sf rest
                (match sf as s return P (reflect.Typ s) with
                 | reflect.mkStructField _ _ _ ty => Type_induction ty
                 end)
                (go rest)
          end) members)
end.
End TypeInduction.

Lemma walkMembers_nil p pathPrefix : walkMembers p [] pathPrefix = p.
Proof. reflexivity. Qed.

Lemma walkMembers_cons p sf rest pathPrefix :
  walkMembers p (sf :: rest) pathPrefix
  = if negb (reflect.Exported sf) then walkMembers p rest pathPrefix
    else
      let fieldPath := joinPath pathPrefix (reflect.Name sf) in
      if decide (reflect.KindOf (reflect.Typ sf) = reflect.Struct)
      then walkMembers (walkStruct p (reflect.Typ sf) fieldPath) rest pathPrefix
      else
        let info := parseFieldTags p sf fieldPath fieldPath in
        if configurable info
        then walkMembers (with_fields p (fields p ++ [info])) rest pathPrefix
        else walkMembers p rest pathPrefix.
Proof. destruct sf as [n e tg ty]. reflexivity. Qed.

Lemma parseFieldTags_with_fields p l sf path loc :
  parseFieldTags (with_fields p l) sf path loc = parseFieldTags p sf path loc.
Proof. reflexivity. Qed.

Lemma with_fields_id p : with_fields p (fields p) = p.
Proof. destruct p; reflexivity. Qed.

Lemma with_fields_twice p a b : with_fields (with_fields p a) b = with_fields p b.
Proof. reflexivity. Qed.

Lemma leaf_cons sf rest pathPrefix x path :
  leaf (reflect.StructOf (sf :: rest)) pathPrefix x path
  ↔ leafVia pathPrefix sf x path ∨ leaf (reflect.StructOf rest) pathPrefix x path.
Proof.
  split.
  - intros Hl. inversion Hl as [ms pre m Hin He Hk | ms pre m inner pth Hin He Hk Hi];
      subst.
    + apply elem_of_cons in Hin as [-> | Hin].
      * left. split; [exact He | left; auto].
      * right. apply leaf_here; assumption.
    + apply elem_of_cons in Hin as [-> | Hin].
      * left. split; [exact He | right; auto].
      * right. eapply leaf_nested; eassumption.
  - intros [[He [[Hk [-> ->]] | [Hk Hi]]] | Hl].
    + apply leaf_here; [left | exact He | exact Hk].
    + eapply leaf_nested; [left | exact He | exact Hk | exact Hi].
    + inversion Hl as [ms pre m Hin He Hk | ms pre m inner pth Hin He Hk Hi];
        subst.
      * apply leaf_here; [right; exact Hin | exact He | exact Hk].
      * eapply leaf_nested; [right; exact Hin | exact He | exact Hk | exact Hi].
Qed.

Lemma leaf_nil pathPrefix x path :
  ¬ leaf (reflect.StructOf []) pathPrefix x path.
Proof.
  intros Hl. inversion Hl as [ms pre m Hin | ms pre m inner pth Hin]; subst;
    inversion Hin.
Qed.

Lemma walkStruct_appends typ :
  ∀ p pathPrefix,
    ∃ l, walkStruct p typ pathPrefix = with_fields p (fields p ++ l)
         ∧ walked p typ pathPrefix l.
Proof.
  induction typ as [k | e _ | members IHm] using Type_induction;
    intros p pathPrefix.
  - exists []. split.
    + simpl. rewrite app_nil_r, with_fields_id. reflexivity.
    + intros info. split; [intros Hin; inversion Hin|].
      intros (sf & path & Hl & _). inversion Hl.
  - exists []. split.
    + simpl. rewrite app_nil_r, with_fields_id. reflexivity.
    + intros info. split; [intros Hin; inversion Hin|].
      intros (sf & path & Hl & _). inversion Hl.
  - change (walkStruct p (reflect.StructOf members) pathPrefix)
      with (walkMembers p members pathPrefix).
    revert p. induction IHm as [|sf rest IHsf _ IHrest]; intros p.
    + exists []. split.
      * rewrite walkMembers_nil, app_nil_r, with_fields_id. reflexivity.
      * intros info. split; [intros Hin; inversion Hin|].
        intros (sf & path & Hl & _). exfalso. eapply leaf_nil. exact Hl.
    + rewrite walkMembers_cons.
      destruct (reflect.Exported sf) eqn:Hexp; cbn [negb].
      2:{ destruct (IHrest p) as (l & Heq & Hw). exists l. split; [exact Heq|].
          intros info. rewrite (Hw info). split.
          - intros (x & path & Hl & Hrest). exists x, path.
            split; [|exact Hrest]. apply leaf_cons. right. exact Hl.
          - intros (x & path & Hl & Hrest). exists x, path.
            split; [|exact Hrest].
            apply leaf_cons in Hl as [[He _] | Hl]; [congruence | exact Hl]. }
      cbv zeta.
      destruct (decide (reflect.KindOf (reflect.Typ sf) = reflect.Struct))
        as [Hk | Hk].
      * destruct (IHsf p (joinPath pathPrefix (reflect.Name sf)))
          as (l1 & Heq1 & Hw1).
        rewrite Heq1.
        destruct (IHrest (with_fields p (fields p ++ l1))) as (l2 & Heq2 & Hw2).
        exists (l1 ++ l2)%list. split.
        { rewrite Heq2. cbn [fields with_fields]. rewrite with_fields_twice.
          rewrite app_assoc. reflexivity. }
        intros info. rewrite elem_of_app, (Hw1 info), (Hw2 info). split.
        { intros [(x & path & Hl & Hrest) | (x & path & Hl & Hrest)];
            exists x, path; (split; [|exact Hrest]); apply leaf_cons.
          - left. split; [exact Hexp | right; auto].
          - right. exact Hl. }
        { intros (x & path & Hl & Hrest).
          apply leaf_cons in Hl as [[_ [[Hk' _] | [_ Hl]]] | Hl].
          - congruence.
          - left. exists x, path. auto.
          - right. exists x, path. auto. }
      * set (info := parseFieldTags p sf (joinPath pathPrefix (reflect.Name sf))
                       (joinPath pathPrefix (reflect.Name sf))).
        destruct (configurable info) eqn:Hconf.
        { destruct (IHrest (with_fields p (fields p ++ [info])))
            as (l2 & Heq2 & Hw2).
          exists (info :: l2). split.
          { rewrite Heq2. cbn [fields with_fields]. rewrite with_fields_twice.
            rewrite <- app_assoc. reflexivity. }
          intros i. rewrite elem_of_cons, (Hw2 i). split.
          - intros [-> | (x & path & Hl & Hrest)].
            + exists sf, (joinPath pathPrefix (reflect.Name sf)).
              split; [|split; [reflexivity | exact Hconf]].
              apply leaf_cons. left. split; [exact Hexp | left; auto].
            + exists x, path. split; [|exact Hrest]. apply leaf_cons.
              right. exact Hl.
          - intros (x & path & Hl & Hi & Hc).
            apply leaf_cons in Hl as [[_ [[_ [-> ->]] | [Hk' _]]] | Hl].
            + left. exact Hi.
            + congruence.
            + right. exists x, path. auto. }
        { destruct (IHrest p) as (l2 & Heq2 & Hw2).
          exists l2. split; [exact Heq2|].
          intros i. rewrite (Hw2 i). split.
          - intros (x & path & Hl & Hrest). exists x, path.
            split; [|exact Hrest]. apply leaf_cons. right. exact Hl.
          - intros (x & path & Hl & Hi & Hc).
            apply leaf_cons in Hl as [[_ [[_ [-> ->]] | [Hk' _]]] | Hl].
            + subst i. fold info in Hc. congruence.
            + congruence.
            + exists x, path. auto. }
Qed.

End WalkFacts.

Section DescriptorList.
Context `{GoLib}.

Lemma configurable_spec info :
  configurable info = true
  ↔ EnvName info ≠ "" ∨ CliName info ≠ "" ∨ DefaultVal info ≠ "".
Proof.
  unfold configurable. split.
  - intros Hc. str_cases; auto; discriminate.
  - intros [He | [He | He]]; str_cases; congruence.
Qed.

(** The loop writes at the locations of the descriptors it is given. *)
Lemma applyLoop_untouched p env fs missing st loc :
  (∀ f, f ∈ fs → Value f ≠ loc) →
  (applyLoop p env fs missing st).2 !! loc = st !! loc.
Proof.
  revert missing st. induction fs as [|field rest IH]; intros missing st Hloc.
  - simpl. destruct (0 <? length missing)%nat; reflexivity.
  - cbn [applyLoop].
    assert (Hrest : ∀ f, f ∈ rest → Value f ≠ loc).
    { intros f Hf. apply Hloc. right. exact Hf. }
    destruct (selectValue p env field) as [v [|]].
    + destruct (setFieldValue field v st) as [st1|e] eqn:Hset; [|reflexivity].
      rewrite (IH _ _ Hrest).
      eapply setFieldValue_other; [exact Hset|].
      intros ->. eapply Hloc; [left | reflexivity].
    + apply IH. exact Hrest.
Qed.

(** C7. After the walk of a record type, a descriptor is in the list
    exactly if it was there before or is the descriptor of a leaf field
    of the type for which an environment name, a primary flag name or a
    default value is set; a leaf with none of the three has no
    descriptor. Resolution goes by the list only: [applyValues] leaves
    every location that no listed descriptor targets as it was, and the
    lines of its aggregated error are those of listed descriptors. *)
Theorem descriptor_iff_configurable (p : Parser) (typ : reflect.Type_)
    (pathPrefix : string) :
  (∀ info,
     info ∈ fields (walkStruct p typ pathPrefix)
     ↔ info ∈ fields p
       ∨ ∃ sf path, leaf typ pathPrefix sf path
                    ∧ info = parseFieldTags p sf path path
                    ∧ (EnvName info ≠ "" ∨ CliName info ≠ ""
                       ∨ DefaultVal info ≠ ""))
  ∧ (∀ q env st loc,
       (∀ f, f ∈ fields q → Value f ≠ loc) →
       (applyValues q env st).2 !! loc = st !! loc)
  ∧ (∀ q env st err st',
       applyValues q env st = (Some err, st') →
       strings.HasPrefix err "missing required fields:" = true →
       err = "missing required fields:"
               ++ reportLines (filter (λ f, violation q env f) (fields q))).
Proof.
  split; [|split].
  - intros info.
    destruct (walkStruct_appends typ p pathPrefix) as (l & Heq & Hw).
    rewrite Heq. cbn [fields with_fields]. rewrite elem_of_app, (Hw info).
    split.
    + intros [Hin | (sf & path & Hl & Hi & Hc)]; [left; exact Hin | right].
      exists sf, path. split; [exact Hl | split; [exact Hi|]].
      apply (proj1 (configurable_spec info)). exact Hc.
    + intros [Hin | (sf & path & Hl & Hi & Hc)]; [left; exact Hin | right].
      exists sf, path. split; [exact Hl | split; [exact Hi|]].
      apply (proj2 (configurable_spec info)). exact Hc.
  - intros q env st loc Hloc. unfold applyValues.
    apply applyLoop_untouched. exact Hloc.
  - intros q env st err st' Hrun Hpre.
    destruct (aggregated_run_facts q env st st' err Hrun Hpre)
      as (Hall & Hviol).
    rewrite (missing_required_fields_text q env st Hall Hviol) in Hrun.
    congruence.
Qed.

End DescriptorList.

(** ** Boolean switches *)

Section Switches.
Context `{GoLib}.

Lemma recordBool_eq names name primary b fv :
  recordBool names name primary b fv
  = if decide (name ∈ names)
    then <[primary := strconv.FormatBool b]> fv else fv.
Proof.
  induction names as [|n rest IH]; cbn [recordBool].
  - rewrite decide_False; [reflexivity|]. intros Hin. inversion Hin.
  - destruct (String.eqb_spec n name) as [-> | Hne].
    + rewrite decide_True by left. reflexivity.
    + rewrite IH. destruct (decide (name ∈ rest)) as [Hin | Hin].
      * rewrite decide_True by (right; exact Hin). reflexivity.
      * rewrite decide_False; [reflexivity|].
        intros Hc. apply elem_of_cons in Hc as [-> | Hc]; congruence.
Qed.

(** The callback of [Visit] changes the recorded values only. *)
Lemma recordAll_frame (fs : list fieldInfo) name b p :
  let p' := foldl (λ p field,
                     with_flagValues p
                       (recordBool (CliNames field) name (CliName field) b
                                   (flagValues p))) p fs in
  fields p' = fields p ∧ boolFlags p' = boolFlags p ∧ flagSet p' = flagSet p.
Proof.
  revert p. induction fs as [|g rest IH]; intros p; [cbn; auto|].
  cbn [foldl]. cbv zeta in *.
  destruct (IH (with_flagValues p
    (recordBool (CliNames g) name (CliName g) b (flagValues p)))) as (A & B & C).
  rewrite A, B, C. auto.
Qed.

Lemma visitFlag_frame p name :
  fields (visitFlag p name) = fields p
  ∧ boolFlags (visitFlag p name) = boolFlags p
  ∧ flagSet (visitFlag p name) = flagSet p.
Proof.
  unfold visitFlag. destruct (boolFlags p !! name) as [b|]; [|auto].
  apply recordAll_frame.
Qed.

Lemma recordedUnder_snoc fs g key name :
  recordedUnder (fs ++ [g]) key name
  ↔ recordedUnder fs key name ∨ (name ∈ CliNames g ∧ CliName g = key).
Proof.
  unfold recordedUnder. split.
  - intros (g' & Hin & Hn & Hk). apply elem_of_app in Hin as [Hin | Hin].
    + left. exists g'. auto.
    + apply list_elem_of_singleton in Hin as ->. right. auto.
  - intros [(g' & Hin & Hn & Hk) | [Hn Hk]].
    + exists g'. split; [apply elem_of_app; left; exact Hin | auto].
    + exists g. split; [apply elem_of_app; right; left | auto].
Qed.

Lemma recordAll_lookup (fs : list fieldInfo) name b key p :
  let fv := flagValues
              (foldl (λ p field,
                        with_flagValues p
                          (recordBool (CliNames field) name (CliName field) b
                                      (flagValues p))) p fs) in
  (recordedUnder fs key name → fv !! key = Some (strconv.FormatBool b))
  ∧ (¬ recordedUnder fs key name → fv !! key = flagValues p !! key).
Proof.
  induction fs as [|g fs IH] using rev_ind; cbv zeta in *.
  - split; [|reflexivity]. intros (g & Hin & _). inversion Hin.
  - rewrite foldl_app. cbn [foldl flagValues with_flagValues].
    rewrite recordBool_eq. destruct IH as [IHhit IHmiss].
    destruct (decide (name ∈ CliNames g)) as [Hn | Hn].
    + destruct (decide (CliName g = key)) as [Hk | Hk].
      * split; [|intros Hno; exfalso; apply Hno, recordedUnder_snoc; auto].
        intros _. rewrite Hk. apply lookup_insert_eq.
      * rewrite lookup_insert_ne by exact Hk. split.
        { intros Hr. apply recordedUnder_snoc in Hr as [Hr | [_ Hr]];
            [auto | congruence]. }
        { intros Hno. apply IHmiss. intros Hr. apply Hno, recordedUnder_snoc.
          auto. }
    + split.
      * intros Hr. apply recordedUnder_snoc in Hr as [Hr | [Hr _]];
          [auto | congruence].
      * intros Hno. apply IHmiss. intros Hr. apply Hno, recordedUnder_snoc.
        auto.
Qed.

Lemma visitFlag_hit p name key b :
  boolFlags p !! name = Some b → recordedUnder (fields p) key name →
  flagValues (visitFlag p name) !! key = Some (strconv.FormatBool b).
Proof.
  intros Hb Hr. unfold visitFlag. rewrite Hb.
  apply (recordAll_lookup (fields p) name b key p). exact Hr.
Qed.

Lemma visitFlag_miss p name key :
  (is_Some (boolFlags p !! name) → ¬ recordedUnder (fields p) key name) →
  flagValues (visitFlag p name) !! key = flagValues p !! key.
Proof.
  intros Hno. unfold visitFlag.
  destruct (boolFlags p !! name) as [b|] eqn:Hb; [|reflexivity].
  apply (recordAll_lookup (fields p) name b key p). apply Hno. eauto.
Qed.

(** The flags [Visit] visits are those set on the command line. *)
Lemma visited_names p name :
  name ∈ merge_sort String.le (elements (flag.actual (flagSet p)))
  ↔ name ∈ flag.actual (flagSet p).
Proof. rewrite merge_sort_Permutation. apply elem_of_elements. Qed.

(** No flag set on the command line is a switch recorded under [key]:
    [Visit] records nothing under [key]. *)
Lemma visitAll_miss names p key :
  (∀ m, m ∈ names → is_Some (boolFlags p !! m) →
        ¬ recordedUnder (fields p) key m) →
  flagValues (foldl visitFlag p names) !! key = flagValues p !! key.
Proof.
  revert p. induction names as [|m rest IH]; intros p Hno; [reflexivity|].
  cbn [foldl]. destruct (visitFlag_frame p m) as (Hf & Hb & _).
  rewrite IH.
  - apply visitFlag_miss. apply Hno. left.
  - intros m' Hin. rewrite Hf, Hb. apply Hno. right. exact Hin.
Qed.

(** A switch recorded under [key] is set and on, and so is every other
    switch that is set and recorded under [key]: [Visit] records "true". *)
Lemma visitAll_true names p key n :
  (n ∈ names ∧ boolFlags p !! n = Some true
   ∧ recordedUnder (fields p) key n
   ∨ flagValues p !! key = Some "true") →
  (∀ m b, m ∈ names → boolFlags p !! m = Some b →
          recordedUnder (fields p) key m → b = true) →
  flagValues (foldl visitFlag p names) !! key = Some "true".
Proof.
  revert p. induction names as [|m rest IH]; intros p Hn Hall.
  - destruct Hn as [(Hin & _) | Hv]; [inversion Hin | exact Hv].
  - cbn [foldl]. destruct (visitFlag_frame p m) as (Hf & Hb & _).
    apply IH.
    + rewrite Hf, Hb.
      assert (Hkeep : flagValues p !! key = Some "true" →
                      flagValues (visitFlag p m) !! key = Some "true").
      { intros Hv. destruct (boolFlags p !! m) as [b|] eqn:Hbm.
        - destruct (decide (recordedUnder (fields p) key m)) as [Hr | Hr].
          + rewrite (visitFlag_hit _ _ _ _ Hbm Hr).
            rewrite (Hall m b); [reflexivity | left | exact Hbm | exact Hr].
          + rewrite visitFlag_miss; [exact Hv | intros _; exact Hr].
        - rewrite visitFlag_miss; [exact Hv|]. rewrite Hbm. intros [? ?].
          discriminate. }
      destruct Hn as [(Hin & Hbn & Hr) | Hv]; [|right; auto].
      apply elem_of_cons in Hin as [-> | Hin]; [|left; auto].
      right. rewrite (visitFlag_hit _ _ _ _ Hbn Hr). reflexivity.
    + intros m' b Hin. rewrite Hf, Hb. apply Hall. right. exact Hin.
Qed.

Lemma cutEquals_none r :
  containsByte r "=" = false → cutEquals r = (r, false, "").
Proof.
  induction r as [|c r IH]; cbn [containsByte cutEquals]; [reflexivity|].
  destruct (Ascii.eqb c "="); [discriminate|]. cbn [orb]. intros Hr.
  rewrite (IH Hr). reflexivity.
Qed.

(** A name that does not begin with a dash and holds no equals sign,
    after one dash or two, is a bare flag. *)
Lemma classify_bare c r :
  c ≠ "-"%char → containsByte (String c r) "=" = false →
  classify ("-" ++ String c r) = FlagTok (String c r) false ""
  ∧ classify ("--" ++ String c r) = FlagTok (String c r) false "".
Proof.
  intros Hc Heq. cbn [containsByte] in Heq.
  apply orb_false_iff in Heq as [Hceq Hr].
  assert (Hname : flagName (String c r) = FlagTok (String c r) false "").
  { unfold flagName. rewrite Hceq.
    destruct (Ascii.eqb_spec c "-"); [congruence|]. cbn [orb].
    rewrite (cutEquals_none _ Hr). reflexivity. }
  split.
  - change ("-" ++ String c r)%string with (String "-" (String c r)).
    cbn [classify]. rewrite Ascii.eqb_refl. cbn [negb].
    destruct (Ascii.eqb_spec c "-"); [congruence | exact Hname].
  - change ("--" ++ String c r)%string
      with (String "-" (String "-" (String c r))).
    cbn [classify]. rewrite !Ascii.eqb_refl. cbn [negb]. exact Hname.
Qed.

Lemma selectValue_frame p q env field :
  flagValues q !! CliName field = flagValues p !! CliName field →
  selectValue q env field = selectValue p env field.
Proof. unfold selectValue. intros ->. reflexivity. Qed.

(** C5 (amended). The flags of a boolean descriptor are switches that
    take no value token. Registration makes each of them a bool flag
    whose variable is false. A name after one dash or two is a bare
    flag token; for a registered switch it is consumed on its own (the
    arguments after it are parsed next) and turns the variable on. In resolution, if the command line has set no
    switch recorded under the primary name of the descriptor and neither
    the environment nor a default gives a value, the field is not
    assigned: it keeps the value the record held, which is false only if
    it was false before. If the command line has set a switch of the
    descriptor, which is on, and every other switch it has set and
    records under the same primary name is on too, the field is assigned
    true. *)
Theorem boolean_switch_presence (env : gmap string string)
    (field : fieldInfo) :
  reflect.KindOf (Type_ field) = reflect.Bool →
  (∀ p n p', registerFlag p field n = Ok p' →
     flag.formal (flagSet p') !! n = Some (flag.boolValue n)
     ∧ boolFlags p' !! n = Some false)
  ∧ (∀ c r, c ≠ "-"%char → containsByte (String c r) "=" = false →
       classify ("-" ++ String c r) = FlagTok (String c r) false ""
       ∧ classify ("--" ++ String c r) = FlagTok (String c r) false "")
  ∧ (∀ p n tok rest,
       flag.formal (flagSet p) !! n = Some (flag.boolValue n) →
       classify tok = FlagTok n false "" →
       flagParse p (tok :: rest)
       = flagParse
           (markActual (with_boolFlags p (<[n := true]> (boolFlags p))) n)
           rest)
  ∧ (∀ p rest missing st,
       flagValues p !! CliName field = None →
       (∀ m, m ∈ flag.actual (flagSet p) → is_Some (boolFlags p !! m) →
             ¬ recordedUnder (fields p) (CliName field) m) →
       noEnv env field → DefaultVal field = "" →
       applyLoop (Visit p) env (field :: rest) missing st
       = applyLoop (Visit p) env rest
           (if Required field then (missing ++ [missingEntry field])%list
            else missing) st)
  ∧ (∀ p n rest missing st,
       CliName field ≠ "" → field ∈ fields p → n ∈ CliNames field →
       n ∈ flag.actual (flagSet p) → boolFlags p !! n = Some true →
       (∀ m b, m ∈ flag.actual (flagSet p) → boolFlags p !! m = Some b →
               recordedUnder (fields p) (CliName field) m → b = true) →
       applyLoop (Visit p) env (field :: rest) missing st
       = applyLoop (Visit p) env rest missing
           (<[Value field := VBool true]> st)).
Proof.
  intros Hk. split; [|split; [|split; [|split]]].
  - intros p n p'. unfold registerFlag. rewrite Hk. unfold Var.
    destruct (strings.HasPrefix n "-"); [discriminate|].
    destruct (containsByte n "="); [discriminate|].
    destruct (flag.formal (flagSet p) !! n); [discriminate|].
    intros [= <-]. cbn. rewrite !lookup_insert_eq. auto.
  - apply classify_bare.
  - intros p n tok rest Hf Hc. cbn [flagParse]. rewrite Hc, Hf.
    reflexivity.
  - intros p rest missing st Hfv Hno He Hd.
    assert (Hv : flagValues (Visit p) !! CliName field = None).
    { unfold Visit. rewrite visitAll_miss; [exact Hfv|].
      intros m Hm. apply Hno. apply visited_names. exact Hm. }
    assert (Hsel : selectValue (Visit p) env field = ("", false)).
    { apply selectValue_none; [right; left; exact Hv | exact He | exact Hd]. }
    cbn [applyLoop]. rewrite Hsel. cbn [negb]. rewrite andb_true_r.
    reflexivity.
  - intros p n rest missing st Hc Hin Hn Hact Hb Hall.
    assert (Hv : flagValues (Visit p) !! CliName field = Some "true").
    { unfold Visit. apply (visitAll_true _ _ _ n).
      - left. split; [apply visited_names; exact Hact|].
        split; [exact Hb|]. exists field. auto.
      - intros m b Hm. apply Hall. apply visited_names. exact Hm. }
    assert (Hsel : selectValue (Visit p) env field = ("true", true)).
    { apply selectValue_cli; [exact Hc | exact Hv | discriminate]. }
    cbn [applyLoop]. rewrite Hsel. cbn [negb]. rewrite andb_false_r.
    unfold setFieldValue. rewrite Hk. reflexivity.
Qed.

End Switches.

(** * Further properties of the code *)

(** ** Resolution *)

Section ResolveMore.
Context `{GoLib}.

(** X1. The value the loop of [applyValues] selects for a descriptor is
    never the empty string and is one of its three sources: the value
    recorded under its primary flag name, the lookup of its environment
    name, or its default. No value is selected exactly when the three
    are absent or empty. *)
Theorem selected_value_is_a_nonempty_source (p : Parser)
    (env : gmap string string) (field : fieldInfo) (v : string) (b : bool) :
  selectValue p env field = (v, b) →
  (b = true →
   v ≠ ""
   ∧ ((CliName field ≠ "" ∧ flagValues p !! CliName field = Some v)
      ∨ (noCli p field ∧ EnvName field ≠ ""
         ∧ Getenv env (EnvName field) = v)
      ∨ (noCli p field ∧ noEnv env field ∧ DefaultVal field = v)))
  ∧ (b = false →
     v = "" ∧ noCli p field ∧ noEnv env field ∧ DefaultVal field = "").
Proof.
  intros Hsel.
  assert (Hcli : noCli p field
                 ∨ ∃ c, CliName field ≠ "" ∧ c ≠ ""
                        ∧ flagValues p !! CliName field = Some c).
  { destruct (String.eqb_spec (CliName field) "") as [Hc | Hc];
      [left; left; exact Hc|].
    destruct (flagValues p !! CliName field) as [c|] eqn:Hl;
      [|left; right; left; exact Hl].
    destruct (String.eqb_spec c "") as [-> | Hne];
      [left; right; right; exact Hl|].
    right. exists c. auto. }
  destruct Hcli as [Hcli | (c & Hc & Hne & Hl)].
  2:{ rewrite (selectValue_cli p env field c Hc Hl Hne) in Hsel.
      inversion Hsel; subst. split; [|discriminate].
      intros _. split; [exact Hne | left; auto]. }
  assert (Henv : noEnv env field
                 ∨ (EnvName field ≠ "" ∧ Getenv env (EnvName field) ≠ "")).
  { destruct (String.eqb_spec (EnvName field) "") as [He | He];
      [left; left; exact He|].
    destruct (String.eqb_spec (Getenv env (EnvName field)) "") as [Hg | Hg];
      [left; right; exact Hg | right; auto]. }
  destruct Henv as [Henv | [He Hg]].
  2:{ rewrite (selectValue_env p env field Hcli He Hg) in Hsel.
      inversion Hsel; subst. split; [|discriminate].
      intros _. split; [exact Hg | right; left; auto]. }
  destruct (String.eqb_spec (DefaultVal field) "") as [Hd | Hd].
  - rewrite (selectValue_none p env field Hcli Henv Hd) in Hsel.
    inversion Hsel; subst. split; [discriminate | auto].
  - rewrite (selectValue_default p env field Hcli Henv Hd) in Hsel.
    inversion Hsel; subst. split; [|discriminate].
    intros _. split; [exact Hd | right; right; auto].
Qed.

(** What [setFieldValue] does is fixed by the descriptor and the raw
    value: it fails, leaves the record alone, or stores one value at the
    location of the field, whatever the record holds. *)
Lemma setFieldValue_shape field value :
  (∃ e, ∀ st, setFieldValue field value st = Err e)
  ∨ (∀ st, setFieldValue field value st = Ok st)
  ∨ (∃ d, ∀ st, setFieldValue field value st = Ok (<[Value field := d]> st)).
Proof.
  unfold setFieldValue, SetString, SetInt, SetBool, SetStrings, SetFloat.
  destruct (reflect.KindOf (Type_ field));
    try (right; left; intros st; reflexivity);
    try (right; right; eexists; intros st; reflexivity).
  - destruct (strconv.ParseBool value) as [b|e];
      [right; right; eexists; intros st; reflexivity
      | left; eexists; intros st; reflexivity].
  - destruct (strconv.Atoi value) as [n|e];
      [right; right; eexists; intros st; reflexivity
      | left; eexists; intros st; reflexivity].
  - destruct (ParseFloat value 64) as [f|e];
      [right; right; eexists; intros st; reflexivity
      | left; eexists; intros st; reflexivity].
  - destruct (ParseFloat value 64) as [f|e];
      [right; right; eexists; intros st; reflexivity
      | left; eexists; intros st; reflexivity].
  - destruct (decide _);
      [right; right; eexists; intros st; reflexivity
      | right; left; intros st; reflexivity].
Qed.

(** X2. An assignment replaces the contents at the location of the
    field by a value that depends on the descriptor and the raw string
    only, or (for a kind that is not supported) changes nothing; no
    other location of the record is touched. *)
Theorem assignment_is_local (field : fieldInfo) (value : string)
    (st st' : Store) :
  setFieldValue field value st = Ok st' →
  (∀ loc, loc ≠ Value field → st' !! loc = st !! loc)
  ∧ ((∀ st2, setFieldValue field value st2 = Ok st2)
     ∨ ∃ d, st' !! Value field = Some d
            ∧ ∀ st2, setFieldValue field value st2
                     = Ok (<[Value field := d]> st2)).
Proof.
  intros Hset. split.
  - intros loc Hloc. eapply setFieldValue_other; eassumption.
  - destruct (setFieldValue_shape field value) as [(e & He) | [Hid | (d & Hd)]].
    + rewrite He in Hset. discriminate.
    + left. exact Hid.
    + right. exists d. split; [|exact Hd].
      rewrite Hd in Hset. inversion Hset; subst. apply lookup_insert_eq.
Qed.

Lemma writeResolved_shape p env field :
  (∀ st, writeResolved p env st field = st)
  ∨ (∃ d, ∀ st, writeResolved p env st field = <[Value field := d]> st).
Proof.
  unfold writeResolved.
  destruct (selectValue p env field) as [v [|]]; [|left; reflexivity].
  destruct (setFieldValue_shape field v) as [(e & He) | [Hid | (d & Hd)]].
  - left. intros st. rewrite He. reflexivity.
  - left. intros st. rewrite Hid. reflexivity.
  - right. exists d. intros st. rewrite Hd. reflexivity.
Qed.

(** The assignments of a list of descriptors: a location holds what its
    last descriptor wrote, or what it held. *)
Lemma writes_lookup p env fs :
  ∃ g : string → option Datum,
    ∀ st k, foldl (writeResolved p env) st fs !! k
            = match g k with Some d => Some d | None => st !! k end.
Proof.
  induction fs as [|f fs IH] using rev_ind.
  - exists (λ _, None). reflexivity.
  - destruct IH as (g & Hg).
    destruct (writeResolved_shape p env f) as [Hid | (d & Hd)].
    + exists g. intros st k. rewrite foldl_app. cbn [foldl].
      rewrite Hid. apply Hg.
    + exists (λ k, if decide (Value f = k) then Some d else g k).
      intros st k. rewrite foldl_app. cbn [foldl]. rewrite Hd.
      destruct (decide (Value f = k)) as [<- | Hne].
      * apply lookup_insert_eq.
      * rewrite lookup_insert_ne by exact Hne. apply Hg.
Qed.

Lemma writes_idempotent p env fs st :
  foldl (writeResolved p env) (foldl (writeResolved p env) st fs) fs
  = foldl (writeResolved p env) st fs.
Proof.
  destruct (writes_lookup p env fs) as (g & Hg).
  apply map_eq. intros k. rewrite (Hg (foldl (writeResolved p env) st fs) k).
  rewrite (Hg st k). destruct (g k); reflexivity.
Qed.

(** The loop, whatever the record: the error it returns, and the
    descriptors whose assignments it has made when it returns. *)
Lemma applyLoop_uniform p env fs missing :
  ∃ e done, ∀ st, applyLoop p env fs missing st
                  = (e, foldl (writeResolved p env) st done).
Proof.
  revert missing. induction fs as [|field rest IH]; intros missing.
  - cbn [applyLoop]. destruct (0 <? length missing)%nat;
      eexists; exists []; intros st; reflexivity.
  - cbn [applyLoop].
    destruct (selectValue p env field) as [v [|]] eqn:Hsel.
    + destruct (setFieldValue_shape field v) as [(e & He) | Hok].
      * eexists. exists []. intros st. rewrite He. reflexivity.
      * destruct (IH (if Required field && negb true
                      then (missing ++ [missingEntry field])%list
                      else missing)) as (e & done & Hrest).
        exists e, (field :: done). intros st. cbn [foldl].
        unfold writeResolved at 2. rewrite Hsel.
        destruct Hok as [Hid | (d & Hd)].
        { rewrite Hid. apply Hrest. }
        { rewrite Hd. apply Hrest. }
    + destruct (IH (if Required field && negb false
                    then (missing ++ [missingEntry field])%list
                    else missing)) as (e & done & Hrest).
      exists e, (field :: done). intros st. cbn [foldl].
      unfold writeResolved at 2. rewrite Hsel. apply Hrest.
Qed.

(** X3. Whether [applyValues] fails, and with which error, does not
    depend on what the record holds; and resolving again into the record
    a first resolution has left gives the same error and leaves the
    record as it is. *)
Theorem resolution_is_idempotent (p : Parser) (env : gmap string string)
    (st st2 : Store) :
  (applyValues p env st).1 = (applyValues p env st2).1
  ∧ applyValues p env (applyValues p env st).2 = applyValues p env st.
Proof.
  unfold applyValues.
  destruct (applyLoop_uniform p env (fields p) []) as (e & done & Hrun).
  split.
  - rewrite (Hrun st), (Hrun st2). reflexivity.
  - rewrite (Hrun st). cbn [snd]. rewrite Hrun, writes_idempotent.
    reflexivity.
Qed.

Lemma applyLoop_none p env fs missing st st' :
  applyLoop p env fs missing st = (None, st') → Forall (coerces p env) fs.
Proof.
  revert missing st. induction fs as [|field rest IH]; intros missing st.
  - constructor.
  - cbn [applyLoop]. destruct (selectValue p env field) as [v [|]] eqn:Hsel.
    + destruct (setFieldValue field v st) as [st1|e] eqn:Hset; [|discriminate].
      intros Hrun. constructor; [|eapply IH; exact Hrun].
      intros v' st2 Hv'. assert (v' = v) as -> by congruence.
      eapply setFieldValue_ok_indep. exact Hset.
    + intros Hrun. constructor; [|eapply IH; exact Hrun].
      intros v' st2 Hv'. congruence.
Qed.

(** X4. [applyValues] returns no error exactly when every selected
    value coerces and no required descriptor is left without a value. *)
Theorem resolution_succeeds_iff (p : Parser) (env : gmap string string)
    (st : Store) :
  (applyValues p env st).1 = None
  ↔ Forall (coerces p env) (fields p)
    ∧ filter (λ f, violation p env f) (fields p) = [].
Proof.
  unfold applyValues. split.
  - intros Hnone.
    destruct (applyLoop p env (fields p) [] st) as [e st'] eqn:Hrun.
    cbn [fst] in Hnone. subst e.
    pose proof (applyLoop_none _ _ _ _ _ _ Hrun) as Hall.
    split; [exact Hall|].
    rewrite (applyLoop_complete _ _ _ _ _ Hall) in Hrun.
    destruct (filter (λ f, violation p env f) (fields p)); [reflexivity|].
    discriminate.
  - intros [Hall Hviol].
    rewrite (applyLoop_complete _ _ _ _ _ Hall), Hviol. reflexivity.
Qed.

(** X5. A value that fails to coerce ends the loop at its descriptor:
    the error names that descriptor, the assignments of the descriptors
    before it stay in the record, the descriptors after it are not
    processed, and violations collected before are not reported. *)
Theorem coercion_failure_stops_the_loop (p : Parser)
    (env : gmap string string) (before after : list fieldInfo)
    (field : fieldInfo) (v : string) (e : strconv.NumError) (st0 : Store) :
  fields p = (before ++ field :: after)%list →
  Forall (coerces p env) before →
  selectValue p env field = (v, true) →
  setFieldValue field v st0 = Err e →
  ∀ st, applyValues p env st
        = (Some ("error setting field " ++ FieldPath field ++ ": "
                   ++ NumError_Error e),
           foldl (writeResolved p env) st before).
Proof.
  intros Hfs Hall Hsel Hfail st. unfold applyValues. rewrite Hfs.
  clear Hfs.
  assert (Herr : ∀ st1, setFieldValue field v st1 = Err e).
  { destruct (setFieldValue_shape field v) as [(e' & He) | [Hid | (d & Hd)]].
    - intros st1. rewrite He. rewrite He in Hfail. exact Hfail.
    - rewrite Hid in Hfail. discriminate.
    - rewrite Hd in Hfail. discriminate. }
  generalize (@nil string) as missing. revert st.
  induction Hall as [|g before Hg _ IH]; intros st missing.
  - cbn [app applyLoop foldl]. rewrite Hsel, Herr. reflexivity.
  - cbn [app applyLoop foldl]. unfold writeResolved at 2.
    destruct (selectValue p env g) as [w [|]] eqn:Hw.
    + destruct (Hg w st Hw) as (st1 & Hst1). rewrite Hst1. apply IH.
    + apply IH.
Qed.

Lemma Split_length s sep :
  length (strings.Split s sep) = S (countByte s sep).
Proof.
  induction s as [|c r IH]; [reflexivity|].
  cbn [strings.Split countByte].
  destruct (Ascii.eqb c sep).
  - cbn [length]. rewrite IH. reflexivity.
  - destruct (strings.Split r sep) as [|h t]; [discriminate IH|].
    cbn [length] in *. rewrite IH. reflexivity.
Qed.

(** X6. A slice-of-strings field is assigned one element more than the
    raw value has commas: never the empty list, and an empty piece
    (as after a trailing comma) is an element. *)
Theorem string_list_length (field : fieldInfo) (value : string)
    (st : Store) :
  reflect.KindOf (Type_ field) = reflect.Slice →
  reflect.KindOf (reflect.Elem (Type_ field)) = reflect.String →
  ∃ l, setFieldValue field value st = Ok (<[Value field := VStrings l]> st)
       ∧ length l = S (countByte value ",").
Proof.
  intros Hk He. exists (map strings.TrimSpace (strings.Split value ",")).
  split.
  - unfold setFieldValue. rewrite Hk.
    destruct (decide _); [reflexivity | congruence].
  - rewrite length_map. apply Split_length.
Qed.

End ResolveMore.

(** ** Handlers and registration *)

Section RegistryFacts.
Context `{GoLib}.

(** X7. A handler that accepts a value records it verbatim under its
    primary flag name and changes nothing else; the string and slice
    handlers accept every value; a value the int (float) handler accepts
    coerces without error into a field of kind int (float32, float64),
    and a value it rejects is reported as invalid, with nothing
    recorded. *)
Theorem handler_accepts_what_coerces (h : flag.handler) (s : string)
    (p : Parser) :
  (∀ p', runHandler h s p = Ok p' →
     p' = with_flagValues p (<[target h := s]> (flagValues p)))
  ∧ (∀ n, h = flag.StringHandler n ∨ h = flag.SliceHandler n →
          ∃ p', runHandler h s p = Ok p')
  ∧ (∀ n field st,
       h = flag.IntHandler n → reflect.KindOf (Type_ field) = reflect.Int →
       (∃ p', runHandler h s p = Ok p')
       ↔ ∃ st', setFieldValue field s st = Ok st')
  ∧ (∀ n field st,
       h = flag.FloatHandler n →
       reflect.KindOf (Type_ field) = reflect.Float32
       ∨ reflect.KindOf (Type_ field) = reflect.Float64 →
       (∃ p', runHandler h s p = Ok p')
       ↔ ∃ st', setFieldValue field s st = Ok st')
  ∧ (∀ n e, h = flag.IntHandler n → runHandler h s p = Err e →
            e = "invalid integer value: " ++ s)
  ∧ (∀ n e, h = flag.FloatHandler n → runHandler h s p = Err e →
            e = "invalid float value: " ++ s).
Proof.
  split; [|split; [|split; [|split; [|split]]]].
  - intros p'. destruct h as [n | n | n | n]; cbn [runHandler target].
    + intros [= <-]. reflexivity.
    + destruct (strconv.Atoi s); [|discriminate]. intros [= <-]. reflexivity.
    + destruct (ParseFloat s 64); [|discriminate]. intros [= <-]. reflexivity.
    + intros [= <-]. reflexivity.
  - intros n [-> | ->]; eexists; reflexivity.
  - intros n field st -> Hk. unfold setFieldValue. rewrite Hk.
    cbn [runHandler]. destruct (strconv.Atoi s) as [i|e].
    + split; intros _; eexists; reflexivity.
    + split; intros [x Hx]; discriminate.
  - intros n field st -> Hk. unfold setFieldValue. cbn [runHandler].
    destruct Hk as [Hk | Hk]; rewrite Hk;
      (destruct (ParseFloat s 64) as [f|e];
       [split; intros _; eexists; reflexivity
       | split; intros [x Hx]; discriminate]).
  - intros n e ->. cbn [runHandler].
    destruct (strconv.Atoi s); [discriminate|]. intros [= <-]. reflexivity.
  - intros n e ->. cbn [runHandler].
    destruct (ParseFloat s 64); [discriminate|]. intros [= <-]. reflexivity.
Qed.

Lemma sameButFlags_refl p : sameButFlags p p.
Proof. repeat split. Qed.

Lemma sameButFlags_trans p q r :
  sameButFlags p q → sameButFlags q r → sameButFlags p r.
Proof.
  unfold sameButFlags. intros (A1 & A2 & A3 & A4 & A5 & A6 & A7)
    (B1 & B2 & B3 & B4 & B5 & B6 & B7).
  repeat split; congruence.
Qed.

Lemma Var_ok f value name f' :
  Var f value name = Ok f' →
  flag.formal f !! name = None
  ∧ f' = flag.mkFlagSet (<[name := value]> (flag.formal f)) (flag.actual f).
Proof.
  unfold Var. destruct (strings.HasPrefix name "-"); [discriminate|].
  destruct (containsByte name "="); [discriminate|].
  destruct (flag.formal f !! name) as [v|]; [discriminate|].
  intros [= <-]. auto.
Qed.

(** One registration: what was defined stays defined, the name is
    defined afterwards if the kind is one of the switch. *)
Lemma registerFlag_ok p field name p' :
  registerFlag p field name = Ok p' →
  sameButFlags p p'
  ∧ (∀ n v, flag.formal (flagSet p) !! n = Some v →
            flag.formal (flagSet p') !! n = Some v)
  ∧ (reflect.KindOf (Type_ field)
     ∈ [reflect.String; reflect.Int; reflect.Float32; reflect.Float64;
        reflect.Bool; reflect.Slice] →
     flag.formal (flagSet p) !! name = None
     ∧ is_Some (flag.formal (flagSet p') !! name)).
Proof.
  unfold registerFlag.
  assert (Hvar : ∀ value q,
    match Var (flagSet p) value name with
    | Ok f => Ok (q f)
    | Err e => Err e
    end = Ok p' →
    ∃ f, p' = q f ∧ flag.formal (flagSet p) !! name = None
         ∧ f = flag.mkFlagSet (<[name := value]> (flag.formal (flagSet p)))
                 (flag.actual (flagSet p))).
  { intros value q. destruct (Var (flagSet p) value name) as [f|e] eqn:Hv;
      [|discriminate].
    intros [= <-]. exists f. split; [reflexivity|]. apply Var_ok. exact Hv. }
  assert (Hins : ∀ value n v,
    flag.formal (flagSet p) !! name = None →
    flag.formal (flagSet p) !! n = Some v →
    <[name := value]> (flag.formal (flagSet p)) !! n = Some v).
  { intros value n v Hnone Hn. rewrite lookup_insert_ne; [exact Hn|].
    intros ->. congruence. }
  destruct (reflect.KindOf (Type_ field)) eqn:Hk;
    try (intros [= <-]; split; [apply sameButFlags_refl|];
         split; [auto|]; intros Hin;
         repeat (apply elem_of_cons in Hin as [Hin | Hin]; [discriminate|]);
         inversion Hin);
    try (intros Hr;
         apply (Hvar _ (λ f, with_flagSet p f)) in Hr as (f & -> & Hnone & ->);
         split; [repeat split|];
         split; [intros n v; apply Hins; exact Hnone|];
         intros _; split; [exact Hnone|];
         cbn; rewrite lookup_insert_eq; eauto).
  intros Hr.
  apply (Hvar _ (λ f, with_boolFlags (with_flagSet p f)
                        (<[name := false]> (boolFlags p))))
    in Hr as (f & -> & Hnone & ->).
  split; [repeat split|].
  split; [intros n v; apply Hins; exact Hnone|].
  intros _. split; [exact Hnone|]. cbn. rewrite lookup_insert_eq. eauto.
Qed.

Lemma registerNames_ok p field names p' :
  registerNames p field names = Ok p' →
  sameButFlags p p'
  ∧ (∀ n v, flag.formal (flagSet p) !! n = Some v →
            flag.formal (flagSet p') !! n = Some v)
  ∧ (reflect.KindOf (Type_ field)
     ∈ [reflect.String; reflect.Int; reflect.Float32; reflect.Float64;
        reflect.Bool; reflect.Slice] →
     ∀ n, n ∈ names →
          flag.formal (flagSet p) !! n = None
          ∧ is_Some (flag.formal (flagSet p') !! n)).
Proof.
  revert p. induction names as [|name rest IH]; intros p; cbn [registerNames].
  - intros [= <-]. split; [apply sameButFlags_refl|]. split; [auto|].
    intros _ n Hn. inversion Hn.
  - destruct (registerFlag p field name) as [p1|e] eqn:H1; [|discriminate].
    intros Hrest. destruct (registerFlag_ok _ _ _ _ H1) as (S1 & M1 & D1).
    destruct (IH _ Hrest) as (S2 & M2 & D2).
    split; [eapply sameButFlags_trans; eassumption|].
    split; [auto|].
    intros Hk n Hn. destruct (D1 Hk) as (Hnone & Hsome).
    apply elem_of_cons in Hn as [-> | Hn].
    + split; [exact Hnone|]. destruct Hsome as (v & Hv). eauto.
    + destruct (D2 Hk n Hn) as (Hnone2 & Hsome2). split; [|exact Hsome2].
      destruct (flag.formal (flagSet p) !! n) as [v|] eqn:Hv; [|reflexivity].
      rewrite (M1 _ _ Hv) in Hnone2. discriminate.
Qed.

Lemma registerFields_ok p fs p' :
  registerFields p fs = Ok p' →
  sameButFlags p p'
  ∧ (∀ n v, flag.formal (flagSet p) !! n = Some v →
            flag.formal (flagSet p') !! n = Some v)
  ∧ (∀ f n, f ∈ fs → registrable f → n ∈ CliNames f →
            flag.formal (flagSet p) !! n = None
            ∧ is_Some (flag.formal (flagSet p') !! n)).
Proof.
  revert p. induction fs as [|field rest IH]; intros p; cbn [registerFields].
  - intros [= <-]. split; [apply sameButFlags_refl|]. split; [auto|].
    intros f n Hf. inversion Hf.
  - destruct ((length (CliNames field) =? 0)%nat
              || (CliName field =? "")%string) eqn:Hskip.
    + intros Hrest. destruct (IH _ Hrest) as (S2 & M2 & D2).
      split; [exact S2 | split; [exact M2|]].
      intros f n Hf Hreg Hn. apply elem_of_cons in Hf as [-> | Hf];
        [|exact (D2 f n Hf Hreg Hn)].
      exfalso. destruct Hreg as (Hnames & Hname & _).
      apply orb_true_iff in Hskip as [Hl | Hc].
      * apply Nat.eqb_eq in Hl. destruct (CliNames field);
          [congruence | discriminate].
      * apply String.eqb_eq in Hc. congruence.
    + destruct (registerNames p field (CliNames field)) as [p1|e] eqn:H1;
        [|discriminate].
      intros Hrest. destruct (registerNames_ok _ _ _ _ H1) as (S1 & M1 & D1).
      destruct (IH _ Hrest) as (S2 & M2 & D2).
      split; [eapply sameButFlags_trans; eassumption|].
      split; [auto|].
      intros f n Hf Hreg Hn. apply elem_of_cons in Hf as [-> | Hf].
      * destruct Hreg as (_ & _ & Hk). destruct (D1 Hk n Hn) as (Hnone & (v & Hv)).
        split; [exact Hnone | eauto].
      * destruct (D2 f n Hf Hreg Hn) as (Hnone2 & Hsome2).
        split; [|exact Hsome2].
        destruct (flag.formal (flagSet p) !! n) as [v|] eqn:Hv; [|reflexivity].
        rewrite (M1 _ _ Hv) in Hnone2. discriminate.
Qed.

(** X8. When [registerFlags] returns, the descriptor list, the recorded
    values and the options are as before; every flag that was defined
    (the help switches of [NewParser] among them) is still defined with
    the same value, and every flag name of every descriptor it registers
    was free before and is defined now. *)
Theorem registration_defines_every_alias (p p' : Parser) :
  registerFlags p = Ok p' →
  sameButFlags p p'
  ∧ (∀ n v, flag.formal (flagSet p) !! n = Some v →
            flag.formal (flagSet p') !! n = Some v)
  ∧ (∀ f n, f ∈ fields p → registrable f → n ∈ CliNames f →
            flag.formal (flagSet p) !! n = None
            ∧ is_Some (flag.formal (flagSet p') !! n)).
Proof. apply registerFields_ok. Qed.

Lemma registerFields_app p a b :
  registerFields p (a ++ b)
  = match registerFields p a with
    | Ok p1 => registerFields p1 b
    | Err e => Err e
    end.
Proof.
  revert p. induction a as [|f a IH]; intros p; [reflexivity|].
  cbn [app registerFields].
  destruct ((length (CliNames f) =? 0)%nat || (CliName f =? "")%string);
    [apply IH|].
  destruct (registerNames p f (CliNames f)); [apply IH | reflexivity].
Qed.

(** X9. [registerFlags] panics when a descriptor it registers lists a
    flag name that is already defined (as [help] and [h] are from
    [NewParser] on), and when two descriptors it registers list the same
    flag name. *)
Theorem duplicate_flag_name_panics (p : Parser) :
  (∀ f n, f ∈ fields p → registrable f → n ∈ CliNames f →
          is_Some (flag.formal (flagSet p) !! n) →
          ∃ msg, registerFlags p = Err msg)
  ∧ (∀ before f1 between f2 after n,
       fields p = (before ++ f1 :: between ++ f2 :: after)%list →
       registrable f1 → registrable f2 →
       n ∈ CliNames f1 → n ∈ CliNames f2 →
       ∃ msg, registerFlags p = Err msg).
Proof.
  assert (Htaken : ∀ q fs f n,
    f ∈ fs → registrable f → n ∈ CliNames f →
    is_Some (flag.formal (flagSet q) !! n) →
    ∃ msg, registerFields q fs = Err msg).
  { intros q fs f n Hf Hreg Hn (v & Hv).
    destruct (registerFields q fs) as [q'|msg] eqn:Hr; [|eauto].
    destruct (registerFields_ok _ _ _ Hr) as (_ & _ & D).
    destruct (D f n Hf Hreg Hn) as (Hnone & _). congruence. }
  split.
  - intros f n. apply Htaken.
  - intros before f1 between f2 after n Hfs R1 R2 N1 N2.
    unfold registerFlags. rewrite Hfs.
    change (before ++ f1 :: between ++ f2 :: after)%list
      with (before ++ [f1] ++ (between ++ f2 :: after))%list.
    rewrite app_assoc, registerFields_app.
    destruct (registerFields p (before ++ [f1])) as [p1|msg] eqn:H1; [|eauto].
    destruct (registerFields_ok _ _ _ H1) as (_ & _ & D).
    destruct (D f1 n) as (_ & Hsome);
      [apply elem_of_app; right; left | exact R1 | exact N1 |].
    apply (Htaken p1 _ f2 n); [|exact R2 | exact N2 | exact Hsome].
    apply elem_of_app. right. left.
Qed.

End RegistryFacts.

(** ** The help listing *)

Section HelpFacts.
Context `{GoLib}.

Lemma maxWidthLoop_reaches fs m bound :
  bound ≤ maxWidthLoop fs m
  ↔ bound ≤ m
    ∨ ∃ f, f ∈ fs ∧ noCliFlags f = false ∧ bound ≤ flagLenOf f.
Proof.
  revert m. induction fs as [|g rest IH]; intros m; cbn [maxWidthLoop].
  - split; [auto|]. intros [Hm | (f & Hf & _)]; [exact Hm | inversion Hf].
  - destruct (noCliFlags g) eqn:Hg.
    + rewrite IH. split.
      * intros [Hm | (f & Hf & Hn & Hb)]; [auto|].
        right. exists f. split; [right; exact Hf | auto].
      * intros [Hm | (f & Hf & Hn & Hb)]; [auto|].
        apply elem_of_cons in Hf as [-> | Hf]; [congruence|].
        right. exists f. auto.
    + rewrite IH. split.
      * intros [Hm | (f & Hf & Hn & Hb)].
        { destruct (flagLenOf g >? m) eqn:Hgt; [|auto].
          right. exists g. split; [left | auto]. }
        { right. exists f. split; [right; exact Hf | auto]. }
      * intros [Hm | (f & Hf & Hn & Hb)].
        { left. destruct (flagLenOf g >? m) eqn:Hgt; lia. }
        apply elem_of_cons in Hf as [-> | Hf].
        { left. destruct (flagLenOf g >? m) eqn:Hgt; lia. }
        { right. exists f. auto. }
Qed.

(** X10. [PrintHelp] panics, after it has written the lines of the
    descriptors, unless some descriptor with flags has a flag signature
    of six bytes or more: with no such descriptor (no flags at all, or
    only short boolean switches) the count of [strings.Repeat] for the
    help line is negative. *)
Theorem PrintHelp_panics_iff_short (p : Parser) (prog : string) :
  ((PrintHelp p prog).2 = None
   ↔ ∃ f, f ∈ fields p ∧ noCliFlags f = false ∧ 6 ≤ flagLenOf f)
  ∧ ((PrintHelp p prog).2 ≠ None →
     (PrintHelp p prog)
     = (helpHeader prog
          ++ printFields (fields p) (maxWidthLoop (fields p) 0 + 4),
        Some "strings: negative Repeat count")).
Proof.
  assert (Hiff : 6 ≤ maxWidthLoop (fields p) 0
                 ↔ ∃ f, f ∈ fields p ∧ noCliFlags f = false
                        ∧ 6 ≤ flagLenOf f).
  { rewrite maxWidthLoop_reaches. split; [|auto].
    intros [Hm | Hf]; [lia | exact Hf]. }
  unfold PrintHelp, RepeatSpace.
  destruct (maxWidthLoop (fields p) 0 + 4 - 10 <? 0) eqn:Hneg; cbn [snd].
  - split.
    + split; [discriminate|]. intros Hf. apply Hiff in Hf. lia.
    + intros _. reflexivity.
  - split.
    + split; [|reflexivity]. intros _. apply Hiff. lia.
    + intros Hc. congruence.
Qed.

Lemma Join_foldr x l sep :
  strings.Join (x :: l) sep = (x ++ foldr (λ y acc, sep ++ y ++ acc) "" l)%string.
Proof.
  revert x. induction l as [|y l IH]; intros x.
  - cbn. rewrite string_app_nil_r. reflexivity.
  - change (strings.Join (x :: y :: l) sep)
      with (x ++ sep ++ strings.Join (y :: l) sep)%string.
    rewrite IH. reflexivity.
Qed.

Lemma dashed_length name :
  Z.of_nat (String.length (dashed name))
  = if (String.length name =? 1)%nat
    then 1 + Z.of_nat (String.length name)
    else 2 + Z.of_nat (String.length name).
Proof.
  unfold dashed. destruct (String.length name =? 1)%nat;
    rewrite string_length_app; cbn [String.length]; lia.
Qed.

Lemma namesLen_later names i acc :
  namesLen names (S i) acc
  = acc + Z.of_nat (String.length
                      (foldr (λ y a, ", " ++ y ++ a) "" (map dashed names))).
Proof.
  revert i acc. induction names as [|name rest IH]; intros i acc.
  - cbn. lia.
  - cbn [namesLen map foldr]. rewrite IH.
    change (0 <? S i)%nat with true. cbv iota.
    rewrite !string_length_app. cbn [String.length].
    pose proof (dashed_length name) as Hd.
    destruct (String.length name =? 1)%nat; lia.
Qed.

Lemma flagLenOf_length (field : fieldInfo) :
  CliNames field ≠ [] →
  flagLenOf field = Z.of_nat (String.length (flagSignature field)).
Proof.
  intros Hne. unfold flagLenOf, flagSignature.
  assert (Hn : namesLen (CliNames field) 0 0
               = Z.of_nat (String.length
                   (strings.Join (map dashed (CliNames field)) ", "))).
  { destruct (CliNames field) as [|name rest]; [congruence|].
    cbn [map]. rewrite Join_foldr. cbn [namesLen].
    change (0 <? 0)%nat with false. cbv iota. rewrite namesLen_later.
    rewrite string_length_app. pose proof (dashed_length name) as Hd.
    destruct (String.length name =? 1)%nat; lia. }
  fold dashed. change (λ name : string, if (String.length name =? 1)%nat
                          then "-" ++ name else "--" ++ name) with dashed.
  rewrite Hn. destruct (negb _); [|reflexivity].
  rewrite string_length_app. cbn [String.length]. lia.
Qed.

(** X11. The width [PrintHelp] computes for a descriptor is the number
    of bytes of the flag signature [printFieldHelp] prints for it. *)
Theorem width_is_signature_length (field : fieldInfo) :
  CliNames field ≠ [] →
  flagLenOf field = Z.of_nat (String.length (flagSignature field)).
Proof. apply flagLenOf_length. Qed.

Lemma RuneCount_ascii s :
  isAscii s = true → utf8.RuneCountInString s = String.length s.
Proof.
  induction s as [|c r IH]; [reflexivity|].
  cbn [isAscii utf8.RuneCountInString String.length].
  intros Hc. apply andb_true_iff in Hc as [Hc Hr].
  apply N.ltb_lt in Hc. unfold utf8.first.
  destruct (N.ltb_spec (N_of_ascii c) 194) as [_ | Hge]; [|lia].
  rewrite (IH Hr). reflexivity.
Qed.

Lemma spacesOf_length n : String.length (spacesOf n) = n.
Proof. induction n as [|n IH]; [reflexivity|]. cbn. rewrite IH. reflexivity. Qed.

(** X12. In the listing every flag signature made of ASCII bytes is
    padded to the same width, four more than the longest signature: all
    descriptions start in the same column, at least five bytes after
    the signature. *)
Theorem help_columns_align (p : Parser) (field : fieldInfo) :
  field ∈ fields p → noCliFlags field = false →
  isAscii (flagSignature field) = true →
  let maxWidth := maxWidthLoop (fields p) 0 + 4 in
  Z.of_nat (String.length (padRight maxWidth (flagSignature field)))
  = maxWidth
  ∧ Z.of_nat (String.length (flagSignature field)) + 4 ≤ maxWidth.
Proof.
  intros Hin Hcli Hascii maxWidth.
  assert (Hne : CliNames field ≠ []).
  { unfold noCliFlags in Hcli. apply orb_false_iff in Hcli as [Hl _].
    destruct (CliNames field); [discriminate | discriminate]. }
  assert (Hle : flagLenOf field ≤ maxWidthLoop (fields p) 0).
  { apply maxWidthLoop_reaches. right. exists field.
    split; [exact Hin | split; [exact Hcli | lia]]. }
  rewrite (flagLenOf_length field Hne) in Hle.
  unfold padRight. rewrite (RuneCount_ascii _ Hascii).
  rewrite string_length_app, spacesOf_length. subst maxWidth. lia.
Qed.

Lemma runHandler_fields h v p p' :
  runHandler h v p = Ok p' → fields p' = fields p.
Proof.
  destruct h; cbn [runHandler];
    repeat match goal with
      | |- context [match ?x with _ => _ end] => destruct x
      end;
    try discriminate; intros [= <-]; reflexivity.
Qed.

Lemma setBool_fields p t s : fields (setBool p t s).1 = fields p.
Proof.
  unfold setBool. destruct (strconv.ParseBool s); destruct t; reflexivity.
Qed.

(** Parsing the command line leaves the descriptor list as it is. *)
Lemma flagParse_fields args p : fields (flagParse p args).1 = fields p.
Proof.
  assert (Hn : ∀ n args, (length args ≤ n)%nat →
                 ∀ p, fields (flagParse p args).1 = fields p).
  { clear. intros n. induction n as [|n IH]; intros args Hlen p.
    - destruct args; [reflexivity | simpl in Hlen; lia].
    - destruct args as [|s rest]; [reflexivity|]. cbn [length] in Hlen.
      cbn [flagParse]. destruct (classify s) as [| | |name hv value];
        try reflexivity.
      destruct (flag.formal (flagSet p) !! name) as [[h| |n0]|] eqn:Hf.
      + destruct hv.
        * destruct (runHandler h value p) as [p'|e] eqn:Hr; [|reflexivity].
          rewrite IH by lia. cbn. apply (runHandler_fields _ _ _ _ Hr).
        * destruct rest as [|value' rest']; [reflexivity|].
          destruct (runHandler h value' p) as [p'|e] eqn:Hr; [|reflexivity].
          cbn [length] in Hlen. rewrite IH by lia. cbn.
          apply (runHandler_fields _ _ _ _ Hr).
      + pose proof (setBool_fields p flag.showHelpValue
                      (if hv then value else "true")) as Hs.
        destruct (setBool p flag.showHelpValue (if hv then value else "true"))
          as [p' ok]. cbn [fst] in Hs.
        destruct ok; [rewrite IH by lia; cbn; exact Hs|].
        destruct hv; cbn; exact Hs.
      + pose proof (setBool_fields p (flag.boolValue n0)
                      (if hv then value else "true")) as Hs.
        destruct (setBool p (flag.boolValue n0) (if hv then value else "true"))
          as [p' ok]. cbn [fst] in Hs.
        destruct ok; [rewrite IH by lia; cbn; exact Hs|].
        destruct hv; cbn; exact Hs.
      + destruct ((name =? "help")%string || (name =? "h")%string);
          reflexivity. }
  apply (Hn (length args)). lia.
Qed.

Lemma PrintHelp_fields p q prog :
  fields p = fields q → PrintHelp p prog = PrintHelp q prog.
Proof. unfold PrintHelp. intros ->. reflexivity. Qed.

(** X13. [Parse] prints the help listing before it returns an error of
    the flag set and before it exits on a help switch. If [PrintHelp]
    does not panic for the descriptors of the record, the call ends as
    [Parse] without its output does; if it panics, a call that reaches
    it panics with its message instead of returning or exiting. *)
Theorem help_panic_reaches_the_caller (p : Parser) (typ : reflect.Type_)
    (st : Store) (args : list string) (env : gmap string string)
    (prog : string) :
  ((PrintHelp (walkStruct p typ "") prog).2 = None →
   (ParseWithOutput p typ st args env prog).2 = Parse p typ st args env)
  ∧ (∀ msg q parsed err,
       (PrintHelp (walkStruct p typ "") prog).2 = Some msg →
       registerFlags (walkStruct p typ "") = Ok q →
       flagParse q args = (parsed, err) →
       err ≠ None ∨ showHelp parsed = true →
       (ParseWithOutput p typ st args env prog).2 = Panicked msg).
Proof.
  assert (Hsame : ∀ q parsed err,
    registerFlags (walkStruct p typ "") = Ok q →
    flagParse q args = (parsed, err) →
    PrintHelp parsed prog = PrintHelp (walkStruct p typ "") prog).
  { intros q parsed err Hreg Hparse. apply PrintHelp_fields.
    pose proof (flagParse_fields args q) as Hf. rewrite Hparse in Hf.
    cbn [fst] in Hf. rewrite Hf.
    apply (registerFields_ok _ _ _ Hreg). }
  split.
  - intros Hok. unfold ParseWithOutput, Parse.
    destruct (registerFlags (walkStruct p typ "")) as [q|msg] eqn:Hreg;
      [|reflexivity].
    destruct (flagParse q args) as [parsed [err|]] eqn:Hparse.
    + rewrite (Hsame _ _ _ eq_refl Hparse).
      destruct (PrintHelp (walkStruct p typ "") prog) as [out [m|]];
        [discriminate | reflexivity].
    + destruct (showHelp parsed).
      * rewrite (Hsame _ _ _ eq_refl Hparse).
        destruct (PrintHelp (walkStruct p typ "") prog) as [out [m|]];
          [discriminate | reflexivity].
      * destruct (applyValues (Visit parsed) env st). reflexivity.
  - intros msg q parsed err Hpanic Hreg Hparse Hreach.
    unfold ParseWithOutput. rewrite Hreg, Hparse.
    rewrite (Hsame _ _ _ Hreg Hparse).
    destruct (PrintHelp (walkStruct p typ "") prog) as [out [m|]];
      [|discriminate].
    cbn [snd] in Hpanic. inversion Hpanic; subst.
    destruct err as [e|]; [reflexivity|].
    destruct Hreach as [Hc | Hs]; [congruence|]. rewrite Hs. reflexivity.
Qed.

(** X14. A call of [Parse] on a parser of [NewParser] whose only
    argument is a help switch prints the help listing and exits with
    status 0, or panics if the listing does; it neither reads the
    environment nor writes the record nor reports required fields. *)
Theorem help_switch_prints_and_exits (opts : list Option_)
    (typ : reflect.Type_) (st : Store) (env : gmap string string)
    (prog tok : string) (q : Parser) :
  tok ∈ helpSwitches →
  registerFlags (walkStruct (NewParser opts) typ "") = Ok q →
  ParseWithOutput (NewParser opts) typ st [tok] env prog
  = match PrintHelp (walkStruct (NewParser opts) typ "") prog with
    | (out, None) => (out, Exited 0)
    | (out, Some msg) => (out, Panicked msg)
    end.
Proof.
  intros Htok Hreg. unfold ParseWithOutput. rewrite Hreg.
  destruct (registerFields_ok _ _ _ Hreg) as ((Hf & _) & M & _).
  assert (Hh : flag.formal (flagSet q) !! "h" = Some flag.showHelpValue).
  { apply M. destruct (walkStruct_appends typ (NewParser opts) "")
      as (l & -> & _). cbn. apply lookup_insert_eq. }
  assert (Hhelp : flag.formal (flagSet q) !! "help" = Some flag.showHelpValue).
  { apply M. destruct (walkStruct_appends typ (NewParser opts) "")
      as (l & -> & _). cbn. rewrite lookup_insert_ne by discriminate.
    apply lookup_insert_eq. }
  assert (Hrun : ∀ name,
    flag.formal (flagSet q) !! name = Some flag.showHelpValue →
    classify tok = FlagTok name false "" →
    flagParse q [tok] = (markActual (with_showHelp q true) name, None)).
  { intros name Hn Hc. cbn [flagParse]. rewrite Hc, Hn. reflexivity. }
  assert (Hout : ∀ name,
    PrintHelp (markActual (with_showHelp q true) name) prog
    = PrintHelp (walkStruct (NewParser opts) typ "") prog).
  { intros name. apply PrintHelp_fields. exact Hf. }
  unfold helpSwitches in Htok.
  repeat (apply elem_of_cons in Htok as [-> | Htok]);
    [rewrite (Hrun "h" Hh eq_refl) | rewrite (Hrun "h" Hh eq_refl)
     | rewrite (Hrun "help" Hhelp eq_refl)
     | rewrite (Hrun "help" Hhelp eq_refl) | inversion Htok];
    cbn [showHelp markActual with_showHelp with_flagSet]; rewrite Hout;
    destruct (PrintHelp (walkStruct (NewParser opts) typ "") prog)
      as [out [msg|]]; reflexivity.
Qed.

End HelpFacts.

(** ** Switches with several names *)

Section SwitchOrder.
Context `{GoLib}.

Lemma visitAll_frame names p :
  fields (foldl visitFlag p names) = fields p
  ∧ boolFlags (foldl visitFlag p names) = boolFlags p.
Proof.
  revert p. induction names as [|m rest IH]; intros p; [auto|].
  cbn [foldl]. destruct (IH (visitFlag p m)) as (A & B).
  destruct (visitFlag_frame p m) as (C & D & _). rewrite A, B. auto.
Qed.

(** The last visited switch that is recorded under [key] decides. *)
Lemma visitAll_last before n after p key b :
  boolFlags p !! n = Some b → recordedUnder (fields p) key n →
  (∀ m, m ∈ after → is_Some (boolFlags p !! m) →
        ¬ recordedUnder (fields p) key m) →
  flagValues (foldl visitFlag p (before ++ n :: after)) !! key
  = Some (strconv.FormatBool b).
Proof.
  intros Hb Hr Hlater. rewrite foldl_app. cbn [foldl].
  destruct (visitAll_frame before p) as (Hf & Hbf).
  destruct (visitFlag_frame (foldl visitFlag p before) n) as (Hf2 & Hbf2 & _).
  rewrite visitAll_miss.
  - apply visitFlag_hit; [rewrite Hbf; exact Hb | rewrite Hf; exact Hr].
  - intros m Hm. rewrite Hf2, Hbf2, Hf, Hbf. apply Hlater. exact Hm.
Qed.

(** X15. When several switches recorded under one primary name were set
    on the command line, [Visit] leaves the value of the one whose name
    is last in byte order, whatever their order on the command line. *)
Theorem last_switch_in_name_order_decides (p : Parser) (key n : string)
    (b : bool) :
  n ∈ flag.actual (flagSet p) → boolFlags p !! n = Some b →
  recordedUnder (fields p) key n →
  (∀ m, m ∈ flag.actual (flagSet p) → is_Some (boolFlags p !! m) →
        recordedUnder (fields p) key m → String.le m n) →
  flagValues (Visit p) !! key = Some (strconv.FormatBool b).
Proof.
  intros Hact Hb Hr Hmax. unfold Visit.
  pose proof (proj2 (visited_names p n) Hact) as Hin.
  apply list_elem_of_split in Hin as (before & after & Heq).
  assert (Hsorted : StronglySorted String.le
            (merge_sort String.le (elements (flag.actual (flagSet p))))).
  { apply StronglySorted_merge_sort; apply _. }
  assert (Hnodup : NoDup
            (merge_sort String.le (elements (flag.actual (flagSet p))))).
  { rewrite merge_sort_Permutation. apply NoDup_elements. }
  assert (Hmem : ∀ m, m ∈ after → m ∈ flag.actual (flagSet p)).
  { intros m Hm. apply visited_names. rewrite Heq.
    apply elem_of_app. right. right. exact Hm. }
  rewrite Heq in Hsorted, Hnodup |- *.
  apply StronglySorted_app_1_r in Hsorted.
  apply StronglySorted_inv in Hsorted as (_ & Hle).
  apply NoDup_app in Hnodup as (_ & _ & Hnodup).
  apply NoDup_cons in Hnodup as (Hnotin & _).
  apply visitAll_last; [exact Hb | exact Hr |].
  intros m Hm Hsome Hrec.
  assert (m = n) as ->; [|contradiction].
  apply (anti_symm String.le).
  - apply Hmax; [apply Hmem; exact Hm | exact Hsome | exact Hrec].
  - rewrite Forall_forall in Hle. apply Hle. exact Hm.
Qed.

End SwitchOrder.

(** ** The options of [NewParser] *)

Lemma bool_decide_elem_cons (x o : Option_) rest :
  bool_decide (x ∈ o :: rest) = bool_decide (x = o) || bool_decide (x ∈ rest).
Proof.
  destruct (decide (x = o)) as [-> | Hne].
  - rewrite (bool_decide_eq_true_2 (o = o)) by reflexivity.
    rewrite bool_decide_eq_true_2 by left. reflexivity.
  - rewrite (bool_decide_eq_false_2 (x = o)) by exact Hne. cbn [orb].
    apply bool_decide_ext. rewrite elem_of_cons. tauto.
Qed.

Lemma foldl_options opts :
  ∀ p,
    let q := foldl applyOption p opts in
    disableAutoEnv q
    = disableAutoEnv p || bool_decide (WithDisableAutoEnv ∈ opts)
    ∧ disableAutoFlag q
      = disableAutoFlag p || bool_decide (WithDisableAutoFlag ∈ opts)
    ∧ envPrefix q = lastPrefix opts (envPrefix p)
    ∧ fields q = fields p ∧ flagSet q = flagSet p
    ∧ flagValues q = flagValues p ∧ showHelp q = showHelp p
    ∧ boolFlags q = boolFlags p.
Proof.
  induction opts as [|o rest IH]; intros p; cbv zeta.
  - cbn [foldl lastPrefix]. rewrite !bool_decide_eq_false_2, !orb_false_r;
      [repeat split | intros Hc; inversion Hc | intros Hc; inversion Hc].
  - cbn [foldl]. destruct (IH (applyOption p o))
      as (A & B & C & D & E & F & G & I).
    rewrite A, B, C, D, E, F, G, I, !bool_decide_elem_cons.
    destruct o as [| |prefix]; cbn [applyOption lastPrefix];
      cbn [disableAutoEnv disableAutoFlag envPrefix fields flagSet flagValues
           showHelp boolFlags with_disableAutoEnv with_disableAutoFlag
           with_envPrefix];
      rewrite ?(bool_decide_eq_true_2 (_ = _)) by reflexivity;
      rewrite ?(bool_decide_eq_false_2 (_ = _)) by discriminate;
      cbn [orb]; rewrite ?orb_true_r; repeat split.
Qed.

(** X16. [NewParser] turns automatic environment names (flag names) off
    exactly when [WithDisableAutoEnv] ([WithDisableAutoFlag]) is among
    the options, wherever it stands; of several [WithEnvPrefix] the last
    one sets the prefix. The new parser has no descriptors and no
    recorded values, and its flag set defines [h] and [help], both bound
    to the help variable, and nothing else. *)
Theorem options_take_effect (opts : list Option_) :
  (disableAutoEnv (NewParser opts) = true ↔ WithDisableAutoEnv ∈ opts)
  ∧ (disableAutoFlag (NewParser opts) = true ↔ WithDisableAutoFlag ∈ opts)
  ∧ envPrefix (NewParser opts) = lastPrefix opts ""
  ∧ fields (NewParser opts) = [] ∧ flagValues (NewParser opts) = ∅
  ∧ showHelp (NewParser opts) = false ∧ boolFlags (NewParser opts) = ∅
  ∧ flag.actual (flagSet (NewParser opts)) = ∅
  ∧ ∀ n, flag.formal (flagSet (NewParser opts)) !! n
         = if decide (n = "h" ∨ n = "help") then Some flag.showHelpValue
           else None.
Proof.
  unfold NewParser.
  destruct (foldl_options opts
              (mkParser [] (flag.mkFlagSet ∅ ∅) ∅ false ∅ false false ""))
    as (A & B & C & D & E & F & G & I).
  cbn [disableAutoEnv disableAutoFlag envPrefix fields flagSet flagValues
       showHelp boolFlags with_flagSet flag.formal flag.actual] in *.
  rewrite A, B, C, D, E, F, G, I. cbn [orb flag.formal flag.actual].
  split; [apply bool_decide_eq_true|].
  split; [apply bool_decide_eq_true|].
  repeat split. intros n.
  destruct (decide (n = "h" ∨ n = "help")) as [[-> | ->] | Hn].
  - apply lookup_insert_eq.
  - rewrite lookup_insert_ne by discriminate. apply lookup_insert_eq.
  - rewrite !lookup_insert_ne by (intros Heq; apply Hn; rewrite <- Heq; auto).
    apply lookup_empty.
Qed.

(** ** Values of the command line *)

Section CommandLine.
Context `{GoLib}.

Lemma registrable_value field name :
  registrable field → is_Some (flagValueOf field name).
Proof.
  intros (_ & _ & Hk). unfold flagValueOf.
  repeat (apply elem_of_cons in Hk as [-> | Hk]; [eauto|]).
  inversion Hk.
Qed.

(** One registration defines the name with the value of the descriptor
    and defines nothing else. *)
Lemma registerFlag_value p field name p' :
  registerFlag p field name = Ok p' →
  (∀ v, flagValueOf field name = Some v →
        flag.formal (flagSet p') !! name = Some v)
  ∧ (∀ n v, flag.formal (flagSet p') !! n = Some v →
            flag.formal (flagSet p) !! n = Some v
            ∨ n = name ∧ flagValueOf field name = Some v)
  ∧ (∀ n b, boolFlags p' !! n = Some b →
            boolFlags p !! n = Some b
            ∨ n = name ∧ flagValueOf field name = Some (flag.boolValue name)).
Proof.
  unfold registerFlag, flagValueOf.
  assert (Hins : ∀ (value : flag.FlagValue) n v,
    <[name := value]> (flag.formal (flagSet p)) !! n = Some v →
    flag.formal (flagSet p) !! n = Some v ∨ n = name ∧ Some value = Some v).
  { intros value n v. destruct (decide (name = n)) as [<- | Hne].
    - rewrite lookup_insert_eq. auto.
    - rewrite lookup_insert_ne by exact Hne. auto. }
  destruct (reflect.KindOf (Type_ field));
    try (intros [= <-]; split; [discriminate | split; auto]);
    (destruct (Var (flagSet p) _ name) as [f|e] eqn:Hv; [|discriminate];
     apply Var_ok in Hv as (_ & ->); intros [= <-]; cbn;
     split; [intros v [= <-]; apply lookup_insert_eq|];
     split; [intros n v; apply Hins|]).
  all: try (intros n b Hb; left; exact Hb).
  intros n b. destruct (decide (name = n)) as [<- | Hne].
  - intros _. right. auto.
  - rewrite lookup_insert_ne by exact Hne. auto.
Qed.

Lemma registerNames_value p field names p' :
  registerNames p field names = Ok p' →
  (∀ n v, n ∈ names → flagValueOf field n = Some v →
          flag.formal (flagSet p') !! n = Some v)
  ∧ (∀ n v, flag.formal (flagSet p') !! n = Some v →
            flag.formal (flagSet p) !! n = Some v
            ∨ n ∈ names ∧ flagValueOf field n = Some v)
  ∧ (∀ n b, boolFlags p' !! n = Some b →
            boolFlags p !! n = Some b
            ∨ n ∈ names ∧ flagValueOf field n = Some (flag.boolValue n)).
Proof.
  revert p. induction names as [|name rest IH]; intros p; cbn [registerNames].
  - intros [= <-]. split; [intros n v Hn; inversion Hn | auto].
  - destruct (registerFlag p field name) as [p1|e] eqn:H1; [|discriminate].
    intros Hrest. destruct (registerFlag_value _ _ _ _ H1) as (V1 & O1 & B1).
    destruct (registerNames_ok _ _ _ _ Hrest) as (_ & M2 & _).
    destruct (IH _ Hrest) as (V2 & O2 & B2).
    split; [|split].
    + intros n v Hn Hv. apply elem_of_cons in Hn as [-> | Hn].
      * apply M2, V1. exact Hv.
      * apply V2; assumption.
    + intros n v Hn. destruct (O2 _ _ Hn) as [Hn1 | [Hin Hv]].
      * destruct (O1 _ _ Hn1) as [Hn0 | [-> Hv]]; [auto|].
        right. split; [left | exact Hv].
      * right. split; [right; exact Hin | exact Hv].
    + intros n b Hn. destruct (B2 _ _ Hn) as [Hn1 | [Hin Hv]].
      * destruct (B1 _ _ Hn1) as [Hn0 | [-> Hv]]; [auto|].
        right. split; [left | exact Hv].
      * right. split; [right; exact Hin | exact Hv].
Qed.

(** What a successful registration has defined: every name of every
    descriptor it registers holds the value of that descriptor, and
    every other flag and bool variable was there before. *)
Lemma registerFields_value p fs p' :
  registerFields p fs = Ok p' →
  (∀ f n v, f ∈ fs → registrable f → n ∈ CliNames f →
            flagValueOf f n = Some v →
            flag.formal (flagSet p') !! n = Some v)
  ∧ (∀ n v, flag.formal (flagSet p') !! n = Some v →
            flag.formal (flagSet p) !! n = Some v
            ∨ ∃ f, f ∈ fs ∧ CliNames f ≠ [] ∧ CliName f ≠ ""
                   ∧ n ∈ CliNames f ∧ flagValueOf f n = Some v)
  ∧ (∀ n b, boolFlags p' !! n = Some b →
            boolFlags p !! n = Some b
            ∨ ∃ f, f ∈ fs ∧ CliNames f ≠ [] ∧ CliName f ≠ ""
                   ∧ n ∈ CliNames f
                   ∧ flagValueOf f n = Some (flag.boolValue n)).
Proof.
  revert p. induction fs as [|field rest IH]; intros p; cbn [registerFields].
  - intros [= <-]. split; [intros f n v Hf; inversion Hf | auto].
  - destruct ((length (CliNames field) =? 0)%nat
              || (CliName field =? "")%string) eqn:Hskip.
    + intros Hrest. destruct (IH _ Hrest) as (V2 & O2 & B2).
      split; [|split].
      * intros f n v Hf Hreg. apply elem_of_cons in Hf as [-> | Hf];
          [|apply V2; assumption].
        exfalso. destruct Hreg as (Hnames & Hname & _).
        apply orb_true_iff in Hskip as [Hl | Hc].
        { apply Nat.eqb_eq in Hl. destruct (CliNames field);
            [congruence | discriminate]. }
        { apply String.eqb_eq in Hc. congruence. }
      * intros n v Hn. destruct (O2 _ _ Hn) as [Hn0 | (f & Hf & Hrest')];
          [auto|]. right. exists f. split; [right; exact Hf | exact Hrest'].
      * intros n b Hn. destruct (B2 _ _ Hn) as [Hn0 | (f & Hf & Hrest')];
          [auto|]. right. exists f. split; [right; exact Hf | exact Hrest'].
    + apply orb_false_iff in Hskip as [Hl Hc].
      assert (Hnames : CliNames field ≠ []).
      { intros Heq. rewrite Heq in Hl. discriminate. }
      assert (Hname : CliName field ≠ "").
      { intros Heq. rewrite Heq in Hc. discriminate. }
      destruct (registerNames p field (CliNames field)) as [p1|e] eqn:H1;
        [|discriminate].
      intros Hrest. destruct (registerNames_value _ _ _ _ H1) as (V1 & O1 & B1).
      destruct (registerFields_ok _ _ _ Hrest) as (_ & M2 & _).
      destruct (IH _ Hrest) as (V2 & O2 & B2).
      split; [|split].
      * intros f n v Hf Hreg Hn Hv. apply elem_of_cons in Hf as [-> | Hf].
        { apply M2, V1; assumption. }
        { apply (V2 f); assumption. }
      * intros n v Hn. destruct (O2 _ _ Hn) as [Hn1 | (f & Hf & Hrest')].
        { destruct (O1 _ _ Hn1) as [Hn0 | [Hin Hv]]; [auto|].
          right. exists field. split; [left | auto]. }
        { right. exists f. split; [right; exact Hf | exact Hrest']. }
      * intros n b Hn. destruct (B2 _ _ Hn) as [Hn1 | (f & Hf & Hrest')].
        { destruct (B1 _ _ Hn1) as [Hn0 | [Hin Hv]]; [auto|].
          right. exists field. split; [left | auto]. }
        { right. exists f. split; [right; exact Hf | exact Hrest']. }
Qed.

Lemma parsedFrom_refl p : parsedFrom p p.
Proof. split; [reflexivity | split; auto]. Qed.

Lemma parsedFrom_trans p q r :
  parsedFrom p q → parsedFrom q r → parsedFrom p r.
Proof.
  intros (F1 & V1 & B1) (F2 & V2 & B2). split; [congruence | split].
  - intros key v Hv. destruct (V2 _ _ Hv) as [Hq | (name & h & Hf & Hrest)].
    + apply V1. exact Hq.
    + right. exists name, h. rewrite <- F1. auto.
  - intros n b Hb. destruct (B2 _ _ Hb) as [Hq | (name & Hf)].
    + apply B1. exact Hq.
    + right. exists name. rewrite <- F1. exact Hf.
Qed.

Lemma parsedFrom_markActual p name : parsedFrom p (markActual p name).
Proof. split; [reflexivity | split; auto]. Qed.

Lemma parsedFrom_runHandler p name h v p' :
  flag.formal (flagSet p) !! name = Some (flag.funcValue h) →
  runHandler h v p = Ok p' → parsedFrom p p'.
Proof.
  intros Hf Hr.
  assert (Hp' : p' = with_flagValues p (<[target h := v]> (flagValues p))).
  { destruct h; cbn [runHandler target] in *;
      repeat match type of Hr with
        | context [match ?x with _ => _ end] => destruct x
        end; try discriminate; injection Hr as <-; reflexivity. }
  split; [rewrite Hp'; reflexivity | split].
  - intros key val. rewrite Hp'. cbn.
    destruct (decide (target h = key)) as [<- | Hne].
    + rewrite lookup_insert_eq. intros [= <-]. right. exists name, h. eauto.
    + rewrite lookup_insert_ne by exact Hne. auto.
  - intros n b. rewrite Hp'. cbn. auto.
Qed.

Lemma parsedFrom_setBool p name t s :
  flag.formal (flagSet p) !! name = Some t → parsedFrom p (setBool p t s).1.
Proof.
  intros Hf. unfold setBool.
  destruct (strconv.ParseBool s) as [b|e]; destruct t as [h| |n]; cbn;
    try apply parsedFrom_refl;
    (split; [reflexivity | split; [auto|]]); cbn; try (intros; left; assumption);
    intros m b'; (destruct (decide (n = m)) as [<- | Hne];
      [intros _; right; exists name; exact Hf
      | rewrite lookup_insert_ne by exact Hne; auto]).
Qed.

Lemma flagParse_parsedFrom args p : parsedFrom p (flagParse p args).1.
Proof.
  assert (Hn : ∀ n args, (length args ≤ n)%nat →
                 ∀ p, parsedFrom p (flagParse p args).1).
  { clear. intros n. induction n as [|n IH]; intros args Hlen p.
    - destruct args; [apply parsedFrom_refl | simpl in Hlen; lia].
    - destruct args as [|s rest]; [apply parsedFrom_refl|].
      cbn [length] in Hlen. cbn [flagParse].
      destruct (classify s) as [| | |name hv value];
        try apply parsedFrom_refl.
      destruct (flag.formal (flagSet p) !! name) as [[h| |n0]|] eqn:Hf.
      + destruct hv.
        * destruct (runHandler h value p) as [p'|e] eqn:Hr;
            [|apply parsedFrom_refl].
          eapply parsedFrom_trans;
            [exact (parsedFrom_runHandler _ _ _ _ _ Hf Hr)|].
          eapply parsedFrom_trans; [apply (parsedFrom_markActual p' name)|].
          apply IH. lia.
        * destruct rest as [|value' rest']; [apply parsedFrom_refl|].
          destruct (runHandler h value' p) as [p'|e] eqn:Hr;
            [|apply parsedFrom_refl].
          cbn [length] in Hlen.
          eapply parsedFrom_trans;
            [exact (parsedFrom_runHandler _ _ _ _ _ Hf Hr)|].
          eapply parsedFrom_trans; [apply (parsedFrom_markActual p' name)|].
          apply IH. lia.
      + pose proof (parsedFrom_setBool p name flag.showHelpValue
                      (if hv then value else "true") Hf) as Hs.
        destruct (setBool p flag.showHelpValue (if hv then value else "true"))
          as [p' ok]. cbn [fst] in Hs.
        destruct ok; [|destruct hv; exact Hs].
        eapply parsedFrom_trans; [exact Hs|].
        eapply parsedFrom_trans; [apply (parsedFrom_markActual p' name)|].
        apply IH. lia.
      + pose proof (parsedFrom_setBool p name (flag.boolValue n0)
                      (if hv then value else "true") Hf) as Hs.
        destruct (setBool p (flag.boolValue n0) (if hv then value else "true"))
          as [p' ok]. cbn [fst] in Hs.
        destruct ok; [|destruct hv; exact Hs].
        eapply parsedFrom_trans; [exact Hs|].
        eapply parsedFrom_trans; [apply (parsedFrom_markActual p' name)|].
        apply IH. lia.
      + destruct ((name =? "help")%string || (name =? "h")%string);
          apply parsedFrom_refl. }
  apply (Hn (length args)). lia.
Qed.

(** A value [Visit] leaves under [key] was recorded before, or is the
    value of the bool variable of a visited switch recorded under [key]. *)
Lemma visitAll_values names p key v :
  flagValues (foldl visitFlag p names) !! key = Some v →
  flagValues p !! key = Some v
  ∨ ∃ name b, name ∈ names ∧ boolFlags p !! name = Some b
              ∧ recordedUnder (fields p) key name
              ∧ v = strconv.FormatBool b.
Proof.
  revert p. induction names as [|m rest IH]; intros p; [auto|].
  cbn [foldl]. intros Hv.
  destruct (visitFlag_frame p m) as (Hf & Hb & _).
  destruct (IH _ Hv) as [Hv1 | (name & b & Hin & Hbn & Hr & ->)].
  - destruct (boolFlags p !! m) as [b|] eqn:Hbm.
    + destruct (decide (recordedUnder (fields p) key m)) as [Hr | Hr].
      * rewrite (visitFlag_hit _ _ _ _ Hbm Hr) in Hv1. injection Hv1 as <-.
        right. exists m, b. split; [left | auto].
      * rewrite visitFlag_miss in Hv1; [auto | intros _; exact Hr].
    + rewrite visitFlag_miss in Hv1; [auto|]. rewrite Hbm.
      intros [? ?]. discriminate.
  - right. exists name, b. rewrite Hf, Hb in *.
    split; [right; exact Hin | auto].
Qed.

(** The primary flag name [parseFieldTags] gives a descriptor, if not
    empty, is among its flag names. *)
Lemma parseFieldTags_primary p sf path loc :
  CliName (parseFieldTags p sf path loc) ≠ "" →
  CliName (parseFieldTags p sf path loc)
  ∈ CliNames (parseFieldTags p sf path loc).
Proof.
  unfold parseFieldTags. cbv zeta.
  destruct (negb (reflect.Get (reflect.Tag sf) "flag" =? "")%string).
  - cbn [CliName CliNames].
    destruct (map strings.TrimSpace
                (strings.Split (reflect.Get (reflect.Tag sf) "flag") ","))
      as [|x l]; cbn [hd]; [congruence | left].
  - destruct (negb (disableAutoFlag p)); cbn [CliName CliNames];
      [left | congruence].
Qed.

(** The parser [Parse] registers flags on: nothing is recorded, no bool
    variable is allocated, the help switches are the only flags, and
    the primary flag name of a descriptor is among its names. *)
Lemma walk_initial opts typ :
  let p0 := walkStruct (NewParser opts) typ "" in
  flagValues p0 = ∅ ∧ boolFlags p0 = ∅
  ∧ (∀ n x, flag.formal (flagSet p0) !! n = Some x → x = flag.showHelpValue)
  ∧ (∀ f, f ∈ fields p0 → CliName f ≠ "" → CliName f ∈ CliNames f).
Proof.
  cbv zeta.
  destruct (foldl_options opts
              (mkParser [] (flag.mkFlagSet ∅ ∅) ∅ false ∅ false false ""))
    as (_ & _ & _ & N1 & N2 & N3 & _ & N4).
  destruct (walkStruct_appends typ (NewParser opts) "") as (l & -> & Hl).
  unfold NewParser in *.
  cbn [fields flagSet flagValues boolFlags with_fields with_flagSet
       flag.formal] in *.
  rewrite N1, N3, N4. rewrite N2. cbn [flag.formal app].
  split; [reflexivity | split; [reflexivity | split]].
  - intros n x. destruct (decide ("h" = n)) as [<- | Hh].
    + rewrite lookup_insert_eq. congruence.
    + rewrite lookup_insert_ne by exact Hh.
      destruct (decide ("help" = n)) as [<- | Hhelp].
      * rewrite lookup_insert_eq. congruence.
      * rewrite lookup_insert_ne by exact Hhelp.
        rewrite lookup_empty. discriminate.
  - intros f Hf. apply Hl in Hf as (sf & path & _ & -> & _).
    apply parseFieldTags_primary.
Qed.

Lemma ParseBool_FormatBool b :
  strconv.ParseBool (strconv.FormatBool b) = Ok b.
Proof. destruct b; reflexivity. Qed.

(** X17. Take a call of [Parse] on a parser of [NewParser] in which
    every descriptor with a primary flag name has a kind that
    [registerFlags] handles, and in which registration and flag parsing
    succeed. Then every value the command line has left for a
    descriptor coerces into its field: a coercion error of [Parse]
    never comes from the command line. *)
Theorem command_line_values_coerce (opts : list Option_)
    (typ : reflect.Type_) (args : list string) (q parsed : Parser)
    (field : fieldInfo) (v : string) (st : Store) :
  registerFlags (walkStruct (NewParser opts) typ "") = Ok q →
  flagParse q args = (parsed, None) →
  (∀ g, g ∈ fields q → CliName g ≠ "" → registrable g) →
  field ∈ fields q → CliName field ≠ "" →
  flagValues (Visit parsed) !! CliName field = Some v →
  ∃ st', setFieldValue field v st = Ok st'.
Proof.
  intros Hreg Hparse Hkinds Hfield Hname Hv.
  destruct (walk_initial opts typ) as (Hfv0 & Hb0 & Hhelp0 & Hprimary).
  revert Hreg Hfv0 Hb0 Hhelp0 Hprimary.
  generalize (walkStruct (NewParser opts) typ ""). intros p0 Hreg.
  intros Hfv0 Hb0 Hhelp0 Hprimary.
  destruct (registerFields_ok _ _ _ Hreg) as ((Hfs & Hfv & _) & _ & _).
  destruct (registerFields_value _ _ _ Hreg) as (Reg & Orig & BoolOrig).
  set (l := fields p0) in *.
  (* the flags defined before registration are the help switches *)
  assert (Horig : ∀ n x, flag.formal (flagSet q) !! n = Some x →
            x ≠ flag.showHelpValue →
            ∃ f, f ∈ l ∧ CliNames f ≠ [] ∧ CliName f ≠ ""
                 ∧ n ∈ CliNames f ∧ flagValueOf f n = Some x).
  { intros n x Hn Hx. destruct (Orig _ _ Hn) as [H0 | Hex]; [|exact Hex].
    exfalso. apply Hx. exact (Hhelp0 _ _ H0). }
  (* every descriptor with a primary name holds its flag under it *)
  assert (Hown : ∀ f n, f ∈ l → CliName f ≠ "" → n ∈ CliNames f →
            ∃ x, flagValueOf f n = Some x
                 ∧ flag.formal (flagSet q) !! n = Some x).
  { intros f n Hf Hc Hn.
    assert (Hr : registrable f) by (apply Hkinds; [rewrite Hfs|]; assumption).
    destruct (registrable_value f n Hr) as (x & Hx).
    exists x. split; [exact Hx|]. apply (Reg f); assumption. }
  rewrite Hfs in Hfield.
  destruct (Hown field (CliName field) Hfield Hname
              (Hprimary _ Hfield Hname)) as (x & Hx & Hqx).
  pose proof (flagParse_parsedFrom args q) as (PF & PV & PB).
  pose proof (flagParse_fields args q) as Hpf.
  rewrite Hparse in PF, PV, PB, Hpf. cbn [fst] in PF, PV, PB, Hpf.
  unfold Visit in Hv.
  apply visitAll_values in Hv as [Hv | (name & b & _ & Hb & Hr & ->)].
  - (* recorded by a handler *)
    destruct (PV _ _ Hv) as [Hq | (name & h & Hh & Ht & p1 & p2 & Hacc)].
    { rewrite Hfv, Hfv0, lookup_empty in Hq. discriminate. }
    destruct (Horig _ _ Hh) as (f & Hf & _ & Hfc & Hfn & Hfx); [discriminate|].
    assert (Hkey : CliName f = CliName field).
    { rewrite <- Ht. unfold flagValueOf in Hfx.
      destruct (reflect.KindOf (Type_ f)); try discriminate;
        injection Hfx as <-; reflexivity. }
    destruct (Hown f (CliName f) Hf Hfc (Hprimary _ Hf Hfc))
      as (y & Hy & Hqy).
    assert (Hyh : y = flag.funcValue h).
    { unfold flagValueOf in Hfx, Hy.
      destruct (reflect.KindOf (Type_ f)); congruence. }
    rewrite Hkey, Hqx in Hqy. injection Hqy as Hxy. rewrite Hxy, Hyh in Hx.
    unfold flagValueOf in Hx. unfold setFieldValue.
    destruct (reflect.KindOf (Type_ field)); try (eexists; reflexivity);
      try discriminate; injection Hx as <-; cbn [runHandler] in Hacc.
    + destruct (strconv.Atoi v); [eexists; reflexivity | discriminate].
    + destruct (ParseFloat v 64); [eexists; reflexivity | discriminate].
    + destruct (ParseFloat v 64); [eexists; reflexivity | discriminate].
    + destruct (decide _); eexists; reflexivity.
  - (* recorded by the visit of a switch *)
    rewrite Hpf, Hfs in Hr. destruct Hr as (g & Hg & Hgn & Hgk).
    assert (Hgc : CliName g ≠ "") by congruence.
    assert (Hswitch : flag.formal (flagSet q) !! name
                      = Some (flag.boolValue name)).
    { assert (Hex : ∃ f, f ∈ l ∧ CliNames f ≠ [] ∧ CliName f ≠ ""
                         ∧ name ∈ CliNames f
                         ∧ flagValueOf f name = Some (flag.boolValue name)).
      { destruct (PB _ _ Hb) as [Hq | (name' & Hq)].
        - destruct (BoolOrig _ _ Hq) as [H0 | Hex]; [|exact Hex].
          rewrite Hb0, lookup_empty in H0. discriminate.
        - destruct (Horig _ _ Hq) as (f & Hf & Hfn0 & Hfc & Hfn & Hfx);
            [discriminate|].
          assert (name' = name) as ->.
          { unfold flagValueOf in Hfx.
            destruct (reflect.KindOf (Type_ f)); congruence. }
          exists f. auto. }
      destruct Hex as (f & Hf & _ & Hfc & Hfn & Hfx).
      destruct (Hown f name Hf Hfc Hfn) as (y & Hy & Hqy). congruence. }
    destruct (Hown g name Hg Hgc Hgn) as (y & Hy & Hqy).
    rewrite Hswitch in Hqy. injection Hqy as <-.
    assert (Hgbool : reflect.KindOf (Type_ g) = reflect.Bool).
    { unfold flagValueOf in Hy.
      destruct (reflect.KindOf (Type_ g)); congruence. }
    destruct (Hown g (CliName g) Hg Hgc (Hprimary _ Hg Hgc))
      as (z & Hz & Hqz).
    rewrite Hgk, Hqx in Hqz. injection Hqz as <-.
    unfold flagValueOf in Hz, Hx. rewrite Hgbool in Hz.
    unfold setFieldValue.
    destruct (reflect.KindOf (Type_ field)); try congruence.
    rewrite ParseBool_FormatBool. eexists. reflexivity.
Qed.

End CommandLine.

(** ** Flags with a value *)

Section ValueSyntax.
Context `{GoLib}.

Lemma cutEquals_some r v :
  containsByte r "=" = false → cutEquals (r ++ "=" ++ v) = (r, true, v).
Proof.
  induction r as [|c r IH]; cbn [containsByte].
  - intros _. reflexivity.
  - intros Hc. apply orb_false_iff in Hc as [Hc Hr].
    rewrite app_cons. cbn [cutEquals]. rewrite Hc, (IH Hr). reflexivity.
Qed.

(** A name, an equals sign and a value, after one dash or two, is a
    flag token with that value. *)
Lemma classify_valued c r v :
  c ≠ "-"%char → containsByte (String c r) "=" = false →
  classify ("-" ++ String c r ++ "=" ++ v) = FlagTok (String c r) true v
  ∧ classify ("--" ++ String c r ++ "=" ++ v) = FlagTok (String c r) true v.
Proof.
  intros Hc Heq. cbn [containsByte] in Heq.
  apply orb_false_iff in Heq as [Hceq Hr].
  assert (Hname : flagName (String c (r ++ "=" ++ v))
                  = FlagTok (String c r) true v).
  { unfold flagName. rewrite Hceq.
    destruct (Ascii.eqb_spec c "-"); [congruence|]. cbn [orb].
    rewrite (cutEquals_some _ _ Hr). reflexivity. }
  split.
  - change ("-" ++ String c r ++ "=" ++ v)%string
      with (String "-" (String c (r ++ "=" ++ v))).
    cbn [classify]. rewrite Ascii.eqb_refl. cbn [negb].
    destruct (Ascii.eqb_spec c "-"); [congruence | exact Hname].
  - change ("--" ++ String c r ++ "=" ++ v)%string
      with (String "-" (String "-" (String c (r ++ "=" ++ v)))).
    cbn [classify]. rewrite !Ascii.eqb_refl. cbn [negb]. exact Hname.
Qed.

(** X18. For a flag of a string, int, float or slice field the value
    may follow an equals sign or be the next argument: both forms leave
    the same parser state and the same error. A switch takes a value
    after an equals sign only; a value that parses as a boolean sets
    its variable to that value, so an explicit false turns it off. *)
Theorem value_after_equals_or_as_next_argument (p : Parser) (c : ascii)
    (r v : string) (rest : list string) :
  c ≠ "-"%char → containsByte (String c r) "=" = false →
  (∀ h, flag.formal (flagSet p) !! String c r = Some (flag.funcValue h) →
     flagParse p (("-" ++ String c r ++ "=" ++ v) :: rest)
     = flagParse p (("-" ++ String c r) :: v :: rest)
     ∧ flagParse p (("--" ++ String c r ++ "=" ++ v) :: rest)
       = flagParse p (("--" ++ String c r) :: v :: rest))
  ∧ (∀ n b, flag.formal (flagSet p) !! String c r = Some (flag.boolValue n) →
       strconv.ParseBool v = Ok b →
       flagParse p (("-" ++ String c r ++ "=" ++ v) :: rest)
       = flagParse
           (markActual (with_boolFlags p (<[n := b]> (boolFlags p)))
                       (String c r)) rest
       ∧ flagParse p (("--" ++ String c r ++ "=" ++ v) :: rest)
         = flagParse
             (markActual (with_boolFlags p (<[n := b]> (boolFlags p)))
                         (String c r)) rest).
Proof.
  intros Hc Heq.
  destruct (classify_valued c r v Hc Heq) as (V1 & V2).
  destruct (classify_bare c r Hc Heq) as (B1 & B2).
  split.
  - intros h Hf. split; cbn [flagParse];
      rewrite ?V1, ?V2, ?B1, ?B2, Hf; reflexivity.
  - intros n b Hf Hb. split; cbn [flagParse];
      rewrite ?V1, ?V2, Hf; unfold setBool; rewrite Hb; reflexivity.
Qed.

End ValueSyntax.

(** * The theorems at concrete inputs *)

Section Instances.
#[local] Existing Instance Example.lib.

Lemma precedence_cli_env_default_witness :
  selectValue Example.cliParser Example.hostEnv Example.hostField = ("example.com", true)
  ∧ selectValue (NewParser []) Example.hostEnv Example.hostField
    = ("env.example.com", true)
  ∧ selectValue (NewParser []) ∅ Example.hostField = ("localhost", true).
Proof.
  split; [|split].
  - apply (proj1 (precedence_cli_env_default Example.cliParser Example.hostEnv Example.hostField));
      [discriminate | reflexivity | discriminate].
  - apply (proj1 (proj2 (precedence_cli_env_default (NewParser []) Example.hostEnv
                           Example.hostField)));
      [right; left; reflexivity | discriminate
      | vm_compute; discriminate].
  - apply (proj2 (proj2 (precedence_cli_env_default (NewParser []) ∅
                           Example.hostField)));
      [right; left; reflexivity
      | right; reflexivity | discriminate].
Defined.

Lemma empty_string_counts_as_absent_witness :
  noCli (with_flagValues (NewParser []) {["debug" := ""]}) Example.debugField
  ∧ noEnv {["DEBUG" := ""]} Example.debugField
  ∧ DefaultVal Example.debugField = ""
  ∧ selectValue (with_flagValues (NewParser []) {["debug" := ""]})
      {["DEBUG" := ""]} Example.debugField = ("", false)
  ∧ noCli Example.emptyHostParser Example.hostField
  ∧ applyValues Example.emptyHostParser Example.hostEnv ∅
    = (None, {["Host" := VString "env.example.com"]})
  ∧ noEnv {["HOST" := ""]} Example.hostField
  ∧ applyValues Example.emptyHostParser {["HOST" := ""]} ∅
    = (None, {["Host" := VString "localhost"]}).
Proof.
  assert (Hc : noCli (with_flagValues (NewParser []) {["debug" := ""]})
                 Example.debugField)
    by (right; right; reflexivity).
  assert (He : noEnv {["DEBUG" := ""]} Example.debugField)
    by (right; reflexivity).
  assert (Hhc : noCli Example.emptyHostParser Example.hostField)
    by (right; right; reflexivity).
  assert (Hhe : noEnv {["HOST" := ""]} Example.hostField)
    by (right; reflexivity).
  split; [exact Hc | split; [exact He | split; [reflexivity|]]].
  split.
  { exact (proj1 (proj2 (proj2 (proj2
             (empty_string_counts_as_absent
                (with_flagValues (NewParser []) {["debug" := ""]})
                {["DEBUG" := ""]} ∅ "debug"))))
             Example.debugField Hc He eq_refl). }
  split; [exact Hhc | split; [|split; [exact Hhe|]]].
  - rewrite (proj2 (proj2 (proj1 (proj2 (proj2 (proj2 (proj2
               (empty_string_counts_as_absent Example.emptyHostParser
                  Example.hostEnv ∅ "host")))))
               Example.hostField [] Hhc ltac:(discriminate)
               ltac:(discriminate))) eq_refl).
    reflexivity.
  - rewrite (proj2 (proj2 (proj1 (proj2 (proj2 (proj2 (proj2 (proj2
               (empty_string_counts_as_absent Example.emptyHostParser
                  {["HOST" := ""]} ∅ "host"))))))
               Example.hostField [] Hhc Hhe ltac:(discriminate))) eq_refl).
    reflexivity.
Defined.

Lemma string_list_coercion_witness :
  reflect.KindOf (Type_ Example.tagsField) = reflect.Slice
  ∧ reflect.KindOf (reflect.Elem (Type_ Example.tagsField)) = reflect.String
  ∧ setFieldValue Example.tagsField "a, b ,c" ∅
    = Ok {["Tags" := VStrings ["a"; "b"; "c"]]}.
Proof.
  split; [reflexivity | split; [reflexivity|]].
  exact (proj2 (proj2 (proj2 (proj2
           (string_list_coercion Example.tagsField "a, b ,c" ∅
              eq_refl eq_refl))))).
Defined.

Lemma unsupported_kind_is_discarded_witness :
  reflect.KindOf (Type_ Example.bigField) = reflect.Int64
  ∧ setFieldValue Example.bigField "123" {["Big" := VInt 7]}
    = Ok {["Big" := VInt 7]}.
Proof.
  split; [reflexivity|].
  apply (unsupported_kind_is_discarded (NewParser []) ∅ Example.bigField "123"
           {["Big" := VInt 7]});
    discriminate.
Defined.

Lemma keysParser_coerces :
  Forall (coerces Example.keysParser ∅) (fields Example.keysParser).
Proof.
  repeat constructor; intros v st Hsel; vm_compute in Hsel;
    inversion Hsel; subst; eexists; reflexivity.
Defined.

Lemma missing_required_fields_are_aggregated_witness :
  Forall (coerces Example.keysParser ∅) (fields Example.keysParser)
  ∧ filter (λ f, violation Example.keysParser ∅ f) (fields Example.keysParser)
    ≠ []
  ∧ applyValues Example.keysParser ∅ ∅
    = (Some Example.keysReport, {["Port" := VInt 8080]}).
Proof.
  assert (Hv : filter (λ f, violation Example.keysParser ∅ f)
                 (fields Example.keysParser) ≠ [])
    by (vm_compute; discriminate).
  split; [exact keysParser_coerces | split; [exact Hv|]].
  rewrite (proj1 (missing_required_fields_are_aggregated Example.keysParser
                    ∅ ∅ keysParser_coerces Hv)).
  reflexivity.
Defined.

Lemma aggregated_error_leaves_written_record_witness :
  applyValues Example.keysParser ∅ ∅
  = (Some Example.keysReport, {["Port" := VInt 8080]})
  ∧ strings.HasPrefix Example.keysReport "missing required fields:" = true
  ∧ ({["Port" := VInt 8080]} : Store)
    = foldl (writeResolved Example.keysParser ∅) ∅ (fields Example.keysParser).
Proof.
  assert (Hrun : applyValues Example.keysParser ∅ ∅
                 = (Some Example.keysReport, {["Port" := VInt 8080]}))
    by reflexivity.
  split; [exact Hrun | split; [reflexivity|]].
  exact (proj1 (aggregated_error_leaves_written_record Example.keysParser ∅ ∅
                  _ _ Hrun eq_refl)).
Defined.

Lemma numeric_parse_failure_aborts_witness :
  selectValue (NewParser []) {["PORT" := "abc"]} Example.portField
  = ("abc", true)
  ∧ applyLoop (NewParser []) {["PORT" := "abc"]}
      [Example.portField; Example.hostField] ["Key (env: KEY)"] ∅
    = (Some ("error setting field Port: strconv.Atoi: parsing "
               ++ Example.dquote ++ "abc" ++ Example.dquote
               ++ ": invalid syntax"), ∅).
Proof.
  assert (Hsel : selectValue (NewParser []) {["PORT" := "abc"]}
                   Example.portField = ("abc", true))
    by (reflexivity).
  split; [exact Hsel|].
  exact (proj2 (proj1 (numeric_parse_failure_aborts (NewParser [])
                         {["PORT" := "abc"]} Example.portField "abc"
                         [Example.hostField] ["Key (env: KEY)"] ∅ Hsel)
                  eq_refl)
           (strconv.mkNumError "Atoi" "abc" strconv.ErrSyntax) eq_refl).
Defined.

Lemma env_prefix_applied_once_witness :
  EnvName (parseFieldTags (with_envPrefix (NewParser [WithEnvPrefix "MYAPP_"]) "")
             Example.portEnvField "Port" "Port") ≠ ""
  ∧ EnvName (parseFieldTags (NewParser [WithEnvPrefix "MYAPP_"])
               Example.portEnvField "Port" "Port") = "MYAPP_PORT"
  ∧ EnvName (parseFieldTags (NewParser [WithEnvPrefix "MYAPP_"])
               (Example.member "Host" Example.tString [("env", "MYAPP_PORT")])
               "Host" "Host") = "MYAPP_PORT".
Proof.
  assert (Hb : EnvName (parseFieldTags
                          (with_envPrefix (NewParser [WithEnvPrefix "MYAPP_"]) "")
                          Example.portEnvField "Port" "Port") ≠ "")
    by (vm_compute; discriminate).
  pose proof (env_prefix_applied_once (NewParser [WithEnvPrefix "MYAPP_"])
                Example.portEnvField "Port" "Port" Hb)
    as (_ & _ & _ & Hadd & _ & Hagain).
  split; [exact Hb | split].
  - exact (Hadd eq_refl).
  - exact (Hagain "Host" true [] Example.tString "Host" "Host").
Defined.

Lemma descriptor_iff_configurable_witness :
  (Example.plainInfo
   ∉ fields (walkStruct Example.plainParser Example.PlainConfig ""))
  ∧ (Example.hostField
     ∈ fields (walkStruct (NewParser []) Example.Config "")).
Proof.
  split.
  - intros Hin.
    apply (proj1 (descriptor_iff_configurable Example.plainParser
                    Example.PlainConfig "")) in Hin
      as [Hin | (sf & path & _ & _ & Hc)].
    + inversion Hin.
    + destruct Hc as [Hc | [Hc | Hc]]; apply Hc; reflexivity.
  - apply (proj1 (descriptor_iff_configurable (NewParser []) Example.Config "")).
    right.
    exists (Example.member "Host" Example.tString
              [("env", "HOST"); ("flag", "host,H"); ("default", "localhost")]),
           "Host".
    split; [|split; [reflexivity | left; discriminate]].
    apply (leaf_here _ ""
             (Example.member "Host" Example.tString
                [("env", "HOST"); ("flag", "host,H"); ("default", "localhost")]));
      [left | reflexivity | discriminate].
Defined.

Lemma parsedD_actual : flag.actual (flagSet Example.parsedD) = {["d"]}.
Proof. reflexivity. Qed.

Lemma boolean_switch_presence_witness :
  reflect.KindOf (Type_ Example.debugField) = reflect.Bool
  ∧ applyLoop (Visit Example.parsedD) ∅ [Example.debugField] [] ∅
    = (None, {["Debug" := VBool true]}).
Proof.
  split; [reflexivity|].
  rewrite (proj2 (proj2 (proj2 (proj2
             (boolean_switch_presence ∅ Example.debugField eq_refl))))
             Example.parsedD "d" [] [] ∅).
  - reflexivity.
  - discriminate.
  - vm_compute. right. right. left.
  - right. left.
  - rewrite parsedD_actual. apply elem_of_singleton. reflexivity.
  - reflexivity.
  - intros m b Hm Hb _. rewrite parsedD_actual in Hm.
    apply elem_of_singleton in Hm. subst m. vm_compute in Hb. congruence.
Defined.

(** C4, as stated, fails: a float32 descriptor whose selected value is
    beyond the range of float32 is parsed with bit size 64, as
    [setFieldValue] and [createFloatHandler] both write it, and
    resolution succeeds where a parse in the width of the field reports
    a range error; the field receives the narrowed value. *)
Lemma numeric_width_counterexample :
  ParseFloat Example.tenTo39 32
  = Err (strconv.mkNumError "ParseFloat" Example.tenTo39 strconv.ErrRange)
  ∧ ParseDefault Example.RatioConfig ∅ [] ∅
    = Returned None {["Ratio" := VFloat32 (Example.Infinite false)]}.
Proof. split; reflexivity. Qed.

(** C3, as stated, fails: with a required descriptor that resolves no
    value and a later int descriptor whose default is not a number, the
    error returned is that of the coercion, not the aggregated one. *)
Lemma aggregation_preempted_counterexample :
  ParseDefault Example.KeyPortConfig ∅ [] ∅
  = Returned
      (Some ("error setting field Port: strconv.Atoi: parsing "
               ++ Example.dquote ++ "x" ++ Example.dquote
               ++ ": invalid syntax"))
      ∅.
Proof. reflexivity. Qed.

(** C5, as stated, fails: with the flag absent, no environment value
    and no default, a field that held true before the call holds true
    after it. *)
Lemma switch_absent_counterexample :
  ParseDefault Example.DebugConfig {["Debug" := VBool true]} [] ∅
  = Returned None {["Debug" := VBool true]}.
Proof. reflexivity. Qed.

(** ** The scenarios of the specification and of the tests *)

(** [setFieldValue] of this version has no case for the sized integer
    kinds, which the tests [TestIntegerTypesConfig] and
    [TestIntegerValidation] of the repository expect to be parsed: an
    int16 member whose default is not a number is left untouched and no
    error is returned. *)
Example scenario_sized_integer_untouched :
  ParseDefault Example.CountConfig ∅ [] ∅ = Returned None ∅.
Proof. reflexivity. Qed.

Example scenario_short_flags :
  ParseDefault Example.Config ∅ ["-H"; "example.com"; "-p"; "9000"; "-d"] ∅
  = Returned None
      (<["Host" := VString "example.com"]>
         (<["Port" := VInt 9000]> {["Debug" := VBool true]})).
Proof. reflexivity. Qed.

Example scenario_environment :
  ParseDefault Example.Config ∅ []
    (<["HOST" := "example.com"]>
       (<["PORT" := "9000"]> {["DEBUG" := "true"]}))
  = Returned None
      (<["Host" := VString "example.com"]>
         (<["Port" := VInt 9000]> {["Debug" := VBool true]})).
Proof. reflexivity. Qed.

Example scenario_defaults :
  ParseDefault Example.Config ∅ [] ∅
  = Returned None
      (<["Host" := VString "localhost"]> {["Port" := VInt 8080]}).
Proof. reflexivity. Qed.

Example scenario_three_missing :
  ParseDefault Example.KeysConfig ∅ [] ∅
  = Returned (Some Example.keysReport) {["Port" := VInt 8080]}.
Proof. reflexivity. Qed.

Example scenario_invalid_integer_flag :
  ParseDefault Example.Config ∅ ["--port"; "not-a-number"] ∅
  = Returned
      (Some ("invalid value " ++ Example.dquote ++ "not-a-number"
               ++ Example.dquote
               ++ " for flag -port: invalid integer value: not-a-number"))
      ∅.
Proof. reflexivity. Qed.

Example scenario_help : ParseDefault Example.Config ∅ ["--help"] ∅ = Exited 0.
Proof. reflexivity. Qed.

Example scenario_no_double_prefix :
  Parse (NewParser [WithEnvPrefix "MYAPP_"])
    (reflect.StructOf
       [ Example.member "Field1" Example.tString [("env", "MYAPP_HOST")];
         Example.member "Field2" Example.tString [("env", "PORT")] ])
    ∅ [] (<["MYAPP_HOST" := "host1"]> {["MYAPP_PORT" := "8080"]})
  = Returned None
      (<["Field1" := VString "host1"]> {["Field2" := VString "8080"]}).
Proof. reflexivity. Qed.

End Instances.

(** ** The further properties at concrete inputs *)

Section MoreInstances.
#[local] Existing Instance Example.lib.

Lemma listed_fields :
  fields (walkStruct (NewParser []) Example.Config "")
  = [Example.hostField; Example.portField; Example.debugField].
Proof. reflexivity. Qed.

Lemma registered_ok :
  registerFlags (walkStruct (NewParser []) Example.Config "")
  = Ok Example.registered.
Proof. reflexivity. Qed.

Lemma registered_fields :
  fields Example.registered
  = [Example.hostField; Example.portField; Example.debugField].
Proof. reflexivity. Qed.

Lemma registrable_listed g :
  g ∈ [Example.hostField; Example.portField; Example.debugField] →
  registrable g.
Proof.
  intros Hg. repeat (apply elem_of_cons in Hg as [-> | Hg]);
    [| | | inversion Hg];
    (split; [discriminate | split; [discriminate | cbn; in_list]]).
Qed.

Lemma selected_value_is_a_nonempty_source_witness :
  selectValue (NewParser []) Example.hostEnv Example.hostField
  = ("env.example.com", true)
  ∧ "env.example.com" ≠ "".
Proof.
  assert (Hsel : selectValue (NewParser []) Example.hostEnv Example.hostField
                 = ("env.example.com", true)) by reflexivity.
  split; [exact Hsel|].
  exact (proj1 (proj1 (selected_value_is_a_nonempty_source
                         (NewParser []) Example.hostEnv Example.hostField
                         "env.example.com" true Hsel) eq_refl)).
Defined.

Lemma assignment_is_local_witness :
  setFieldValue Example.portField "9000" {["Host" := VString "a"]}
  = Ok (<["Port" := VInt 9000]> {["Host" := VString "a"]})
  ∧ (<["Port" := VInt 9000]> {["Host" := VString "a"]} : Store) !! "Host"
    = ({["Host" := VString "a"]} : Store) !! "Host".
Proof.
  assert (Hset : setFieldValue Example.portField "9000"
                   {["Host" := VString "a"]}
                 = Ok (<["Port" := VInt 9000]> {["Host" := VString "a"]}))
    by reflexivity.
  split; [exact Hset|].
  apply (proj1 (assignment_is_local Example.portField "9000" _ _ Hset) "Host").
  discriminate.
Defined.

Lemma coercion_failure_stops_the_loop_witness :
  applyValues
    (with_fields (NewParser [])
       [Example.hostField; Example.badPortField; Example.debugField]) ∅ ∅
  = (Some ("error setting field Port: strconv.Atoi: parsing "
             ++ Example.dquote ++ "x" ++ Example.dquote
             ++ ": invalid syntax"),
     {["Host" := VString "localhost"]}).
Proof.
  rewrite (coercion_failure_stops_the_loop
             (with_fields (NewParser [])
                [Example.hostField; Example.badPortField; Example.debugField])
             ∅ [Example.hostField] [Example.debugField] Example.badPortField
             "x" (strconv.mkNumError "Atoi" "x" strconv.ErrSyntax) ∅).
  - reflexivity.
  - reflexivity.
  - repeat constructor. intros v st Hsel. vm_compute in Hsel.
    inversion Hsel; subst. eexists. reflexivity.
  - reflexivity.
  - reflexivity.
Defined.

Lemma string_list_length_witness :
  ∃ l, setFieldValue Example.tagsField "a,b," ∅
       = Ok (<["Tags" := VStrings l]> ∅)
       ∧ length l = 3%nat.
Proof.
  exact (string_list_length Example.tagsField "a,b," ∅ eq_refl eq_refl).
Defined.

Lemma handler_accepts_what_coerces_witness :
  (∃ p', runHandler (flag.IntHandler "port") "9000" (NewParser []) = Ok p')
  ↔ ∃ st', setFieldValue Example.portField "9000" ∅ = Ok st'.
Proof.
  exact (proj1 (proj2 (proj2 (handler_accepts_what_coerces
                                (flag.IntHandler "port") "9000"
                                (NewParser []))))
           "port" Example.portField ∅ eq_refl eq_refl).
Defined.

Lemma registration_defines_every_alias_witness :
  registerFlags (walkStruct (NewParser []) Example.Config "")
  = Ok Example.registered
  ∧ flag.formal (flagSet (walkStruct (NewParser []) Example.Config "")) !! "p"
    = None
  ∧ is_Some (flag.formal (flagSet Example.registered) !! "p").
Proof.
  split; [exact registered_ok|].
  apply (proj2 (proj2 (registration_defines_every_alias _ _ registered_ok))
           Example.portField "p").
  - rewrite listed_fields. in_list.
  - apply registrable_listed. in_list.
  - cbn. in_list.
Defined.

Lemma duplicate_flag_name_panics_witness :
  ∃ msg, registerFlags (with_fields (NewParser []) [Example.clashField])
         = Err msg.
Proof.
  apply (proj1 (duplicate_flag_name_panics
                  (with_fields (NewParser []) [Example.clashField]))
           Example.clashField "h").
  - left.
  - split; [discriminate | split; [discriminate | cbn; in_list]].
  - cbn. in_list.
  - eexists. reflexivity.
Defined.

Lemma PrintHelp_panics_iff_short_witness :
  (PrintHelp Example.listedParser "myapp").2 = None.
Proof.
  apply (proj1 (PrintHelp_panics_iff_short Example.listedParser "myapp")).
  exists Example.hostField.
  split; [left | split; [reflexivity | vm_compute; discriminate]].
Defined.

Lemma width_is_signature_length_witness :
  flagLenOf Example.hostField
  = Z.of_nat (String.length "--host, -H <value>").
Proof.
  apply (width_is_signature_length Example.hostField). discriminate.
Defined.

Lemma help_columns_align_witness :
  Z.of_nat (String.length
              (padRight 22 (flagSignature Example.debugField))) = 22
  ∧ Z.of_nat (String.length (flagSignature Example.debugField)) + 4 ≤ 22.
Proof.
  apply (help_columns_align Example.listedParser Example.debugField).
  - cbn. in_list.
  - reflexivity.
  - reflexivity.
Defined.

Lemma help_panic_reaches_the_caller_witness :
  (ParseWithOutput (NewParser []) Example.Config ∅ ["--bogus"] ∅ "myapp").2
  = Parse (NewParser []) Example.Config ∅ ["--bogus"] ∅.
Proof.
  apply (proj1 (help_panic_reaches_the_caller (NewParser []) Example.Config
                  ∅ ["--bogus"] ∅ "myapp")).
  reflexivity.
Defined.

Lemma help_switch_prints_and_exits_witness :
  ParseWithOutput (NewParser []) Example.Config ∅ ["--help"]
    {["PORT" := "abc"]} "myapp"
  = match PrintHelp (walkStruct (NewParser []) Example.Config "") "myapp" with
    | (out, None) => (out, Exited 0)
    | (out, Some msg) => (out, Panicked msg)
    end.
Proof.
  apply (help_switch_prints_and_exits [] Example.Config ∅
           {["PORT" := "abc"]} "myapp" "--help" Example.registered).
  - unfold helpSwitches. in_list.
  - exact registered_ok.
Defined.

Lemma parsedBoth_actual :
  flag.actual (flagSet Example.parsedBoth) = {["d"]} ∪ ({["debug"]} ∪ ∅).
Proof. reflexivity. Qed.

Lemma last_switch_in_name_order_decides_witness :
  flagValues (Visit Example.parsedBoth) !! "debug" = Some "false".
Proof.
  apply (last_switch_in_name_order_decides Example.parsedBoth "debug" "debug"
           false).
  - rewrite parsedBoth_actual. set_solver.
  - reflexivity.
  - exists Example.debugField. split; [|split; [cbn; in_list | reflexivity]].
    change (fields Example.parsedBoth)
      with [Example.hostField; Example.portField; Example.debugField].
    in_list.
  - intros m Hm _ _. rewrite parsedBoth_actual in Hm.
    apply elem_of_union in Hm as [Hm | Hm].
    + apply elem_of_singleton in Hm. subst m. vm_compute. exact I.
    + apply elem_of_union in Hm as [Hm | Hm]; [|set_solver].
      apply elem_of_singleton in Hm. subst m. vm_compute. exact I.
Defined.

Lemma command_line_values_coerce_witness :
  ∃ st', setFieldValue Example.portField "9000" ∅ = Ok st'.
Proof.
  apply (command_line_values_coerce [] Example.Config ["--port"; "9000"]
           Example.registered Example.parsedPort Example.portField "9000" ∅).
  - exact registered_ok.
  - reflexivity.
  - intros g Hg _. rewrite registered_fields in Hg.
    apply registrable_listed. exact Hg.
  - rewrite registered_fields. in_list.
  - discriminate.
  - reflexivity.
Defined.

Lemma value_after_equals_or_as_next_argument_witness :
  flagParse Example.registered ["--port=9000"; "-d"]
  = flagParse Example.registered ["--port"; "9000"; "-d"].
Proof.
  apply (proj1 (value_after_equals_or_as_next_argument Example.registered
                  "p" "ort" "9000" ["-d"] ltac:(discriminate) eq_refl)
           (flag.IntHandler "port")).
  reflexivity.
Defined.

(** The listing of [ExampleParser_PrintHelp]. *)
Example scenario_help_listing :
  PrintHelp (walkStruct (NewParser []) Example.HelpConfig "") "myapp"
  = (Example.helpText, None).
Proof. reflexivity. Qed.

(** With a one-letter switch as the only flag, asking for help panics
    after the lines of the descriptors are written. *)
Example scenario_help_panics :
  ParseWithOutput (NewParser []) Example.QuietConfig ∅ ["-h"] ∅ "myapp"
  = ("Usage: myapp [options]" ++ nl ++ nl ++ "Options:" ++ nl
       ++ "  -v     Verbose" ++ nl,
     Panicked "strings: negative Repeat count").
Proof. reflexivity. Qed.

(** The switch that is last in name order decides, in either order on
    the command line. *)
Example scenario_alias_order :
  ParseDefault Example.Config ∅ ["--debug=false"; "-d"] ∅
  = Returned None
      (<["Host" := VString "localhost"]>
         (<["Port" := VInt 8080]> {["Debug" := VBool false]}))
  ∧ ParseDefault Example.Config ∅ ["-d"; "--debug=false"] ∅
    = Returned None
        (<["Host" := VString "localhost"]>
           (<["Port" := VInt 8080]> {["Debug" := VBool false]}))
  ∧ ParseDefault Example.Config ∅ ["-d=false"; "--debug"] ∅
    = Returned None
        (<["Host" := VString "localhost"]>
           (<["Port" := VInt 8080]> {["Debug" := VBool true]})).
Proof. repeat split; reflexivity. Qed.

(** A member of a kind [registerFlags] does not handle that lists the
    flag names of others: the value of the switch is recorded under the
    primary name of the int member and fails to coerce. *)
Example scenario_shared_name :
  Parse (NewParser []) Example.SharedConfig ∅ ["--verbose"] ∅
  = Returned
      (Some ("error setting field Port: strconv.Atoi: parsing "
               ++ Example.dquote ++ "true" ++ Example.dquote
               ++ ": invalid syntax"))
      ∅.
Proof. reflexivity. Qed.

End MoreInstances.
